(** * Mono-tower: physics, level generation and fixed-step scheduling

    A shallow embedding of the TypeScript sources
      - [src/services/PhysicsEngine.ts]  (module [PhysicsEngine]),
      - the lighter resolver kept next to it (module [PhysicsEngineLite]),
      - [src/services/LevelGenerator.ts] (module [LevelGenerator]),
      - [src/services/GameEngine.ts]     (module [GameEngine]),
    together with the constants and types they import.

    Numbers.  A JavaScript [number] is modelled by a real number: every
    arithmetic operation is the exact one, so rounding of IEEE doubles is
    idealised away.  Integer-valued numbers that are only used as grid
    coordinates, identifiers or counters are modelled by [Z] / [nat].

    Keys.  The block map is keyed by the string [`${gx},${gy},${gz}`];
    on integer triples this rendering is injective, so the key is modelled
    by the triple itself.

    Mutation.  Objects mutated in place ([player.pos], [player.vel], the
    engine fields) are threaded explicitly through the functions. *)

From Stdlib Require Import Reals Lra Lia ZArith List Bool Ascii String.
From Equations Require Import Equations.
From stdpp Require Import gmap.
Import ListNotations.

#[local] Set Warnings "-clear-no-such-hyp".

#[local] Open Scope R_scope.

(** ** JavaScript numbers and [Math] *)

Module Num.

Definition ltb (a b : R) : bool := if Rlt_dec a b then true else false.
Definition gtb (a b : R) : bool := ltb b a.
Definition geb (a b : R) : bool := negb (ltb a b).

Lemma ltb_true a b : ltb a b = true <-> a < b.
Proof. unfold ltb. destruct (Rlt_dec a b); split; intros; try easy. Qed.

Lemma ltb_false a b : ltb a b = false <-> b <= a.
Proof.
  unfold ltb. destruct (Rlt_dec a b); split; intros; try easy; lra.
Qed.

Lemma gtb_true a b : gtb a b = true <-> b < a.
Proof. apply ltb_true. Qed.

Lemma gtb_false a b : gtb a b = false <-> a <= b.
Proof. apply ltb_false. Qed.

Lemma geb_true a b : geb a b = true <-> b <= a.
Proof. unfold geb. rewrite negb_true_iff. apply ltb_false. Qed.

Lemma geb_false a b : geb a b = false <-> a < b.
Proof. unfold geb. rewrite negb_false_iff. apply ltb_true. Qed.

End Num.

Module Math.

Definition abs (v : R) : R := Rabs v.
Definition max (a b : R) : R := Rmax a b.
Definition min (a b : R) : R := Rmin a b.
Definition sqrt (v : R) : R := R_sqrt.sqrt v.

(** [Math.sign] on a number that is not NaN; the result is only ever
    added to a grid coordinate. *)
Definition sign (v : R) : Z :=
  if Num.ltb 0 v then 1%Z else if Num.ltb v 0 then (-1)%Z else 0%Z.

(** [Math.floor] and [Math.round] (the latter rounds halves upwards). *)
Definition floor (v : R) : Z := (up v - 1)%Z.
Definition round (v : R) : Z := floor (v + 0.5).

End Math.

(** Matching on a value while keeping the equation that defines it. *)
Definition inspect {A : Type} (a : A) : { b : A | a = b } := exist _ a eq_refl.

(** ** three.js vectors *)

Module THREE.

Record Vector3 := mkVector3 { x : R; y : R; z : R }.

Definition add (a b : Vector3) : Vector3 :=
  mkVector3 (x a + x b) (y a + y b) (z a + z b).
Definition multiplyScalar (a : Vector3) (s : R) : Vector3 :=
  mkVector3 (x a * s) (y a * s) (z a * s).
Definition divideScalar (a : Vector3) (s : R) : Vector3 :=
  mkVector3 (x a / s) (y a / s) (z a / s).
Definition dot (a b : Vector3) : R := x a * x b + y a * y b + z a * z b.
Definition length (a : Vector3) : R :=
  Math.sqrt (x a * x a + y a * y a + z a * z a).
(** [normalize()] divides by [length() || 1]. *)
Definition normalize (a : Vector3) : Vector3 :=
  let l := length a in
  divideScalar a (if Req_dec_T l 0 then 1 else l).

End THREE.

Abbreviation Vector3 := THREE.Vector3.

(** ** types.ts *)

Inductive BlockType := Standard | Spike.

#[global] Instance BlockType_eq_dec : EqDecision BlockType.
Proof. solve_decision. Defined.

Module BlockData.
Record t := mk {
  min : Vector3;
  max : Vector3;
  center : Vector3;
  gx : Z;
  gy : Z;
  gz : Z;
  type : BlockType;
  id : nat
}.
End BlockData.

Abbreviation BlockData := BlockData.t.

(** The key [`${gx},${gy},${gz}`]. *)
Definition Key : Type := Z * Z * Z.
Definition keyOf (gx gy gz : Z) : Key := (gx, gy, gz).

Abbreviation BlockMap := (gmap Key BlockData).

Record PlayerState := mkPlayer {
  pos : Vector3;
  vel : Vector3;
  grounded : bool;
  coyoteTime : Z
}.

Record InputState := mkInput {
  key_w : bool;
  key_a : bool;
  key_s : bool;
  key_d : bool;
  key_space : bool
}.

(** ** constants.ts *)

Module CONFIG.
Definition blockSize : R := 40.
Definition gravity : R := 0.65.
Definition jumpForce : R := 14.
Definition moveSpeed : R := 1.2.
Definition friction : R := 0.82.
Definition maxSpeed : R := 10.
Definition playerRadius : R := 20.
End CONFIG.

Module PHYSICS.
Definition collisionRange : R := 80.
Definition coyoteFrames : Z := 5.
End PHYSICS.

(** ** What a resolver call leaves behind

    [resolveCollisions] mutates the player object and may call the
    [onReset] callback, which itself mutates the player.  A call is
    described by the player it leaves and the number of times it invoked
    the callback. *)

Record Resolved := mkResolved {
  playerOut : PlayerState;
  onResetCalls : nat
}.

(** How one iteration of [for (const b of blocks)] ends: the loop goes on
    with the (possibly mutated) player and ground flag, or the iteration
    runs [onReset(); return;]. *)
Inductive Step :=
| Continue (pl : PlayerState) (isGroundedThisFrame : bool)
| ResetAndReturn (pl : PlayerState).

(** Parts shared by both resolvers. *)

Module Resolver.

(** The broad-phase test that makes the loop [continue]. *)
Definition outOfRange (b : BlockData) (p : Vector3) : bool :=
  Num.gtb (Math.abs (THREE.x (BlockData.center b) - THREE.x p)) PHYSICS.collisionRange
  || Num.gtb (Math.abs (THREE.y (BlockData.center b) - THREE.y p)) PHYSICS.collisionRange
  || Num.gtb (Math.abs (THREE.z (BlockData.center b) - THREE.z p)) PHYSICS.collisionRange.

(** [p - closest], component-wise, for the box [min, max]. *)
Definition distSq (d : Vector3) : R :=
  THREE.x d * THREE.x d + THREE.y d * THREE.y d + THREE.z d * THREE.z d.

(** [distSq < r * r && distSq > 0.00001] *)
Definition collides (dSq : R) : bool :=
  Num.ltb dSq (CONFIG.playerRadius * CONFIG.playerRadius) && Num.gtb dSq 0.00001.

(** The neighbour test guarded by [absY < 0.5]. *)
Definition hasNeighborInNormalDir
    (blockMap : BlockMap) (b : BlockData) (normal : Vector3) : bool :=
  let absX := Math.abs (THREE.x normal) in
  let absY := Math.abs (THREE.y normal) in
  let absZ := Math.abs (THREE.z normal) in
  if Num.ltb absY 0.5 then
    if Num.gtb absX absZ then
      let sign := Math.sign (THREE.x normal) in
      bool_decide (is_Some (blockMap !!
        keyOf (BlockData.gx b + sign) (BlockData.gy b) (BlockData.gz b)))
    else
      let sign := Math.sign (THREE.z normal) in
      bool_decide (is_Some (blockMap !!
        keyOf (BlockData.gx b) (BlockData.gy b) (BlockData.gz b + sign)))
  else false.

(** Push-out, velocity cancelling and the ground flag. *)
Definition pushOut (pl : PlayerState) (isGroundedThisFrame : bool)
    (normal : Vector3) (penetration : R) : PlayerState * bool :=
  let p' := THREE.add (pos pl) (THREE.multiplyScalar normal penetration) in
  let velAlongNormal := THREE.dot (vel pl) normal in
  if Num.ltb velAlongNormal 0 then
    let j := - velAlongNormal in
    let v' := THREE.add (vel pl) (THREE.multiplyScalar normal j) in
    (mkPlayer p' v' (grounded pl) (coyoteTime pl),
     if Num.gtb (THREE.y normal) 0.7 then true else isGroundedThisFrame)
  else
    (mkPlayer p' (vel pl) (grounded pl) (coyoteTime pl), isGroundedThisFrame).

(** The state update after the loop. *)
Definition stateUpdate (pl : PlayerState) (isGroundedThisFrame : bool) : PlayerState :=
  if isGroundedThisFrame then
    mkPlayer (pos pl) (vel pl) true PHYSICS.coyoteFrames
  else if (0 <? coyoteTime pl)%Z then
    mkPlayer (pos pl) (vel pl) (grounded pl) (coyoteTime pl - 1)
  else
    mkPlayer (pos pl) (vel pl) false (coyoteTime pl).

(** [applyPhysics], textually the same in both engines. *)
Definition applyPhysics (pl : PlayerState) (inputForce : Vector3) : PlayerState :=
  let v1 := THREE.add (vel pl) inputForce in
  let v2 := THREE.mkVector3 (THREE.x v1 * CONFIG.friction) (THREE.y v1)
                            (THREE.z v1 * CONFIG.friction) in
  let v3 := THREE.mkVector3 (THREE.x v2) (THREE.y v2 - CONFIG.gravity) (THREE.z v2) in
  let hSpeed := Math.sqrt (THREE.x v3 ^ 2 + THREE.z v3 ^ 2) in
  let v4 :=
    if Num.gtb hSpeed CONFIG.maxSpeed then
      let ratio := CONFIG.maxSpeed / hSpeed in
      THREE.mkVector3 (THREE.x v3 * ratio) (THREE.y v3) (THREE.z v3 * ratio)
    else v3 in
  mkPlayer (THREE.add (pos pl) v4) v4 (grounded pl) (coyoteTime pl).

End Resolver.

(** ** The lighter resolver (neighbour heuristic only) *)

Module PhysicsEngineLite.
Import Resolver.

Definition closest (b : BlockData) (p : Vector3) : Vector3 :=
  THREE.mkVector3
    (Math.max (THREE.x (BlockData.min b)) (Math.min (THREE.x p) (THREE.x (BlockData.max b))))
    (Math.max (THREE.y (BlockData.min b)) (Math.min (THREE.y p) (THREE.y (BlockData.max b))))
    (Math.max (THREE.z (BlockData.min b)) (Math.min (THREE.z p) (THREE.z (BlockData.max b)))).

Definition dist (b : BlockData) (p : Vector3) : Vector3 :=
  let c := closest b p in
  THREE.mkVector3 (THREE.x p - THREE.x c) (THREE.y p - THREE.y c) (THREE.z p - THREE.z c).

(** One iteration of [for (const b of blocks)]. *)
Definition body (blockMap : BlockMap) (pl : PlayerState)
    (isGroundedThisFrame : bool) (b : BlockData) : Step :=
  if outOfRange b (pos pl) then Continue pl isGroundedThisFrame
  else
    let d := dist b (pos pl) in
    let dSq := distSq d in
    if collides dSq then
      match BlockData.type b with
      | Spike => ResetAndReturn pl
      | Standard =>
        let dist := Math.sqrt dSq in
        let normal := THREE.divideScalar d dist in
        let penetration := CONFIG.playerRadius - dist in
        let isInternalEdge := hasNeighborInNormalDir blockMap b normal in
        if negb isInternalEdge then
          let '(pl', g') := pushOut pl isGroundedThisFrame normal penetration in
          Continue pl' g'
        else Continue pl isGroundedThisFrame
      end
    else Continue pl isGroundedThisFrame.

Fixpoint forBlocks (blockMap : BlockMap) (blocks : list BlockData)
    (pl : PlayerState) (isGroundedThisFrame : bool) : Step :=
  match blocks with
  | [] => Continue pl isGroundedThisFrame
  | b :: rest =>
    match body blockMap pl isGroundedThisFrame b with
    | Continue pl' g' => forBlocks blockMap rest pl' g'
    | ResetAndReturn pl' => ResetAndReturn pl'
    end
  end.

Definition resolveCollisions (pl : PlayerState) (blocks : list BlockData)
    (blockMap : BlockMap) (onReset : PlayerState -> PlayerState) : Resolved :=
  match forBlocks blockMap blocks pl false with
  | ResetAndReturn pl' => mkResolved (onReset pl') 1
  | Continue pl' isGroundedThisFrame =>
    mkResolved (stateUpdate pl' isGroundedThisFrame) 0
  end.

Definition applyPhysics (pl : PlayerState) (inputForce : Vector3) : PlayerState :=
  Resolver.applyPhysics pl inputForce.

End PhysicsEngineLite.

(** ** src/services/PhysicsEngine.ts

    The resolver the game engine runs.  The private debug counters and
    the [console.log] calls they gate only read the player; they are left
    out of the model. *)

Module Box.
(** The [{ min, max }] object returned by the merge functions. *)
Record t := mk { min : Vector3; max : Vector3 }.
End Box.

Module PhysicsEngine.
Import Resolver.

Definition clamp (v min max : R) : R := Math.max min (Math.min max v).

Definition sqr (v : R) : R := v * v.

Definition getNeighbor (blockMap : BlockMap) (gx gy gz : Z) : option BlockData :=
  blockMap !! keyOf gx gy gz.

(** [neighbors.filter(Boolean)]: the neighbours that exist, in order. *)
Definition filterBoolean (l : list (option BlockData)) : list BlockData :=
  omap (fun o => o) l.

Fixpoint firstMergeable (block : BlockData) (neighbors : list BlockData)
    : option Box.t :=
  match neighbors with
  | [] => None
  | nb :: rest =>
    if negb (bool_decide (BlockData.type nb = Standard)) then firstMergeable block rest
    else if negb (BlockData.gy nb =? BlockData.gy block)%Z then firstMergeable block rest
    else
      let touchesX := (BlockData.gz nb =? BlockData.gz block)%Z
                      && (Z.abs (BlockData.gx nb - BlockData.gx block) =? 1)%Z in
      let touchesZ := (BlockData.gx nb =? BlockData.gx block)%Z
                      && (Z.abs (BlockData.gz nb - BlockData.gz block) =? 1)%Z in
      if negb touchesX && negb touchesZ then firstMergeable block rest
      else
        Some (Box.mk
          (THREE.mkVector3
            (Math.min (THREE.x (BlockData.min block)) (THREE.x (BlockData.min nb)))
            (Math.min (THREE.y (BlockData.min block)) (THREE.y (BlockData.min nb)))
            (Math.min (THREE.z (BlockData.min block)) (THREE.z (BlockData.min nb))))
          (THREE.mkVector3
            (Math.max (THREE.x (BlockData.max block)) (THREE.x (BlockData.max nb)))
            (Math.max (THREE.y (BlockData.max block)) (THREE.y (BlockData.max nb)))
            (Math.max (THREE.z (BlockData.max block)) (THREE.z (BlockData.max nb)))))
  end.

Definition tryMergeWithNeighbor (block : BlockData) (blockMap : BlockMap)
    : option Box.t :=
  if negb (bool_decide (BlockData.type block = Standard)) then None
  else
    let neighbors := filterBoolean
      [ getNeighbor blockMap (BlockData.gx block + 1) (BlockData.gy block) (BlockData.gz block);
        getNeighbor blockMap (BlockData.gx block - 1) (BlockData.gy block) (BlockData.gz block);
        getNeighbor blockMap (BlockData.gx block) (BlockData.gy block) (BlockData.gz block + 1);
        getNeighbor blockMap (BlockData.gx block) (BlockData.gy block) (BlockData.gz block - 1) ] in
    firstMergeable block neighbors.

(** The six running extrema of the flood fill, widened by block [b]. *)
Definition widen (acc : Box.t) (b : BlockData) : Box.t :=
  Box.mk
    (THREE.mkVector3
      (Math.min (THREE.x (Box.min acc)) (THREE.x (BlockData.min b)))
      (Math.min (THREE.y (Box.min acc)) (THREE.y (BlockData.min b)))
      (Math.min (THREE.z (Box.min acc)) (THREE.z (BlockData.min b))))
    (THREE.mkVector3
      (Math.max (THREE.x (Box.max acc)) (THREE.x (BlockData.max b)))
      (Math.max (THREE.y (Box.max acc)) (THREE.y (BlockData.max b)))
      (Math.max (THREE.z (Box.max acc)) (THREE.z (BlockData.max b)))).

(** The test that lets a dequeued cell widen the box and enqueue its
    neighbours: a Standard block of the start layer. *)
Definition onLayer (start b : BlockData) : bool :=
  bool_decide (BlockData.type b = Standard)
  && (BlockData.gy b =? BlockData.gy start)%Z.

Definition fourNeighbours (k : Key) : list Key :=
  let '(gx, gy, gz) := k in
  [ (gx + 1, gy, gz); (gx - 1, gy, gz); (gx, gy, gz + 1); (gx, gy, gz - 1) ]%Z.

Lemma length_fourNeighbours k : length (fourNeighbours k) = 4%nat.
Proof. destruct k as [[gx gy] gz]. reflexivity. Qed.

Lemma unvisited_le (blockMap : BlockMap) (visited : gset Key) (k : Key) :
  (size (dom blockMap ∖ ({[k]} ∪ visited)) <= size (dom blockMap ∖ visited))%nat.
Proof. apply subseteq_size. set_solver. Qed.

Lemma unvisited_lt (blockMap : BlockMap) (visited : gset Key) (k : Key) b :
  blockMap !! k = Some b -> k ∉ visited ->
  (size (dom blockMap ∖ ({[k]} ∪ visited)) < size (dom blockMap ∖ visited))%nat.
Proof.
  intros Hk Hv. apply subset_size. split; [set_solver|].
  intros Hc. assert (Hin : k ∈ dom blockMap ∖ visited).
  { apply elem_of_difference. split; [apply elem_of_dom; eauto | exact Hv]. }
  apply Hc in Hin. set_solver.
Qed.

(** The [while (queue.length)] loop.  Every iteration either shortens
    the queue or marks a cell of the map as visited, which bounds the
    number of iterations. *)
Equations? floodFill (start : BlockData) (blockMap : BlockMap)
    (visited : gset Key) (queue : list Key) (acc : Box.t) : Box.t
    by wf (length queue + 4 * size (dom blockMap ∖ visited))%nat lt :=
  floodFill start blockMap visited [] acc := acc;
  floodFill start blockMap visited (k :: queue) acc with decide (k ∈ visited) => {
    | left _ := floodFill start blockMap visited queue acc;
    | right _ with inspect (blockMap !! k) => {
      | exist _ None Hk := floodFill start blockMap ({[k]} ∪ visited) queue acc;
      | exist _ (Some b) Hk with onLayer start b => {
        | false := floodFill start blockMap ({[k]} ∪ visited) queue acc;
        | true := floodFill start blockMap ({[k]} ∪ visited)
                    (queue ++ fourNeighbours k) (widen acc b) } } }.
Proof.
  all: try (simpl; lia).
  - pose proof (unvisited_lt blockMap visited k b Hk n).
    rewrite length_app, length_fourNeighbours. simpl. lia.
  - pose proof (unvisited_le blockMap visited k). simpl. lia.
  - pose proof (unvisited_le blockMap visited k). simpl. lia.
Qed.

Definition mergeAllConnectedOnLayer (start : BlockData) (blockMap : BlockMap) : Box.t :=
  floodFill start blockMap ∅
    [ (BlockData.gx start, BlockData.gy start, BlockData.gz start) ]
    (Box.mk (BlockData.min start) (BlockData.max start)).

(** The box tested for block [b]: the merged one when there is one. *)
Definition bounds (b : BlockData) (blockMap : BlockMap) : Box.t :=
  let merged :=
    if bool_decide (BlockData.type b = Standard)
    then Some (mergeAllConnectedOnLayer b blockMap)
    else tryMergeWithNeighbor b blockMap in
  match merged with
  | Some m => m
  | None => Box.mk (BlockData.min b) (BlockData.max b)
  end.

Definition closest (bx : Box.t) (p : Vector3) : Vector3 :=
  THREE.mkVector3
    (clamp (THREE.x p) (THREE.x (Box.min bx)) (THREE.x (Box.max bx)))
    (clamp (THREE.y p) (THREE.y (Box.min bx)) (THREE.y (Box.max bx)))
    (clamp (THREE.z p) (THREE.z (Box.min bx)) (THREE.z (Box.max bx))).

Definition dist (bx : Box.t) (p : Vector3) : Vector3 :=
  let c := closest bx p in
  THREE.mkVector3 (THREE.x p - THREE.x c) (THREE.y p - THREE.y c) (THREE.z p - THREE.z c).

(** [movingDown && absY < 0.35 && (absX > 0.5 || absZ > 0.5)] *)
Definition seamLike (pl : PlayerState) (normal : Vector3) : bool :=
  let absX := Math.abs (THREE.x normal) in
  let absY := Math.abs (THREE.y normal) in
  let absZ := Math.abs (THREE.z normal) in
  let movingDown := Num.ltb (THREE.y (vel pl)) 0 in
  movingDown && Num.ltb absY 0.35 && (Num.gtb absX 0.5 || Num.gtb absZ 0.5).

(** One iteration of [for (const b of blocks)]. *)
Definition body (blockMap : BlockMap) (pl : PlayerState)
    (isGroundedThisFrame : bool) (b : BlockData) : Step :=
  if outOfRange b (pos pl) then Continue pl isGroundedThisFrame
  else
    let d := dist (bounds b blockMap) (pos pl) in
    let dSq := distSq d in
    if collides dSq then
      match BlockData.type b with
      | Spike => ResetAndReturn pl
      | Standard =>
        let dist := Math.sqrt dSq in
        let normal := THREE.divideScalar d dist in
        let penetration := CONFIG.playerRadius - dist in
        if negb (seamLike pl normal || hasNeighborInNormalDir blockMap b normal) then
          let '(pl', g') := pushOut pl isGroundedThisFrame normal penetration in
          Continue pl' g'
        else Continue pl isGroundedThisFrame
      end
    else Continue pl isGroundedThisFrame.

Fixpoint forBlocks (blockMap : BlockMap) (blocks : list BlockData)
    (pl : PlayerState) (isGroundedThisFrame : bool) : Step :=
  match blocks with
  | [] => Continue pl isGroundedThisFrame
  | b :: rest =>
    match body blockMap pl isGroundedThisFrame b with
    | Continue pl' g' => forBlocks blockMap rest pl' g'
    | ResetAndReturn pl' => ResetAndReturn pl'
    end
  end.

Definition resolveCollisions (pl : PlayerState) (blocks : list BlockData)
    (blockMap : BlockMap) (onReset : PlayerState -> PlayerState) : Resolved :=
  match forBlocks blockMap blocks pl false with
  | ResetAndReturn pl' => mkResolved (onReset pl') 1
  | Continue pl' isGroundedThisFrame =>
    mkResolved (stateUpdate pl' isGroundedThisFrame) 0
  end.

Definition applyPhysics (pl : PlayerState) (inputForce : Vector3) : PlayerState :=
  Resolver.applyPhysics pl inputForce.

End PhysicsEngine.

(** ** src/services/LevelGenerator.ts

    [Math.random()] reads an ambient generator.  Its hidden state is made
    explicit: [rnd k] is the value the [k]-th call of [Math.random()]
    returns, and a cursor counts the calls made so far. *)

Module LevelGenerator.

Record Level := mkLevel {
  blocksData : list BlockData;
  blockMap : BlockMap;
  winHeight : R
}.

(** The local variables of [generate] that change while it runs. *)
Record Gen := mkGen {
  g_blocksData : list BlockData;
  g_blockMap : BlockMap;
  g_currentY : Z;
  g_cursor : nat
}.

(** The [block] object that [addBlock] builds. *)
Definition newBlock (gx gy gz : Z) (type : BlockType) (id : nat) : BlockData :=
  let px := IZR gx * CONFIG.blockSize in
  let py := IZR gy * CONFIG.blockSize in
  let pz := IZR gz * CONFIG.blockSize in
  let half := CONFIG.blockSize / 2 in
  BlockData.mk
    (THREE.mkVector3 (px - half) (py - half) (pz - half))
    (THREE.mkVector3 (px + half) (py + half) (pz + half))
    (THREE.mkVector3 px py pz)
    gx gy gz type id.

Definition addBlock (gx gy gz : Z) (type : BlockType) (st : Gen) : Gen :=
  let block := newBlock gx gy gz type (length (g_blocksData st)) in
  mkGen (g_blocksData st ++ [block])
        (<[keyOf gx gy gz := block]> (g_blockMap st))
        (g_currentY st) (g_cursor st).

(** [for (let x = -2; x <= 2; x++) for (let z = -2; z <= 2; z++)] *)
Definition basePlatform (st : Gen) : Gen :=
  fold_left
    (fun st x =>
       fold_left (fun st z => addBlock x 0 z Standard st)
                 [ -2; -1; 0; 1; 2 ]%Z st)
    [ -2; -1; 0; 1; 2 ]%Z st.

Definition towerHeight : nat := 100.

(** The cell of the spiral at step [i]. *)
Definition spiralCell (i : nat) : Z * Z :=
  let angle := INR i * 0.35 in
  let r := 4 + sin (INR i * 0.1) * 1.5 in
  (Math.round (cos angle * r), Math.round (sin angle * r)).

(** One iteration of the spiral loop, once the cell [(bx, bz)] is known. *)
Definition placeStep (rnd : nat -> R) (st : Gen) (i : nat) (bx bz : Z) : Gen :=
  let st := addBlock bx (g_currentY st) bz Standard st in
  let st :=
    if (i mod 6 =? 0)%nat then
      let nx := (bx + (if Num.gtb (rnd (g_cursor st)) 0.5 then 1 else -1))%Z in
      let st := mkGen (g_blocksData st) (g_blockMap st) (g_currentY st)
                      (S (g_cursor st)) in
      if negb (bool_decide (is_Some (g_blockMap st !! keyOf nx (g_currentY st) bz)))
      then addBlock nx (g_currentY st) bz Standard st
      else st
    else st in
  if (10 <? i)%nat && (i mod 8 =? 0)%nat then
    addBlock bx (g_currentY st + 1) bz Spike st
  else if (i mod 2 =? 0)%nat then
    mkGen (g_blocksData st) (g_blockMap st) (g_currentY st + 1) (g_cursor st)
  else st.

(** One iteration of the spiral loop. *)
Definition spiralStep (rnd : nat -> R) (st : Gen) (i : nat) : Gen :=
  let '(bx, bz) := spiralCell i in placeStep rnd st i bx bz.

Definition spiral (rnd : nat -> R) (st : Gen) : Gen :=
  fold_left (spiralStep rnd) (seq 0 towerHeight) st.

(** [generate()]: the level, and the cursor of the ambient generator
    after the call. *)
Definition generate (rnd : nat -> R) (cursor : nat) : Level * nat :=
  let st := mkGen [] ∅ 1 cursor in
  let st := basePlatform st in
  let st := mkGen (g_blocksData st) (g_blockMap st) 1 (g_cursor st) in
  let st := spiral rnd st in
  let topY := (g_currentY st + 1)%Z in
  let st := addBlock 0 topY 0 Standard st in
  let st := addBlock 0 (topY + 1) 0 Spike st in
  let winHeight := IZR topY * CONFIG.blockSize in
  (mkLevel (g_blocksData st) (g_blockMap st) winHeight, g_cursor st).

End LevelGenerator.

(** ** src/services/GameEngine.ts

    Only the fields that the update loop reads or writes are kept.  The
    callbacks to the page ([onScoreUpdate], [onStatusUpdate]), the timer
    and the renderer are recorded as events, in the order they happen. *)

Inductive Event :=
| ScoreUpdate (score : Z)
| StatusUpdate (msg : string)
| SetTimeout (ms : Z) (later : Event)
| Render.

Module Camera.
(** The camera as far as [getWorldDirection] sees it: where it is and
    the point it was last told to look at. *)
Record t := mk { position : Vector3; target : Vector3 }.
End Camera.

Module VIEWPORT.
Definition isoRadius : R := 1000.
End VIEWPORT.

Module Frustum.
(** The planes of the orthographic camera that [onWindowResize] sets. *)
Record t := mk { left : R; right : R; top : R; bottom : R }.
End Frustum.

Module GameEngine.

Record t := mk {
  blocksData : list BlockData;
  blockMap : BlockMap;
  winHeight : R;
  player : PlayerState;
  input : InputState;
  camera : Camera.t;
  cameraAngle : R;
  targetCameraAngle : R;
  lastTime : R;
  accumulator : R;
  events : list Event
}.

Definition TIME_STEP : R := 1 / 60.

Definition withPlayer (pl : PlayerState) (e : t) : t :=
  mk (blocksData e) (blockMap e) (winHeight e) pl (input e) (camera e)
     (cameraAngle e) (targetCameraAngle e) (lastTime e) (accumulator e) (events e).

Definition withInput (i : InputState) (e : t) : t :=
  mk (blocksData e) (blockMap e) (winHeight e) (player e) i (camera e)
     (cameraAngle e) (targetCameraAngle e) (lastTime e) (accumulator e) (events e).

Definition withCamera (c : Camera.t) (angle : R) (e : t) : t :=
  mk (blocksData e) (blockMap e) (winHeight e) (player e) (input e) c
     angle (targetCameraAngle e) (lastTime e) (accumulator e) (events e).

Definition withTiming (last acc : R) (e : t) : t :=
  mk (blocksData e) (blockMap e) (winHeight e) (player e) (input e) (camera e)
     (cameraAngle e) (targetCameraAngle e) last acc (events e).

Definition emit (ev : Event) (e : t) : t :=
  mk (blocksData e) (blockMap e) (winHeight e) (player e) (input e) (camera e)
     (cameraAngle e) (targetCameraAngle e) (lastTime e) (accumulator e)
     (events e ++ [ev]).

(** The direction a camera looks in. *)
Definition getWorldDirection (c : Camera.t) : Vector3 :=
  THREE.normalize (THREE.mkVector3
    (THREE.x (Camera.target c) - THREE.x (Camera.position c))
    (THREE.y (Camera.target c) - THREE.y (Camera.position c))
    (THREE.z (Camera.target c) - THREE.z (Camera.position c))).

(** The state the constructor leaves, for a generated level. *)
Definition create (level : LevelGenerator.Level) : t :=
  mk (LevelGenerator.blocksData level) (LevelGenerator.blockMap level)
     (LevelGenerator.winHeight level)
     (mkPlayer (THREE.mkVector3 0 150 0) (THREE.mkVector3 0 0 0) false 0)
     (mkInput false false false false false)
     (Camera.mk (THREE.mkVector3 1000 1000 1000) (THREE.mkVector3 0 0 0))
     (PI / 4) (PI / 4) 0 0 [].

Definition resetInputs (e : t) : t :=
  withInput (mkInput false false false false false) e.

(** [resetPlayer], split into what it does to the player object and
    what it does to the rest of the engine. *)
Definition respawn (pl : PlayerState) : PlayerState :=
  mkPlayer (THREE.mkVector3 0 150 0) (THREE.mkVector3 0 0 0)
           (grounded pl) (coyoteTime pl).

Definition announceRespawn (e : t) : t :=
  emit (SetTimeout 1000 (StatusUpdate EmptyString))
    (emit (StatusUpdate "RESPAWNED!") (resetInputs e)).

Definition resetPlayer (e : t) : t :=
  announceRespawn (withPlayer (respawn (player e)) e).

(** [this.physicsEngine.resolveCollisions(this.player, ..., this.resetPlayer)] *)
Definition resolve (e : t) : t :=
  let r := PhysicsEngine.resolveCollisions (player e) (blocksData e) (blockMap e) respawn in
  Nat.iter (onResetCalls r) announceRespawn (withPlayer (playerOut r) e).

Definition inputForce (e : t) : Vector3 :=
  let dz := ((if key_w (input e) then -1 else 0) + (if key_s (input e) then 1 else 0))%Z in
  let dx := ((if key_a (input e) then -1 else 0) + (if key_d (input e) then 1 else 0))%Z in
  if negb (dx =? 0)%Z || negb (dz =? 0)%Z then
    let d := getWorldDirection (camera e) in
    let camDir := THREE.normalize (THREE.mkVector3 (THREE.x d) 0 (THREE.z d)) in
    let camRight := THREE.mkVector3 (- THREE.z camDir) 0 (THREE.x camDir) in
    let targetDir := THREE.normalize
      (THREE.add (THREE.multiplyScalar camDir (- IZR dz))
                 (THREE.multiplyScalar camRight (IZR dx))) in
    THREE.add (THREE.mkVector3 0 0 0) (THREE.multiplyScalar targetDir CONFIG.moveSpeed)
  else THREE.mkVector3 0 0 0.

(** [this.player.grounded || this.player.coyoteTime > 0] *)
Definition canJump (pl : PlayerState) : bool :=
  grounded pl || (0 <? coyoteTime pl)%Z.

Definition jump (e : t) : t :=
  let pl := player e in
  if key_space (input e) && canJump pl then
    let i := input e in
    withInput (mkInput (key_w i) (key_a i) (key_s i) (key_d i) false)
      (withPlayer
         (mkPlayer (pos pl)
            (THREE.mkVector3 (THREE.x (vel pl)) CONFIG.jumpForce (THREE.z (vel pl)))
            false 0) e)
  else e.

Definition fallCheck (e : t) : t :=
  if Num.ltb (THREE.y (pos (player e))) (-300) then resetPlayer e else e.

Definition score (e : t) : t :=
  let e :=
    if Num.gtb (THREE.y (pos (player e))) (winHeight e)
    then emit (StatusUpdate "VICTORY REACHED!") e else e in
  let relativeY := THREE.y (pos (player e)) - CONFIG.blockSize in
  let heightInMeters := Z.max 0 (Math.floor (relativeY / CONFIG.blockSize)) in
  emit (ScoreUpdate heightInMeters) e.

Definition fixedUpdate (e : t) : t :=
  let force := inputForce e in
  let e := withPlayer (PhysicsEngine.applyPhysics (player e) force) e in
  let e := Nat.iter 4 resolve e in
  let e := jump e in
  let e := fallCheck e in
  score e.

Definition renderUpdate (e : t) : t :=
  let angle := cameraAngle e + (targetCameraAngle e - cameraAngle e) * 0.15 in
  let camOffset := 800 in
  let p := pos (player e) in
  let position := THREE.mkVector3
    (THREE.x p + sin angle * camOffset)
    (THREE.y p + camOffset * 0.8)
    (THREE.z p + cos angle * camOffset) in
  withCamera (Camera.mk position p) angle e.

(** The physics step leaves the timing fields alone; the loop below
    relies on it to terminate. *)
Lemma accumulator_announceRespawn_iter n e :
  accumulator (Nat.iter n announceRespawn e) = accumulator e.
Proof. induction n; simpl; auto. Qed.

Lemma accumulator_resolve_iter n e :
  accumulator (Nat.iter n resolve e) = accumulator e.
Proof.
  induction n; simpl; auto.
  unfold resolve. rewrite accumulator_announceRespawn_iter. simpl. exact IHn.
Qed.

Lemma accumulator_jump e : accumulator (jump e) = accumulator e.
Proof. unfold jump. destruct (_ && _); reflexivity. Qed.

Lemma accumulator_fallCheck e : accumulator (fallCheck e) = accumulator e.
Proof. unfold fallCheck. destruct (Num.ltb _ _); reflexivity. Qed.

Lemma accumulator_score e : accumulator (score e) = accumulator e.
Proof. unfold score. destruct (Num.gtb _ _); reflexivity. Qed.

Lemma accumulator_fixedUpdate e : accumulator (fixedUpdate e) = accumulator e.
Proof.
  unfold fixedUpdate.
  rewrite accumulator_score, accumulator_fallCheck, accumulator_jump,
    accumulator_resolve_iter.
  reflexivity.
Qed.

Lemma accumulator_withTiming last acc e : accumulator (withTiming last acc e) = acc.
Proof. reflexivity. Qed.

Lemma up_pred_lt (r : R) : 1 <= r -> (Z.to_nat (up (r - 1)) < Z.to_nat (up r))%nat.
Proof.
  intros Hr.
  destruct (archimed r) as [H1 H2], (archimed (r - 1)) as [H3 H4].
  assert (Hlt : (up (r - 1) < up r)%Z) by (apply lt_IZR; lra).
  assert (Hpos : (0 < up r)%Z) by (apply lt_IZR; lra).
  lia.
Qed.

(** [while (this.accumulator >= this.TIME_STEP) { fixedUpdate();
    accumulator -= TIME_STEP }] *)
Equations? consume (e : t) : t
    by wf (Z.to_nat (up (accumulator e / TIME_STEP))) lt :=
  consume e with inspect (Num.geb (accumulator e) TIME_STEP) => {
    | exist _ true Hge :=
        consume (withTiming (lastTime (fixedUpdate e))
                            (accumulator (fixedUpdate e) - TIME_STEP)
                            (fixedUpdate e));
    | exist _ false _ := e }.
Proof.
  rewrite accumulator_withTiming, accumulator_fixedUpdate.
  apply Num.geb_true in Hge. unfold TIME_STEP in *.
  replace ((accumulator e - 1 / 60) / (1 / 60)) with (accumulator e / (1 / 60) - 1)
    by (field; lra).
  apply up_pred_lt. lra.
Qed.

Definition animate (time : R) (e : t) : t :=
  let seconds := time / 1000 in
  if Req_dec_T (lastTime e) 0 then
    emit Render (withTiming seconds (accumulator e) e)
  else
    let deltaTime := Math.min (seconds - lastTime e) 0.1 in
    let e := withTiming seconds (accumulator e + deltaTime) e in
    let e := consume e in
    emit Render (renderUpdate e).

(** The number of logical ticks an event log records: each
    [fixedUpdate] ends with exactly one [onScoreUpdate]. *)
Definition isScoreUpdate (ev : Event) : bool :=
  match ev with ScoreUpdate _ => true | _ => false end.

Definition ticks (e : t) : nat := List.length (List.filter isScoreUpdate (events e)).


(** *** Input handlers *)

Definition withTarget (angle : R) (e : t) : t :=
  mk (blocksData e) (blockMap e) (winHeight e) (player e) (input e) (camera e)
     (cameraAngle e) angle (lastTime e) (accumulator e) (events e).

Definition set_w (v : bool) (i : InputState) : InputState :=
  mkInput v (key_a i) (key_s i) (key_d i) (key_space i).
Definition set_a (v : bool) (i : InputState) : InputState :=
  mkInput (key_w i) v (key_s i) (key_d i) (key_space i).
Definition set_s (v : bool) (i : InputState) : InputState :=
  mkInput (key_w i) (key_a i) v (key_d i) (key_space i).
Definition set_d (v : bool) (i : InputState) : InputState :=
  mkInput (key_w i) (key_a i) (key_s i) v (key_space i).
Definition set_space (v : bool) (i : InputState) : InputState :=
  mkInput (key_w i) (key_a i) (key_s i) (key_d i) v.

(** [handleInput(action, isPressed)]: the [switch] compares the action
    with [===]; an action that matches no [case] falls through. *)
Definition handleInput (action : string) (isPressed : bool) (e : t) : t :=
  if String.eqb action "up" then withInput (set_w isPressed (input e)) e
  else if String.eqb action "down" then withInput (set_s isPressed (input e)) e
  else if String.eqb action "left" then withInput (set_a isPressed (input e)) e
  else if String.eqb action "right" then withInput (set_d isPressed (input e)) e
  else if String.eqb action "up-left" then
    withInput (set_a isPressed (set_w isPressed (input e))) e
  else if String.eqb action "up-right" then
    withInput (set_d isPressed (set_w isPressed (input e))) e
  else if String.eqb action "down-left" then
    withInput (set_a isPressed (set_s isPressed (input e))) e
  else if String.eqb action "down-right" then
    withInput (set_d isPressed (set_s isPressed (input e))) e
  else if String.eqb action "jump" then withInput (set_space isPressed (input e)) e
  else if String.eqb action "rotateLeft" then
    if isPressed then withTarget (targetCameraAngle e + PI / 2) e else e
  else if String.eqb action "rotateRight" then
    if isPressed then withTarget (targetCameraAngle e - PI / 2) e else e
  else e.

(** [toLowerCase] on the letters A to Z.  The handlers compare the
    result with names made of the letters a to w and the space only, and
    no character outside A to Z lower-cases to one of these. *)
Definition lowerChar (c : ascii) : ascii :=
  let n := nat_of_ascii c in
  if (65 <=? n)%nat && (n <=? 90)%nat then ascii_of_nat (n + 32) else c.

Fixpoint toLowerCase (s : string) : string :=
  match s with
  | EmptyString => EmptyString
  | String c rest => String (lowerChar c) (toLowerCase rest)
  end.

(** [onKeyDown], for an event whose [key] is [key]: seven [if]s in a row. *)
Definition onKeyDown (key : string) (e : t) : t :=
  let k := toLowerCase key in
  let e := if String.eqb k "w" then withInput (set_w true (input e)) e else e in
  let e := if String.eqb k "a" then withInput (set_a true (input e)) e else e in
  let e := if String.eqb k "s" then withInput (set_s true (input e)) e else e in
  let e := if String.eqb k "d" then withInput (set_d true (input e)) e else e in
  let e := if String.eqb k " " then withInput (set_space true (input e)) e else e in
  let e := if String.eqb k "arrowleft"
           then withTarget (targetCameraAngle e + PI / 2) e else e in
  if String.eqb k "arrowright" then withTarget (targetCameraAngle e - PI / 2) e else e.

Definition onKeyUp (key : string) (e : t) : t :=
  let k := toLowerCase key in
  let e := if String.eqb k "w" then withInput (set_w false (input e)) e else e in
  let e := if String.eqb k "a" then withInput (set_a false (input e)) e else e in
  let e := if String.eqb k "s" then withInput (set_s false (input e)) e else e in
  let e := if String.eqb k "d" then withInput (set_d false (input e)) e else e in
  if String.eqb k " " then withInput (set_space false (input e)) e else e.

(** *** The calls the page makes

    After the constructor the browser calls [animate] once per frame and
    the key handlers on key events, and the touch controls call
    [handleInput]. *)
Inductive Call :=
| Animate (time : R)
| HandleInput (action : string) (isPressed : bool)
| KeyDown (key : string)
| KeyUp (key : string).

Definition call (c : Call) (e : t) : t :=
  match c with
  | Animate time => animate time e
  | HandleInput action isPressed => handleInput action isPressed e
  | KeyDown key => onKeyDown key e
  | KeyUp key => onKeyUp key e
  end.

Definition run (calls : list Call) (e : t) : t :=
  fold_left (fun e c => call c e) calls e.

(** *** The camera frustum *)


End GameEngine.

(** ** src/services/VisualBuilder.ts

    The edge selection of [createLevelMesh].  The meshes themselves are
    not modelled: a block's visual is described by the calls of [draw]
    that the [forEach] body makes for it, in order. *)

Module VisualBuilder.

(** [CONFIG.thickness] and [CONFIG.verticalSeamEpsilonFactor] *)
Definition thickness : R := 2.5.
Definition verticalSeamEpsilonFactor : R := 0.12.

Definition half : R := CONFIG.blockSize / 2.

Definition verticalSeamEpsilon : R :=
  Math.max 0.001 (thickness * verticalSeamEpsilonFactor).

(** The keys of the [corners] object. *)
Inductive Corner := trf | trb | tlf | tlb | brf | brb | blf | blb.

(** The local position of a corner. *)
Definition corners (c : Corner) : Vector3 :=
  match c with
  | trf => THREE.mkVector3 half half half
  | trb => THREE.mkVector3 half half (- half)
  | tlf => THREE.mkVector3 (- half) half half
  | tlb => THREE.mkVector3 (- half) half (- half)
  | brf => THREE.mkVector3 half (- half) half
  | brb => THREE.mkVector3 half (- half) (- half)
  | blf => THREE.mkVector3 (- half) (- half) half
  | blb => THREE.mkVector3 (- half) (- half) (- half)
  end.

(** One call [draw(p1, p2, bias)]; the bias, when there is one, is the
    direction [(xDir, 0, zDir)] with the amount [verticalSeamEpsilon]. *)
Record Draw := mkDraw {
  p1 : Corner;
  p2 : Corner;
  bias : option (Z * Z)
}.

(** The two end points that [draw] hands to [createEdge]. *)
Definition ends (d : Draw) : Vector3 * Vector3 :=
  match bias d with
  | Some (xDir, zDir) =>
    let offset :=
      THREE.multiplyScalar (THREE.normalize (THREE.mkVector3 (IZR xDir) 0 (IZR zDir)))
                           verticalSeamEpsilon in
    (THREE.add (corners (p1 d)) offset, THREE.add (corners (p2 d)) offset)
  | None => (corners (p1 d), corners (p2 d))
  end.

(** [has(dx, dy, dz)] for block [b]. *)
Definition has (blockMap : BlockMap) (b : BlockData) (dx dy dz : Z) : bool :=
  bool_decide (is_Some (blockMap !!
    keyOf (BlockData.gx b + dx) (BlockData.gy b + dy) (BlockData.gz b + dz))).

Definition eqNum (a b : R) : bool := if Req_dec_T a b then true else false.

Definition verticalSeamBiasForEdge (blockMap : BlockMap) (b : BlockData)
    (c1 c2 : Corner) : option (Z * Z) :=
  let pa := corners c1 in
  let pb := corners c2 in
  if eqNum (THREE.x pa) (THREE.x pb) && eqNum (THREE.z pa) (THREE.z pb)
     && negb (eqNum (THREE.y pa) (THREE.y pb)) then
    let xDir := if Num.gtb (THREE.x pa) 0 then 1%Z else (-1)%Z in
    let zDir := if Num.gtb (THREE.z pa) 0 then 1%Z else (-1)%Z in
    if negb (has blockMap b xDir 0 0) && negb (has blockMap b 0 0 zDir)
       && has blockMap b xDir 0 zDir
    then Some (xDir, zDir) else None
  else None.

(** [if (cond) draw(p1, p2, bias)] *)
Definition drawIf (cond : bool) (c1 c2 : Corner) (bias : option (Z * Z)) : list Draw :=
  if cond then [mkDraw c1 c2 bias] else [].

(** The calls of [draw] for a Standard block, in order. *)
Definition edges (blockMap : BlockMap) (b : BlockData) : list Draw :=
  let has := has blockMap b in
  (if negb (has 0 1 0)%Z then
     drawIf (negb (has 1 0 0)%Z) trf trb None
     ++ drawIf (negb (has (-1) 0 0)%Z) tlf tlb None
     ++ drawIf (negb (has 0 0 1)%Z) trf tlf None
     ++ drawIf (negb (has 0 0 (-1))%Z) trb tlb None
   else [])
  ++ (if negb (has 0 (-1) 0)%Z then
        drawIf (negb (has 1 0 0)%Z) brf brb None
        ++ drawIf (negb (has (-1) 0 0)%Z) blf blb None
        ++ drawIf (negb (has 0 0 1)%Z) brf blf None
        ++ drawIf (negb (has 0 0 (-1))%Z) brb blb None
      else [])
  ++ drawIf (negb (has 1 0 0)%Z && negb (has 0 0 1)%Z) trf brf
            (verticalSeamBiasForEdge blockMap b trf brf)
  ++ drawIf (negb (has (-1) 0 0)%Z && negb (has 0 0 1)%Z) tlf blf
            (verticalSeamBiasForEdge blockMap b tlf blf)
  ++ drawIf (negb (has 1 0 0)%Z && negb (has 0 0 (-1))%Z) trb brb
            (verticalSeamBiasForEdge blockMap b trb brb)
  ++ drawIf (negb (has (-1) 0 0)%Z && negb (has 0 0 (-1))%Z) tlb blb
            (verticalSeamBiasForEdge blockMap b tlb blb).

End VisualBuilder.

(** * Properties *)

(** ** Deciding comparisons of concrete numbers *)

Ltac num_cases :=
  unfold Num.gtb, Num.geb, Num.ltb, Math.abs, Math.max, Math.min, Rabs, Rmax, Rmin in *;
  repeat match goal with
         | |- context [Rlt_dec ?a ?b] => destruct (Rlt_dec a b)
         | |- context [Rle_dec ?a ?b] => destruct (Rle_dec a b)
         | |- context [Rcase_abs ?a] => destruct (Rcase_abs a)
         | H : context [Rlt_dec ?a ?b] |- _ => destruct (Rlt_dec a b)
         | H : context [Rle_dec ?a ?b] |- _ => destruct (Rle_dec a b)
         | H : context [Rcase_abs ?a] |- _ => destruct (Rcase_abs a)
         end;
  simpl in *; try reflexivity; try discriminate; try (exfalso; lra); try lra.

(** ** Facts shared by the two resolvers *)

Section ResolverFacts.
Import Resolver.

Lemma collides_false_small dSq : dSq <= 0.00001 -> collides dSq = false.
Proof.
  intros H. unfold collides. apply andb_false_iff. right.
  apply Num.gtb_false. exact H.
Qed.

Lemma collides_false_far dSq :
  CONFIG.playerRadius * CONFIG.playerRadius <= dSq -> collides dSq = false.
Proof.
  intros H. unfold collides. apply andb_false_iff. left.
  apply Num.ltb_false. exact H.
Qed.

Lemma distSq_nonneg d : 0 <= distSq d.
Proof. unfold distSq. nra. Qed.

(** A sphere farther than its radius from the closest point fails the
    collision test. *)
Lemma collides_false_distance d :
  CONFIG.playerRadius < Math.sqrt (distSq d) -> collides (distSq d) = false.
Proof.
  intros H. apply collides_false_far.
  pose proof (distSq_nonneg d) as Hd.
  pose proof (sqrt_sqrt _ Hd) as Hs.
  unfold Math.sqrt, CONFIG.playerRadius in *.
  pose proof (sqrt_pos (distSq d)). nra.
Qed.

Lemma pushOut_flags pl g normal pen pl' g' :
  pushOut pl g normal pen = (pl', g') ->
  grounded pl' = grounded pl /\ coyoteTime pl' = coyoteTime pl.
Proof.
  unfold pushOut. destruct (Num.ltb _ 0); intros [= <- <-]; auto.
Qed.

Lemma stateUpdate_pos pl g : pos (stateUpdate pl g) = pos pl.
Proof. unfold stateUpdate. destruct g; [|destruct (_ <? _)%Z]; reflexivity. Qed.


End ResolverFacts.

(** ** The flood fill only ever widens the box *)

(** [within inner outer]: box [inner] lies inside box [outer]. *)
Definition within (inner outer : Box.t) : Prop :=
  THREE.x (Box.min outer) <= THREE.x (Box.min inner) /\
  THREE.y (Box.min outer) <= THREE.y (Box.min inner) /\
  THREE.z (Box.min outer) <= THREE.z (Box.min inner) /\
  THREE.x (Box.max inner) <= THREE.x (Box.max outer) /\
  THREE.y (Box.max inner) <= THREE.y (Box.max outer) /\
  THREE.z (Box.max inner) <= THREE.z (Box.max outer).

Lemma within_refl bx : within bx bx.
Proof. unfold within. repeat split; lra. Qed.

Lemma within_trans a b c : within a b -> within b c -> within a c.
Proof. unfold within. intros; repeat split; lra. Qed.

Lemma within_widen acc b : within acc (PhysicsEngine.widen acc b).
Proof.
  unfold within, PhysicsEngine.widen, Math.min, Math.max. simpl.
  repeat split; auto using Rmin_l, Rmax_l.
Qed.

Lemma floodFill_within start blockMap visited queue acc :
  within acc (PhysicsEngine.floodFill start blockMap visited queue acc).
Proof.
  funelim (PhysicsEngine.floodFill start blockMap visited queue acc);
    try apply within_refl; try assumption.
  eapply within_trans; [apply within_widen | eassumption].
Qed.

Lemma bounds_within b blockMap :
  within (Box.mk (BlockData.min b) (BlockData.max b)) (PhysicsEngine.bounds b blockMap).
Proof.
  unfold PhysicsEngine.bounds, PhysicsEngine.tryMergeWithNeighbor.
  destruct (BlockData.type b); simpl.
  - apply floodFill_within.
  - apply within_refl.
Qed.

Lemma bounds_spike b blockMap :
  BlockData.type b = Spike ->
  PhysicsEngine.bounds b blockMap = Box.mk (BlockData.min b) (BlockData.max b).
Proof.
  intros H. unfold PhysicsEngine.bounds, PhysicsEngine.tryMergeWithNeighbor.
  rewrite H. reflexivity.
Qed.

(** ** Stepping the flood fill *)

Lemma inspect_eq {A : Type} (a b : A) (H : a = b) : inspect a = exist _ b H.
Proof. destruct H. reflexivity. Qed.

Lemma floodFill_visited (start : BlockData) (blockMap : BlockMap) (visited : gset Key)
    (k : Key) (queue : list Key) (acc : Box.t) :
  k ∈ visited ->
  PhysicsEngine.floodFill start blockMap visited (k :: queue) acc
  = PhysicsEngine.floodFill start blockMap visited queue acc.
Proof.
  intros Hv. simp floodFill. destruct (decide (k ∈ visited)); [|contradiction].
  reflexivity.
Qed.

Lemma floodFill_absent (start : BlockData) (blockMap : BlockMap) (visited : gset Key)
    (k : Key) (queue : list Key) (acc : Box.t) :
  k ∉ visited -> blockMap !! k = None ->
  PhysicsEngine.floodFill start blockMap visited (k :: queue) acc
  = PhysicsEngine.floodFill start blockMap ({[k]} ∪ visited) queue acc.
Proof.
  intros Hv Hk. simp floodFill. destruct (decide (k ∈ visited)); [contradiction|].
  simp floodFill. rewrite (inspect_eq _ _ Hk). simp floodFill. reflexivity.
Qed.

Lemma floodFill_skip (start : BlockData) (blockMap : BlockMap) (visited : gset Key)
    (k : Key) (b : BlockData) (queue : list Key) (acc : Box.t) :
  k ∉ visited -> blockMap !! k = Some b -> PhysicsEngine.onLayer start b = false ->
  PhysicsEngine.floodFill start blockMap visited (k :: queue) acc
  = PhysicsEngine.floodFill start blockMap ({[k]} ∪ visited) queue acc.
Proof.
  intros Hv Hk Hl. simp floodFill. destruct (decide (k ∈ visited)); [contradiction|].
  simp floodFill. rewrite (inspect_eq _ _ Hk). simp floodFill. rewrite Hl. reflexivity.
Qed.

Lemma floodFill_expand (start : BlockData) (blockMap : BlockMap) (visited : gset Key)
    (k : Key) (b : BlockData) (queue : list Key) (acc : Box.t) :
  k ∉ visited -> blockMap !! k = Some b -> PhysicsEngine.onLayer start b = true ->
  PhysicsEngine.floodFill start blockMap visited (k :: queue) acc
  = PhysicsEngine.floodFill start blockMap ({[k]} ∪ visited)
      (queue ++ PhysicsEngine.fourNeighbours k) (PhysicsEngine.widen acc b).
Proof.
  intros Hv Hk Hl. simp floodFill. destruct (decide (k ∈ visited)); [contradiction|].
  simp floodFill. rewrite (inspect_eq _ _ Hk). simp floodFill. rewrite Hl. reflexivity.
Qed.

(** ** One iteration, and the loop, of each resolver *)

Lemma closest_inside v lo hi : lo <= v <= hi -> PhysicsEngine.clamp v lo hi = v.
Proof.
  intros [H1 H2]. unfold PhysicsEngine.clamp, Math.max, Math.min.
  rewrite (Rmin_right hi v H2). apply Rmax_right. exact H1.
Qed.

Lemma closest_inside_lite v lo hi : lo <= v <= hi -> Math.max lo (Math.min v hi) = v.
Proof.
  intros [H1 H2]. unfold Math.max, Math.min.
  rewrite (Rmin_left v hi H2). apply Rmax_right. exact H1.
Qed.

(** The own box of a block, as the lighter resolver clamps against it,
    gives the same offsets as the engine's [clamp]. *)
Lemma dist_own_box b p :
  PhysicsEngine.dist (Box.mk (BlockData.min b) (BlockData.max b)) p
  = PhysicsEngineLite.dist b p.
Proof.
  unfold PhysicsEngine.dist, PhysicsEngineLite.dist, PhysicsEngine.closest,
    PhysicsEngineLite.closest, PhysicsEngine.clamp, Math.max, Math.min. simpl.
  rewrite !(Rmin_comm (_ (BlockData.max b))). reflexivity.
Qed.

Section FullFacts.
Import Resolver PhysicsEngine.

Lemma full_body_clear blockMap pl g b :
  collides (distSq (dist (bounds b blockMap) (pos pl))) = false ->
  body blockMap pl g b = Continue pl g.
Proof.
  intros H. unfold body. destruct (outOfRange b (pos pl)); [reflexivity|].
  cbv zeta. rewrite H. reflexivity.
Qed.

Lemma full_body_hazard blockMap pl g b :
  BlockData.type b = Spike ->
  outOfRange b (pos pl) = false ->
  collides (distSq (dist (bounds b blockMap) (pos pl))) = true ->
  body blockMap pl g b = ResetAndReturn pl.
Proof.
  intros Ht Hr Hc. unfold body. rewrite Hr. cbv zeta. rewrite Hc, Ht. reflexivity.
Qed.

Lemma full_body_flags blockMap pl g b pl' g' :
  body blockMap pl g b = Continue pl' g' ->
  grounded pl' = grounded pl /\ coyoteTime pl' = coyoteTime pl.
Proof.
  unfold body. destruct (outOfRange b (pos pl)); [intros [= <- <-]; auto|].
  cbv zeta. destruct (collides _); [|intros [= <- <-]; auto].
  destruct (BlockData.type b); [|discriminate].
  destruct (negb _); [|intros [= <- <-]; auto].
  destruct (pushOut _ _ _ _) as [q gq] eqn:E. intros [= <- <-].
  eapply pushOut_flags; eauto.
Qed.

Lemma full_forBlocks_flags blockMap blocks : forall pl g pl' g',
  forBlocks blockMap blocks pl g = Continue pl' g' ->
  grounded pl' = grounded pl /\ coyoteTime pl' = coyoteTime pl.
Proof.
  induction blocks as [|b rest IH]; simpl; intros pl g pl' g'.
  - intros [= <- <-]; auto.
  - destruct (body blockMap pl g b) as [q gq|q] eqn:E; [|discriminate].
    intros H. apply IH in H. apply full_body_flags in E. intuition congruence.
Qed.

Lemma full_forBlocks_app blockMap pre post : forall pl g,
  forBlocks blockMap (pre ++ post) pl g =
  match forBlocks blockMap pre pl g with
  | Continue pl' g' => forBlocks blockMap post pl' g'
  | ResetAndReturn pl' => ResetAndReturn pl'
  end.
Proof.
  induction pre as [|b rest IH]; simpl; intros pl g; [reflexivity|].
  destruct (body blockMap pl g b); [apply IH | reflexivity].
Qed.

Lemma full_forBlocks_clear blockMap blocks pl g :
  (forall b, In b blocks ->
     collides (distSq (dist (bounds b blockMap) (pos pl))) = false) ->
  forBlocks blockMap blocks pl g = Continue pl g.
Proof.
  induction blocks as [|b rest IH]; simpl; intros H; [reflexivity|].
  rewrite full_body_clear by (apply H; auto). apply IH. intros; apply H; auto.
Qed.

End FullFacts.

Section LiteFacts.
Import Resolver PhysicsEngineLite.

Lemma lite_body_clear blockMap pl g b :
  collides (distSq (dist b (pos pl))) = false ->
  body blockMap pl g b = Continue pl g.
Proof.
  intros H. unfold body. destruct (outOfRange b (pos pl)); [reflexivity|].
  cbv zeta. rewrite H. reflexivity.
Qed.

Lemma lite_body_hazard blockMap pl g b :
  BlockData.type b = Spike ->
  outOfRange b (pos pl) = false ->
  collides (distSq (dist b (pos pl))) = true ->
  body blockMap pl g b = ResetAndReturn pl.
Proof.
  intros Ht Hr Hc. unfold body. rewrite Hr. cbv zeta. rewrite Hc, Ht. reflexivity.
Qed.

Lemma lite_body_flags blockMap pl g b pl' g' :
  body blockMap pl g b = Continue pl' g' ->
  grounded pl' = grounded pl /\ coyoteTime pl' = coyoteTime pl.
Proof.
  unfold body. destruct (outOfRange b (pos pl)); [intros [= <- <-]; auto|].
  cbv zeta. destruct (collides _); [|intros [= <- <-]; auto].
  destruct (BlockData.type b); [|discriminate].
  destruct (negb _); [|intros [= <- <-]; auto].
  destruct (pushOut _ _ _ _) as [q gq] eqn:E. intros [= <- <-].
  eapply pushOut_flags; eauto.
Qed.

Lemma lite_forBlocks_flags blockMap blocks : forall pl g pl' g',
  forBlocks blockMap blocks pl g = Continue pl' g' ->
  grounded pl' = grounded pl /\ coyoteTime pl' = coyoteTime pl.
Proof.
  induction blocks as [|b rest IH]; simpl; intros pl g pl' g'.
  - intros [= <- <-]; auto.
  - destruct (body blockMap pl g b) as [q gq|q] eqn:E; [|discriminate].
    intros H. apply IH in H. apply lite_body_flags in E. intuition congruence.
Qed.

Lemma lite_forBlocks_app blockMap pre post : forall pl g,
  forBlocks blockMap (pre ++ post) pl g =
  match forBlocks blockMap pre pl g with
  | Continue pl' g' => forBlocks blockMap post pl' g'
  | ResetAndReturn pl' => ResetAndReturn pl'
  end.
Proof.
  induction pre as [|b rest IH]; simpl; intros pl g; [reflexivity|].
  destruct (body blockMap pl g b); [apply IH | reflexivity].
Qed.


End LiteFacts.

(** ** Hazard contact ends the call *)

(** The collision test of the loop passes for block [b] with the player
    at [p]: the block survives the broad phase and the squared distance to
    the closest point of its own box lies strictly between [0.00001] and
    [playerRadius * playerRadius]. *)
Definition overlaps (b : BlockData) (p : Vector3) : Prop :=
  Resolver.outOfRange b p = false /\
  Resolver.collides (Resolver.distSq (PhysicsEngineLite.dist b p)) = true.

(** C3.  Hazard terminality.  When the loop reaches a Spike block that the
    player overlaps (the blocks [pre] before it having been processed
    without a reset, leaving player [pl1]), the call invokes [onReset]
    exactly once, on [pl1], and returns at once: the state update after
    the loop is skipped and the result does not depend on the blocks
    [post] that follow, so none of them is processed.  This holds for the
    engine's resolver and for the lighter one. *)
Theorem hazard_terminal
    (onReset : PlayerState -> PlayerState) (blockMap : BlockMap)
    (pre post : list BlockData) (h : BlockData) (pl pl1 : PlayerState) :
  BlockData.type h = Spike ->
  overlaps h (pos pl1) ->
  (forall g1,
     PhysicsEngine.forBlocks blockMap pre pl false = Continue pl1 g1 ->
     PhysicsEngine.resolveCollisions pl (pre ++ h :: post) blockMap onReset
     = mkResolved (onReset pl1) 1)
  /\
  (forall g1,
     PhysicsEngineLite.forBlocks blockMap pre pl false = Continue pl1 g1 ->
     PhysicsEngineLite.resolveCollisions pl (pre ++ h :: post) blockMap onReset
     = mkResolved (onReset pl1) 1).
Proof.
  intros Ht [Hr Hc]. split; intros g1 Hpre.
  - unfold PhysicsEngine.resolveCollisions.
    rewrite full_forBlocks_app, Hpre. simpl.
    rewrite full_body_hazard; auto.
    rewrite bounds_spike, dist_own_box by exact Ht. exact Hc.
  - unfold PhysicsEngineLite.resolveCollisions.
    rewrite lite_forBlocks_app, Hpre. simpl.
    rewrite lite_body_hazard; auto.
Qed.

(** ** Concrete scenes *)

Module Scene.
Import LevelGenerator.

Definition cube000 : BlockData := newBlock 0 0 0 Standard 0.
Definition cube100 : BlockData := newBlock 1 0 0 Standard 1.
Definition spike010 : BlockData := newBlock 0 1 0 Spike 1.

(** A single cube; two adjoining cubes; a cube with a spike on top. *)
Definition loneMap : BlockMap := <[keyOf 0 0 0 := cube000]> ∅.
Definition pairMap : BlockMap :=
  <[keyOf 1 0 0 := cube100]> (<[keyOf 0 0 0 := cube000]> ∅).
Definition spikeMap : BlockMap :=
  <[keyOf 0 1 0 := spike010]> (<[keyOf 0 0 0 := cube000]> ∅).

Definition at_ (px py pz vx vy vz : R) (g : bool) (c : Z) : PlayerState :=
  mkPlayer (THREE.mkVector3 px py pz) (THREE.mkVector3 vx vy vz) g c.

End Scene.

(** ** Evaluating the numeric tests *)

Lemma Rmin_same a : Rmin a a = a.
Proof. unfold Rmin. destruct (Rle_dec a a); reflexivity. Qed.

Lemma Rmax_same a : Rmax a a = a.
Proof. unfold Rmax. destruct (Rle_dec a a); reflexivity. Qed.

Lemma clamp_above v lo hi : lo <= hi -> hi <= v -> PhysicsEngine.clamp v lo hi = hi.
Proof.
  intros H1 H2. unfold PhysicsEngine.clamp, Math.max, Math.min.
  rewrite (Rmin_left hi v H2). apply Rmax_right. exact H1.
Qed.

Lemma clamp_below v lo hi : v <= lo -> lo <= hi -> PhysicsEngine.clamp v lo hi = lo.
Proof.
  intros H1 H2. unfold PhysicsEngine.clamp, Math.max, Math.min.
  rewrite (Rmin_right hi v) by lra. apply Rmax_left. exact H1.
Qed.

Lemma lite_clamp_above v lo hi : lo <= hi -> hi <= v -> Math.max lo (Math.min v hi) = hi.
Proof.
  intros H1 H2. unfold Math.max, Math.min.
  rewrite (Rmin_right v hi H2). apply Rmax_right. exact H1.
Qed.

Lemma lite_clamp_below v lo hi : v <= lo -> lo <= hi -> Math.max lo (Math.min v hi) = lo.
Proof.
  intros H1 H2. unfold Math.max, Math.min.
  rewrite (Rmin_left v hi) by lra. apply Rmax_left. exact H1.
Qed.

Lemma gtb_abs_false d c : - c <= d <= c -> Num.gtb (Math.abs d) c = false.
Proof.
  intros H. apply Num.gtb_false. unfold Math.abs. apply Rabs_le. exact H.
Qed.

Lemma outOfRange_false b p :
  - PHYSICS.collisionRange <= THREE.x (BlockData.center b) - THREE.x p <= PHYSICS.collisionRange ->
  - PHYSICS.collisionRange <= THREE.y (BlockData.center b) - THREE.y p <= PHYSICS.collisionRange ->
  - PHYSICS.collisionRange <= THREE.z (BlockData.center b) - THREE.z p <= PHYSICS.collisionRange ->
  Resolver.outOfRange b p = false.
Proof.
  intros Hx Hy Hz. unfold Resolver.outOfRange.
  rewrite !gtb_abs_false by assumption. reflexivity.
Qed.

Lemma collides_true dSq :
  0.00001 < dSq < CONFIG.playerRadius * CONFIG.playerRadius ->
  Resolver.collides dSq = true.
Proof.
  intros [H1 H2]. unfold Resolver.collides. apply andb_true_iff. split.
  - apply Num.ltb_true. exact H2.
  - apply Num.gtb_true. exact H1.
Qed.

Lemma sqrt_of_square a b : 0 <= a -> b = a * a -> Math.sqrt b = a.
Proof. intros Ha ->. unfold Math.sqrt. apply sqrt_square. exact Ha. Qed.

Ltac concrete_arith :=
  simpl;
  unfold CONFIG.playerRadius, CONFIG.blockSize, CONFIG.gravity, CONFIG.friction,
    CONFIG.maxSpeed, CONFIG.jumpForce, PHYSICS.collisionRange in *;
  simpl; lra.

(** Rewrites the closest point of a concrete box and a concrete point. *)
Ltac closest_concrete :=
  repeat first
    [ rewrite closest_inside by (simpl; unfold CONFIG.blockSize; lra)
    | rewrite clamp_above by (simpl; unfold CONFIG.blockSize; lra)
    | rewrite clamp_below by (simpl; unfold CONFIG.blockSize; lra)
    | rewrite closest_inside_lite by (simpl; unfold CONFIG.blockSize; lra)
    | rewrite lite_clamp_above by (simpl; unfold CONFIG.blockSize; lra)
    | rewrite lite_clamp_below by (simpl; unfold CONFIG.blockSize; lra) ].

Ltac range_concrete :=
  apply outOfRange_false;
  simpl; unfold PHYSICS.collisionRange, CONFIG.blockSize; lra.

(** The player 10 above the top face of the spike overlaps it. *)
Lemma spike_overlap (g : bool) (c : Z) :
  overlaps Scene.spike010 (pos (Scene.at_ 0 70 0 0 (-1) 0 g c)).
Proof.
  split.
  - range_concrete.
  - unfold PhysicsEngineLite.dist, PhysicsEngineLite.closest.
    cbn [pos Scene.at_ THREE.x THREE.y THREE.z].
    closest_concrete. apply collides_true.
    unfold Resolver.distSq. concrete_arith.
Qed.

Lemma hazard_terminal_witness :
  PhysicsEngine.resolveCollisions (Scene.at_ 0 70 0 0 (-1) 0 false 0)
    ([] ++ Scene.spike010 :: [Scene.cube000]) Scene.spikeMap GameEngine.respawn
  = mkResolved (GameEngine.respawn (Scene.at_ 0 70 0 0 (-1) 0 false 0)) 1
  /\
  PhysicsEngineLite.resolveCollisions (Scene.at_ 0 70 0 0 (-1) 0 false 0)
    ([] ++ Scene.spike010 :: [Scene.cube000]) Scene.spikeMap GameEngine.respawn
  = mkResolved (GameEngine.respawn (Scene.at_ 0 70 0 0 (-1) 0 false 0)) 1.
Proof.
  pose proof (spike_overlap false 0) as Ho.
  destruct (hazard_terminal GameEngine.respawn Scene.spikeMap [] [Scene.cube000]
              Scene.spike010 (Scene.at_ 0 70 0 0 (-1) 0 false 0)
              (Scene.at_ 0 70 0 0 (-1) 0 false 0) eq_refl Ho) as [HF HL].
  split; [apply (HF false) | apply (HL false)]; reflexivity.
Defined.

(** ** Deep overlap *)

(** The centre [p] lies in the closed box of block [b]. *)
Definition inside (b : BlockData) (p : Vector3) : Prop :=
  THREE.x (BlockData.min b) <= THREE.x p <= THREE.x (BlockData.max b) /\
  THREE.y (BlockData.min b) <= THREE.y p <= THREE.y (BlockData.max b) /\
  THREE.z (BlockData.min b) <= THREE.z p <= THREE.z (BlockData.max b).

Lemma inside_distSq_lite b p :
  inside b p -> Resolver.distSq (PhysicsEngineLite.dist b p) = 0.
Proof.
  intros (Hx & Hy & Hz).
  unfold PhysicsEngineLite.dist, PhysicsEngineLite.closest, Resolver.distSq.
  cbn [THREE.x THREE.y THREE.z].
  rewrite !closest_inside_lite by assumption. lra.
Qed.

Lemma inside_distSq_full b blockMap p :
  inside b p ->
  Resolver.distSq (PhysicsEngine.dist (PhysicsEngine.bounds b blockMap) p) = 0.
Proof.
  intros (Hx & Hy & Hz).
  destruct (bounds_within b blockMap) as (H1 & H2 & H3 & H4 & H5 & H6).
  simpl in H1, H2, H3, H4, H5, H6.
  unfold PhysicsEngine.dist, PhysicsEngine.closest, Resolver.distSq.
  cbn [THREE.x THREE.y THREE.z].
  rewrite !closest_inside by lra. lra.
Qed.

(** C10.  Deep-overlap pass-through.  A block whose closest point is at
    squared distance at most [0.00001] from the centre is passed over by
    the loop: the player and the ground flag are left as they are and
    [onReset] is not called, whatever the type of the block.  This is the
    case in particular when the centre lies inside the block's own box
    (the squared distance is then [0]), so a call on a single such block,
    Spike or not, never calls [onReset].  Both resolvers. *)
Theorem deep_overlap_pass_through
    (blockMap : BlockMap) (pl : PlayerState) (g : bool) (b : BlockData) :
  (Resolver.distSq (PhysicsEngine.dist (PhysicsEngine.bounds b blockMap) (pos pl))
     <= 0.00001 ->
   PhysicsEngine.body blockMap pl g b = Continue pl g)
  /\
  (Resolver.distSq (PhysicsEngineLite.dist b (pos pl)) <= 0.00001 ->
   PhysicsEngineLite.body blockMap pl g b = Continue pl g)
  /\
  (inside b (pos pl) ->
   PhysicsEngine.body blockMap pl g b = Continue pl g /\
   PhysicsEngineLite.body blockMap pl g b = Continue pl g /\
   forall onReset,
     onResetCalls (PhysicsEngine.resolveCollisions pl [b] blockMap onReset) = 0%nat /\
     onResetCalls (PhysicsEngineLite.resolveCollisions pl [b] blockMap onReset) = 0%nat).
Proof.
  assert (HF : Resolver.distSq
                 (PhysicsEngine.dist (PhysicsEngine.bounds b blockMap) (pos pl))
               <= 0.00001 -> forall g', PhysicsEngine.body blockMap pl g' b = Continue pl g').
  { intros H g'. apply full_body_clear, collides_false_small, H. }
  assert (HL : Resolver.distSq (PhysicsEngineLite.dist b (pos pl)) <= 0.00001 ->
               forall g', PhysicsEngineLite.body blockMap pl g' b = Continue pl g').
  { intros H g'. apply lite_body_clear, collides_false_small, H. }
  split; [intros H; apply HF, H|]. split; [intros H; apply HL, H|].
  intros Hin.
  pose proof (inside_distSq_full b blockMap _ Hin) as E1.
  pose proof (inside_distSq_lite b _ Hin) as E2.
  assert (H1 : forall g', PhysicsEngine.body blockMap pl g' b = Continue pl g')
    by (apply HF; rewrite E1; lra).
  assert (H2 : forall g', PhysicsEngineLite.body blockMap pl g' b = Continue pl g')
    by (apply HL; rewrite E2; lra).
  repeat split; auto.
  - unfold PhysicsEngine.resolveCollisions. simpl. rewrite H1. reflexivity.
  - unfold PhysicsEngineLite.resolveCollisions. simpl. rewrite H2. reflexivity.
Qed.

Lemma deep_overlap_pass_through_witness :
  inside Scene.spike010 (pos (Scene.at_ 0 40 0 0 (-1) 0 false 0)) /\
  PhysicsEngine.body Scene.spikeMap (Scene.at_ 0 40 0 0 (-1) 0 false 0) false Scene.spike010
  = Continue (Scene.at_ 0 40 0 0 (-1) 0 false 0) false /\
  onResetCalls (PhysicsEngine.resolveCollisions (Scene.at_ 0 40 0 0 (-1) 0 false 0)
                  [Scene.spike010] Scene.spikeMap GameEngine.respawn) = 0%nat.
Proof.
  assert (Hin : inside Scene.spike010 (pos (Scene.at_ 0 40 0 0 (-1) 0 false 0))).
  { unfold inside. concrete_arith. }
  destruct (deep_overlap_pass_through Scene.spikeMap
              (Scene.at_ 0 40 0 0 (-1) 0 false 0) false Scene.spike010)
    as (_ & _ & H).
  destruct (H Hin) as (H1 & _ & H3).
  split; [exact Hin|]. split; [exact H1|]. apply (H3 GameEngine.respawn).
Defined.

(** ** A call that touches nothing *)


(** ** The merged boxes of the concrete scenes *)

Ltac lookup_concrete :=
  unfold keyOf; rewrite ?lookup_insert_ne by congruence;
  first [apply lookup_empty | apply lookup_insert_eq].

Ltac keys_concrete :=
  repeat match goal with
         | |- context [(?a + ?b)%Z] =>
           let v := eval vm_compute in (a + b)%Z in change (a + b)%Z with v
         | |- context [(?a - ?b)%Z] =>
           let v := eval vm_compute in (a - b)%Z in change (a - b)%Z with v
         end.

Ltac flood_expand b :=
  rewrite (floodFill_expand _ _ _ _ b)
    by first [set_solver | lookup_concrete | reflexivity];
  simpl app; keys_concrete.

Ltac flood_absent :=
  rewrite floodFill_absent by first [set_solver | lookup_concrete].

Ltac flood_rest :=
  repeat first [ rewrite floodFill_absent by first [set_solver | lookup_concrete]
               | rewrite floodFill_visited by set_solver ];
  simp floodFill.

Ltac box_concrete :=
  unfold PhysicsEngine.widen, Math.min, Math.max; simpl;
  rewrite ?Rmin_same, ?Rmax_same;
  rewrite ?Rmin_left by (unfold CONFIG.blockSize; lra);
  rewrite ?Rmax_right by (unfold CONFIG.blockSize; lra);
  rewrite ?Rmin_right by (unfold CONFIG.blockSize; lra);
  rewrite ?Rmax_left by (unfold CONFIG.blockSize; lra).

Lemma bounds_lone :
  PhysicsEngine.bounds Scene.cube000 Scene.loneMap
  = Box.mk (BlockData.min Scene.cube000) (BlockData.max Scene.cube000).
Proof.
  unfold PhysicsEngine.bounds. simpl bool_decide. cbv iota.
  unfold PhysicsEngine.mergeAllConnectedOnLayer, Scene.loneMap.
  simpl BlockData.gx. simpl BlockData.gy. simpl BlockData.gz.
  flood_expand Scene.cube000. flood_rest.
  box_concrete. reflexivity.
Qed.

(** The two adjoining cubes are merged into the box that spans both. *)
Definition pairBox : Box.t :=
  Box.mk (BlockData.min Scene.cube000) (BlockData.max Scene.cube100).

Lemma bounds_pair_left : PhysicsEngine.bounds Scene.cube000 Scene.pairMap = pairBox.
Proof.
  unfold PhysicsEngine.bounds. simpl bool_decide. cbv iota.
  unfold PhysicsEngine.mergeAllConnectedOnLayer, Scene.pairMap.
  simpl BlockData.gx. simpl BlockData.gy. simpl BlockData.gz.
  flood_expand Scene.cube000. flood_expand Scene.cube100. flood_rest.
  box_concrete. reflexivity.
Qed.

Lemma bounds_pair_right : PhysicsEngine.bounds Scene.cube100 Scene.pairMap = pairBox.
Proof.
  unfold PhysicsEngine.bounds. simpl bool_decide. cbv iota.
  unfold PhysicsEngine.mergeAllConnectedOnLayer, Scene.pairMap.
  simpl BlockData.gx. simpl BlockData.gy. simpl BlockData.gz.
  flood_expand Scene.cube100. flood_absent. flood_expand Scene.cube000. flood_rest.
  box_concrete. reflexivity.
Qed.

(** The player hovering 30 above the top face of the lone cube: in range
    of the broad phase, but farther than the radius from the cube. *)
Lemma hover_far_full (g : bool) (c : Z) :
  CONFIG.playerRadius <
  Math.sqrt (Resolver.distSq
    (PhysicsEngine.dist (PhysicsEngine.bounds Scene.cube000 Scene.loneMap)
       (pos (Scene.at_ 0 50 0 0 0 0 g c)))).
Proof.
  rewrite bounds_lone.
  unfold PhysicsEngine.dist, PhysicsEngine.closest.
  cbn [pos Scene.at_ THREE.x THREE.y THREE.z Box.min Box.max].
  closest_concrete.
  rewrite (sqrt_of_square 30); [concrete_arith | lra |].
  unfold Resolver.distSq. concrete_arith.
Qed.


Lemma hover_not_outOfRange (g : bool) (c : Z) :
  Resolver.outOfRange Scene.cube000 (pos (Scene.at_ 0 50 0 0 0 0 g c)) = false.
Proof. range_concrete. Qed.

Lemma hover_call_full (g : bool) (c : Z) onReset :
  PhysicsEngine.resolveCollisions (Scene.at_ 0 50 0 0 0 0 g c)
    [Scene.cube000] Scene.loneMap onReset
  = mkResolved (Resolver.stateUpdate (Scene.at_ 0 50 0 0 0 0 g c) false) 0.
Proof.
  unfold PhysicsEngine.resolveCollisions.
  rewrite full_forBlocks_clear; [reflexivity|].
  intros b [<-|[]]. apply collides_false_distance, hover_far_full.
Qed.




(** ** The coyote grace window *)

(** A resolver call on player [pl] in which no block contact marks the
    ground and no Spike is hit: the loop ends with
    [isGroundedThisFrame = false]. *)
Definition noGroundContact (blocks : list BlockData) (blockMap : BlockMap)
    (pl : PlayerState) : Prop :=
  exists pl', PhysicsEngine.forBlocks blockMap blocks pl false = Continue pl' false.

(** [graceRun n pl0 pl]: [n] consecutive resolver calls without ground
    contact lead from [pl0] to [pl].  Between two calls position and
    velocity may change (the integrator runs between ticks); [grounded]
    and [coyoteTime] are only touched by the calls. *)
Inductive graceRun (blocks : list BlockData) (blockMap : BlockMap)
    (onReset : PlayerState -> PlayerState) : nat -> PlayerState -> PlayerState -> Prop :=
| grace_0 pl : graceRun blocks blockMap onReset 0 pl pl
| grace_S n pl0 pl1 moved :
    graceRun blocks blockMap onReset n pl0 pl1 ->
    grounded moved = grounded pl1 ->
    coyoteTime moved = coyoteTime pl1 ->
    noGroundContact blocks blockMap moved ->
    graceRun blocks blockMap onReset (S n) pl0
      (playerOut (PhysicsEngine.resolveCollisions moved blocks blockMap onReset)).

Lemma noGroundContact_call blocks blockMap onReset pl :
  noGroundContact blocks blockMap pl ->
  let out := playerOut (PhysicsEngine.resolveCollisions pl blocks blockMap onReset) in
  grounded out = (if (0 <? coyoteTime pl)%Z then grounded pl else false) /\
  coyoteTime out = (if (0 <? coyoteTime pl)%Z then coyoteTime pl - 1 else coyoteTime pl)%Z.
Proof.
  intros [pl' H]. unfold PhysicsEngine.resolveCollisions. rewrite H. simpl.
  apply full_forBlocks_flags in H as [Hg Hc].
  unfold Resolver.stateUpdate. rewrite Hc, Hg.
  destruct (0 <? coyoteTime pl)%Z; simpl; auto.
Qed.

Lemma graceRun_state blocks blockMap onReset n pl0 pl :
  graceRun blocks blockMap onReset n pl0 pl ->
  grounded pl0 = true -> (0 <= coyoteTime pl0)%Z ->
  grounded pl = (Z.of_nat n <=? coyoteTime pl0)%Z /\
  coyoteTime pl = Z.max 0 (coyoteTime pl0 - Z.of_nat n).
Proof.
  intros Hrun Hg Hc. induction Hrun as [pl|n pl0 pl1 moved Hrun IH Hmg Hmc Hno].
  - split; [rewrite Hg; symmetry; apply Z.leb_le|]; lia.
  - specialize (IH Hg Hc) as [IHg IHc].
    destruct (noGroundContact_call blocks blockMap onReset moved Hno) as [Eg Ec].
    rewrite Eg, Ec, Hmg, Hmc, IHg, IHc.
    destruct (0 <? Z.max 0 (coyoteTime pl0 - Z.of_nat n))%Z eqn:E;
      [apply Z.ltb_lt in E | apply Z.ltb_ge in E]; split; try lia.
    + destruct (Z.leb_spec (Z.of_nat n) (coyoteTime pl0)),
               (Z.leb_spec (Z.of_nat (S n)) (coyoteTime pl0)); try reflexivity; lia.
    + symmetry. apply Z.leb_gt. lia.
Qed.

(** C5, as the code has it.  Start grounded with
    [coyoteTime = coyoteFrames].  After [n] consecutive resolver calls
    without ground contact the timer reads [max 0 (coyoteFrames - n)];
    [grounded] is still true after each of the first [coyoteFrames] calls
    and is cleared by call number [coyoteFrames + 1]; the jump test
    [grounded || coyoteTime > 0] holds after a call exactly when
    [grounded] does. *)
Theorem coyote_grace_window
    (blocks : list BlockData) (blockMap : BlockMap)
    (onReset : PlayerState -> PlayerState) (n : nat) (pl0 pl : PlayerState) :
  graceRun blocks blockMap onReset n pl0 pl ->
  grounded pl0 = true ->
  coyoteTime pl0 = PHYSICS.coyoteFrames ->
  (grounded pl = true <-> (Z.of_nat n <= PHYSICS.coyoteFrames)%Z) /\
  coyoteTime pl = Z.max 0 (PHYSICS.coyoteFrames - Z.of_nat n) /\
  (GameEngine.canJump pl = true <-> (Z.of_nat n <= PHYSICS.coyoteFrames)%Z).
Proof.
  intros Hrun Hg Hc.
  destruct (graceRun_state _ _ _ _ _ _ Hrun Hg) as [Eg Ec];
    [rewrite Hc; unfold PHYSICS.coyoteFrames; lia|].
  rewrite Hc in Eg, Ec. unfold GameEngine.canJump. rewrite Eg, Ec.
  split; [apply Z.leb_le|]. split; [reflexivity|].
  rewrite orb_true_iff, Z.leb_le, Z.ltb_lt. lia.
Qed.

(** One call without ground contact in the hovering scene. *)
Lemma hover_noGroundContact (g : bool) (c : Z) :
  noGroundContact [Scene.cube000] Scene.loneMap (Scene.at_ 0 50 0 0 0 0 g c).
Proof.
  exists (Scene.at_ 0 50 0 0 0 0 g c).
  apply full_forBlocks_clear.
  intros b [<-|[]]. apply collides_false_distance, hover_far_full.
Qed.

Lemma coyote_grace_window_witness :
  graceRun [Scene.cube000] Scene.loneMap GameEngine.respawn 1
    (Scene.at_ 0 50 0 0 0 0 true 5)
    (playerOut (PhysicsEngine.resolveCollisions (Scene.at_ 0 50 0 0 0 0 true 5)
                  [Scene.cube000] Scene.loneMap GameEngine.respawn))
  /\
  GameEngine.canJump
    (playerOut (PhysicsEngine.resolveCollisions (Scene.at_ 0 50 0 0 0 0 true 5)
                  [Scene.cube000] Scene.loneMap GameEngine.respawn)) = true.
Proof.
  assert (Hrun : graceRun [Scene.cube000] Scene.loneMap GameEngine.respawn 1
            (Scene.at_ 0 50 0 0 0 0 true 5)
            (playerOut (PhysicsEngine.resolveCollisions (Scene.at_ 0 50 0 0 0 0 true 5)
                          [Scene.cube000] Scene.loneMap GameEngine.respawn))).
  { eapply grace_S; [apply grace_0 | reflexivity | reflexivity
                    | apply hover_noGroundContact]. }
  split; [exact Hrun|].
  apply (coyote_grace_window _ _ _ _ _ _ Hrun eq_refl eq_refl).
  unfold PHYSICS.coyoteFrames. lia.
Defined.

(** The resolver call of the hovering scene, as a map on player states. *)
Definition hoverCall (pl : PlayerState) : PlayerState :=
  playerOut (PhysicsEngine.resolveCollisions pl [Scene.cube000] Scene.loneMap
               GameEngine.respawn).

Lemma hoverCall_step (g : bool) (c : Z) :
  hoverCall (Scene.at_ 0 50 0 0 0 0 g c)
  = Scene.at_ 0 50 0 0 0 0
      (if (0 <? c)%Z then g else false) (if (0 <? c)%Z then c - 1 else c)%Z.
Proof.
  unfold hoverCall. rewrite hover_call_full. cbn [playerOut].
  unfold Resolver.stateUpdate. cbn [coyoteTime Scene.at_].
  destruct (0 <? c)%Z; reflexivity.
Qed.

(** C5 as stated fails by one call.  In the hovering scene every call is
    without ground contact; starting grounded with
    [coyoteTime = coyoteFrames = 5], the player is still grounded after
    exactly [coyoteFrames] calls (the timer has just reached [0]), and
    only the next call clears [grounded]. *)
Lemma coyote_exact_counterexample :
  Nat.iter (Z.to_nat PHYSICS.coyoteFrames) hoverCall
    (Scene.at_ 0 50 0 0 0 0 true PHYSICS.coyoteFrames)
  = Scene.at_ 0 50 0 0 0 0 true 0
  /\
  grounded (Nat.iter (Z.to_nat PHYSICS.coyoteFrames) hoverCall
              (Scene.at_ 0 50 0 0 0 0 true PHYSICS.coyoteFrames)) <> false
  /\
  grounded (Nat.iter (S (Z.to_nat PHYSICS.coyoteFrames)) hoverCall
              (Scene.at_ 0 50 0 0 0 0 true PHYSICS.coyoteFrames)) = false.
Proof.
  assert (E5 : Nat.iter (Z.to_nat PHYSICS.coyoteFrames) hoverCall
                 (Scene.at_ 0 50 0 0 0 0 true PHYSICS.coyoteFrames)
               = Scene.at_ 0 50 0 0 0 0 true 0).
  { change (Z.to_nat PHYSICS.coyoteFrames) with 5%nat.
    unfold PHYSICS.coyoteFrames. cbn [Nat.iter nat_rect].
    do 5 (rewrite hoverCall_step; cbn [Z.ltb Z.compare Z.sub Z.add Z.opp Z.pos_sub
                                        Pos.pred_double]).
    reflexivity. }
  split; [exact E5|]. split.
  - rewrite E5. discriminate.
  - change (Nat.iter (S ?n) ?f ?a) with (f (Nat.iter n f a)).
    rewrite E5, hoverCall_step. reflexivity.
Qed.

(** ** The integrator *)

(** The steps of the integrator, one definition per step. *)
Module Integrator.







End Integrator.




(** ** Reset *)

(** The player the constructor creates. *)
Definition initialPlayer : PlayerState :=
  mkPlayer (THREE.mkVector3 0 150 0) (THREE.mkVector3 0 0 0) false 0.

(** The engine on the level made of the lone cube, with player [pl]. *)
Definition engineWith (pl : PlayerState) : GameEngine.t :=
  GameEngine.withPlayer pl
    (GameEngine.create (LevelGenerator.mkLevel [Scene.cube000] Scene.loneMap 40)).

(** C2 fails on the code.  [resetPlayer] overwrites position and velocity
    only: [grounded] and [coyoteTime] keep the values they had before the
    reset, so the player a reset leaves is in general not the player the
    constructor creates.  For a player that was grounded with
    [coyoteTime = 5], the reset (through the fall check, or through a
    Spike contact in the resolver) leaves a player in mid-air at the spawn
    point that is still grounded and may still jump. *)
Theorem reset_keeps_grounded_and_timer :
  (forall e,
     GameEngine.player (GameEngine.resetPlayer e)
     = mkPlayer (THREE.mkVector3 0 150 0) (THREE.mkVector3 0 0 0)
         (grounded (GameEngine.player e)) (coyoteTime (GameEngine.player e)))
  /\
  GameEngine.player
    (GameEngine.fallCheck (engineWith (Scene.at_ 0 (-301) 0 0 (-9) 0 true 5)))
  = mkPlayer (THREE.mkVector3 0 150 0) (THREE.mkVector3 0 0 0) true 5
  /\
  GameEngine.player
    (GameEngine.fallCheck (engineWith (Scene.at_ 0 (-301) 0 0 (-9) 0 true 5)))
  <> initialPlayer
  /\
  GameEngine.canJump
    (GameEngine.player
       (GameEngine.fallCheck (engineWith (Scene.at_ 0 (-301) 0 0 (-9) 0 true 5))))
  = true
  /\
  PhysicsEngine.resolveCollisions (Scene.at_ 0 70 0 0 (-1) 0 true 5)
    [Scene.spike010] Scene.spikeMap GameEngine.respawn
  = mkResolved (mkPlayer (THREE.mkVector3 0 150 0) (THREE.mkVector3 0 0 0) true 5) 1.
Proof.
  split; [reflexivity|].
  assert (E : GameEngine.player
                (GameEngine.fallCheck (engineWith (Scene.at_ 0 (-301) 0 0 (-9) 0 true 5)))
              = mkPlayer (THREE.mkVector3 0 150 0) (THREE.mkVector3 0 0 0) true 5).
  { unfold GameEngine.fallCheck.
    replace (Num.ltb _ _) with true; [reflexivity|].
    symmetry. apply Num.ltb_true. simpl. lra. }
  rewrite E. split; [reflexivity|]. split; [discriminate|]. split; [reflexivity|].
  destruct (spike_overlap true 5) as [Hr Hc].
  unfold PhysicsEngine.resolveCollisions. simpl.
  rewrite full_body_hazard; [reflexivity | reflexivity | exact Hr |].
  rewrite bounds_spike, dist_own_box by reflexivity. exact Hc.
Qed.

(** ** The fixed-step scheduler *)

Section Scheduler.
Import GameEngine.

Lemma ticks_emit ev e :
  ticks (emit ev e) = (ticks e + (if isScoreUpdate ev then 1 else 0))%nat.
Proof.
  unfold ticks, emit. simpl. rewrite List.filter_app, List.length_app. simpl.
  destruct (isScoreUpdate ev); reflexivity.
Qed.

Lemma ticks_announceRespawn_iter n e :
  ticks (Nat.iter n announceRespawn e) = ticks e.
Proof.
  induction n; simpl; [reflexivity|].
  unfold announceRespawn at 1. rewrite !ticks_emit. simpl.
  unfold resetInputs, ticks in *. simpl. rewrite <- IHn. unfold ticks. lia.
Qed.

Lemma ticks_resolve_iter n e : ticks (Nat.iter n resolve e) = ticks e.
Proof.
  induction n; simpl; [reflexivity|].
  unfold resolve. rewrite ticks_announceRespawn_iter. exact IHn.
Qed.

Lemma ticks_jump e : ticks (jump e) = ticks e.
Proof. unfold jump. destruct (_ && _); reflexivity. Qed.

Lemma ticks_fallCheck e : ticks (fallCheck e) = ticks e.
Proof.
  unfold fallCheck. destruct (Num.ltb _ _); [|reflexivity].
  unfold resetPlayer.
  etransitivity; [apply (ticks_announceRespawn_iter 1)|reflexivity].
Qed.

Lemma ticks_score e : ticks (score e) = S (ticks e).
Proof.
  unfold score. rewrite ticks_emit. simpl.
  destruct (Num.gtb _ _); rewrite ?ticks_emit; simpl; lia.
Qed.

(** Every [fixedUpdate] reports the score exactly once. *)
Lemma ticks_fixedUpdate e : ticks (fixedUpdate e) = S (ticks e).
Proof.
  unfold fixedUpdate.
  rewrite ticks_score, ticks_fallCheck, ticks_jump, ticks_resolve_iter.
  reflexivity.
Qed.

Lemma consume_step e :
  Num.geb (accumulator e) TIME_STEP = true ->
  consume e = consume (withTiming (lastTime (fixedUpdate e))
                                  (accumulator (fixedUpdate e) - TIME_STEP)
                                  (fixedUpdate e)).
Proof.
  intros H. rewrite consume_equation_1 at 1.
  rewrite (inspect_eq _ _ H). reflexivity.
Qed.

Lemma consume_stop e : Num.geb (accumulator e) TIME_STEP = false -> consume e = e.
Proof.
  intros H. rewrite consume_equation_1.
  rewrite (inspect_eq _ _ H). reflexivity.
Qed.

(** The loop runs at most [n] ticks when fewer than [n + 1] steps have
    accumulated, and leaves less than one step behind. *)
Lemma consume_bound (n : nat) : forall e,
  accumulator e < (INR n + 1) * TIME_STEP ->
  (ticks (consume e) <= ticks e + n)%nat /\ accumulator (consume e) < TIME_STEP.
Proof.
  induction n as [|n IH]; intros e Hacc.
  - rewrite consume_stop; [split; [lia|]|].
    + simpl in Hacc. lra.
    + apply Num.geb_false. simpl in Hacc. lra.
  - destruct (Num.geb (accumulator e) TIME_STEP) eqn:Hge.
    + rewrite consume_step by exact Hge.
      destruct (IH (withTiming (lastTime (fixedUpdate e))
                               (accumulator (fixedUpdate e) - TIME_STEP)
                               (fixedUpdate e))) as [Ht Ha].
      * rewrite accumulator_withTiming, accumulator_fixedUpdate.
        rewrite S_INR in Hacc. unfold TIME_STEP in *. lra.
      * split; [|exact Ha].
        change (ticks (withTiming ?a ?b ?c)) with (ticks c) in Ht.
        rewrite ticks_fixedUpdate in Ht. lia.
    + rewrite consume_stop by exact Hge. split; [lia|].
      apply Num.geb_false. exact Hge.
Qed.


End Scheduler.



(** ** Seam suppression *)

(** The contact normal the engine's resolver computes for block [b]. *)
Definition contactNormal (blockMap : BlockMap) (b : BlockData) (p : Vector3) : Vector3 :=
  let d := PhysicsEngine.dist (PhysicsEngine.bounds b blockMap) p in
  THREE.divideScalar d (Math.sqrt (Resolver.distSq d)).

(** The contact normal the lighter resolver computes for block [b]. *)
Definition contactNormalLite (b : BlockData) (p : Vector3) : Vector3 :=
  let d := PhysicsEngineLite.dist b p in
  THREE.divideScalar d (Math.sqrt (Resolver.distSq d)).

(** The landing signature: moving downward with a nearly horizontal
    contact normal. *)
Definition landingSignature (pl : PlayerState) (normal : Vector3) : Prop :=
  THREE.y (vel pl) < 0 /\
  Rabs (THREE.y normal) < 0.35 /\
  (Rabs (THREE.x normal) > 0.5 \/ Rabs (THREE.z normal) > 0.5).

Lemma seamLike_landingSignature pl normal :
  landingSignature pl normal -> PhysicsEngine.seamLike pl normal = true.
Proof.
  intros (Hv & Hy & Hxz). unfold PhysicsEngine.seamLike, Math.abs.
  rewrite !andb_true_iff, orb_true_iff, !Num.ltb_true, !Num.gtb_true.
  repeat split; assumption.
Qed.

(** In the engine's resolver a contact with the landing signature is
    passed over: no push-out, no velocity change, no ground flag. *)
Lemma full_landing_contact_skipped blockMap pl g b :
  BlockData.type b = Standard ->
  landingSignature pl (contactNormal blockMap b (pos pl)) ->
  PhysicsEngine.body blockMap pl g b = Continue pl g.
Proof.
  intros Ht Hsig. unfold PhysicsEngine.body.
  destruct (Resolver.outOfRange b (pos pl)); [reflexivity|]. cbv zeta.
  destruct (Resolver.collides _); [|reflexivity]. rewrite Ht.
  fold (contactNormal blockMap b (pos pl)).
  rewrite (seamLike_landingSignature _ _ Hsig). reflexivity.
Qed.

(** ** Evaluating a contact *)

(** What an iteration does when the block is in range and the offset [d]
    to the closest point has length [s] within the collision bounds. *)
Lemma lite_body_contact blockMap pl g b d s :
  Resolver.outOfRange b (pos pl) = false ->
  PhysicsEngineLite.dist b (pos pl) = d ->
  0 <= s -> Resolver.distSq d = s * s ->
  0.00001 < s * s < CONFIG.playerRadius * CONFIG.playerRadius ->
  BlockData.type b = Standard ->
  PhysicsEngineLite.body blockMap pl g b =
  let normal := THREE.divideScalar d s in
  if negb (Resolver.hasNeighborInNormalDir blockMap b normal) then
    let '(pl', g') := Resolver.pushOut pl g normal (CONFIG.playerRadius - s) in
    Continue pl' g'
  else Continue pl g.
Proof.
  intros Hr Hd Hs Hsq Hb Ht. unfold PhysicsEngineLite.body.
  rewrite Hr, Hd. cbv zeta. rewrite Hsq, (collides_true _ Hb), Ht.
  rewrite (sqrt_of_square s (s * s) Hs eq_refl). reflexivity.
Qed.

Lemma full_body_contact blockMap pl g b d s :
  Resolver.outOfRange b (pos pl) = false ->
  PhysicsEngine.dist (PhysicsEngine.bounds b blockMap) (pos pl) = d ->
  0 <= s -> Resolver.distSq d = s * s ->
  0.00001 < s * s < CONFIG.playerRadius * CONFIG.playerRadius ->
  BlockData.type b = Standard ->
  PhysicsEngine.body blockMap pl g b =
  let normal := THREE.divideScalar d s in
  if negb (PhysicsEngine.seamLike pl normal
           || Resolver.hasNeighborInNormalDir blockMap b normal) then
    let '(pl', g') := Resolver.pushOut pl g normal (CONFIG.playerRadius - s) in
    Continue pl' g'
  else Continue pl g.
Proof.
  intros Hr Hd Hs Hsq Hb Ht. unfold PhysicsEngine.body.
  rewrite Hr, Hd. cbv zeta. rewrite Hsq, (collides_true _ Hb), Ht.
  rewrite (sqrt_of_square s (s * s) Hs eq_refl). reflexivity.
Qed.

Lemma ltb_yes a b : a < b -> Num.ltb a b = true.
Proof. apply Num.ltb_true. Qed.

Lemma ltb_no a b : b <= a -> Num.ltb a b = false.
Proof. apply Num.ltb_false. Qed.

Lemma gtb_yes a b : b < a -> Num.gtb a b = true.
Proof. apply Num.gtb_true. Qed.

Lemma gtb_no a b : a <= b -> Num.gtb a b = false.
Proof. apply Num.gtb_false. Qed.

(** Settles every comparison of the goal whose outcome [lra] can see. *)
Ltac decide_num :=
  unfold Math.abs;
  rewrite ?Rabs_R0, ?Rabs_R1;
  repeat first
    [ rewrite ltb_yes by lra
    | rewrite ltb_no by lra
    | rewrite gtb_yes by lra
    | rewrite gtb_no by lra ].

(** The sideways contact: the player beside the lone cube, centre level
    with it, moving straight down. *)
Lemma side_contact_normal :
  contactNormalLite Scene.cube000 (pos (Scene.at_ 30 0 0 0 (-1) 0 false 0))
  = THREE.mkVector3 1 0 0
  /\ contactNormal Scene.loneMap Scene.cube000 (pos (Scene.at_ 30 0 0 0 (-1) 0 false 0))
     = THREE.mkVector3 1 0 0.
Proof.
  assert (Hd : PhysicsEngineLite.dist Scene.cube000
                 (pos (Scene.at_ 30 0 0 0 (-1) 0 false 0)) = THREE.mkVector3 10 0 0).
  { unfold PhysicsEngineLite.dist, PhysicsEngineLite.closest.
    cbn [pos Scene.at_ THREE.x THREE.y THREE.z]. closest_concrete.
    f_equal; concrete_arith. }
  assert (Hn : THREE.divideScalar (THREE.mkVector3 10 0 0)
                 (Math.sqrt (Resolver.distSq (THREE.mkVector3 10 0 0)))
               = THREE.mkVector3 1 0 0).
  { rewrite (sqrt_of_square 10); [|lra|unfold Resolver.distSq; simpl; lra].
    unfold THREE.divideScalar. simpl. f_equal; lra. }
  split.
  - unfold contactNormalLite. cbv zeta. rewrite Hd. exact Hn.
  - unfold contactNormal. cbv zeta. rewrite bounds_lone, dist_own_box, Hd. exact Hn.
Qed.

Lemma side_contact_lite :
  PhysicsEngineLite.body Scene.loneMap (Scene.at_ 30 0 0 0 (-1) 0 false 0) false
    Scene.cube000
  = Continue (Scene.at_ 40 0 0 0 (-1) 0 false 0) false.
Proof.
  rewrite (lite_body_contact _ _ _ _ (THREE.mkVector3 10 0 0) 10).
  - cbv zeta.
    replace (THREE.divideScalar (THREE.mkVector3 10 0 0) 10)
      with (THREE.mkVector3 1 0 0)
      by (unfold THREE.divideScalar; simpl; f_equal; lra).
    unfold Resolver.hasNeighborInNormalDir, Resolver.pushOut, THREE.dot.
    cbn [THREE.x THREE.y THREE.z vel pos Scene.at_].
    decide_num. unfold Math.sign. decide_num.
    replace (bool_decide _) with false by reflexivity.
    decide_num. simpl. unfold Scene.at_, THREE.add, THREE.multiplyScalar. simpl.
    do 2 f_equal. f_equal; concrete_arith.
  - range_concrete.
  - unfold PhysicsEngineLite.dist, PhysicsEngineLite.closest.
    cbn [pos Scene.at_ THREE.x THREE.y THREE.z]. closest_concrete.
    f_equal; concrete_arith.
  - lra.
  - unfold Resolver.distSq. simpl. lra.
  - concrete_arith.
  - reflexivity.
Qed.

Lemma side_contact_signature :
  landingSignature (Scene.at_ 30 0 0 0 (-1) 0 false 0) (THREE.mkVector3 1 0 0).
Proof.
  unfold landingSignature. simpl. rewrite Rabs_R0, Rabs_R1.
  repeat split; lra.
Qed.

(** C1 on the lighter resolver.  The player is beside the lone cube at
    grid (0,0,0), centre level with it, 10 away from its face, moving
    straight down.  The contact normal is (1,0,0), so the contact has the
    landing signature ([vel.y < 0], [|normal.y| < 0.35], [|normal.x| > 0.5]).
    The engine's resolver passes the contact over and leaves the player as
    it is; the lighter resolver, which has the neighbour test only, pushes
    the player out sideways from x = 30 to x = 40. *)
Theorem lite_resolver_pushes_on_landing_signature :
  landingSignature (Scene.at_ 30 0 0 0 (-1) 0 false 0)
    (contactNormalLite Scene.cube000 (pos (Scene.at_ 30 0 0 0 (-1) 0 false 0)))
  /\
  PhysicsEngineLite.resolveCollisions (Scene.at_ 30 0 0 0 (-1) 0 false 0)
    [Scene.cube000] Scene.loneMap GameEngine.respawn
  = mkResolved (Scene.at_ 40 0 0 0 (-1) 0 false 0) 0
  /\
  PhysicsEngine.resolveCollisions (Scene.at_ 30 0 0 0 (-1) 0 false 0)
    [Scene.cube000] Scene.loneMap GameEngine.respawn
  = mkResolved (Scene.at_ 30 0 0 0 (-1) 0 false 0) 0.
Proof.
  destruct side_contact_normal as [HnL HnF].
  split; [rewrite HnL; apply side_contact_signature|]. split.
  - unfold PhysicsEngineLite.resolveCollisions. simpl.
    rewrite side_contact_lite. reflexivity.
  - unfold PhysicsEngine.resolveCollisions. simpl.
    rewrite full_landing_contact_skipped; [reflexivity | reflexivity |].
    rewrite HnF. apply side_contact_signature.
Qed.

(** ** Landing on the seam of two adjoining cubes *)

(** The engine on the level made of the cubes at grid (0,0,0) and
    (1,0,0), with player [pl] and no key pressed. *)
Definition pairEngine (pl : PlayerState) : GameEngine.t :=
  GameEngine.withPlayer pl
    (GameEngine.create
       (LevelGenerator.mkLevel [Scene.cube000; Scene.cube100] Scene.pairMap 80)).

Lemma applyPhysics_falling (px py pz vy : R) (g : bool) (c : Z) :
  PhysicsEngine.applyPhysics (Scene.at_ px py pz 0 vy 0 g c) (THREE.mkVector3 0 0 0)
  = Scene.at_ px (py + (vy - CONFIG.gravity)) pz 0 (vy - CONFIG.gravity) 0 g c.
Proof.
  unfold PhysicsEngine.applyPhysics, Resolver.applyPhysics, Scene.at_, THREE.add.
  cbn [vel pos grounded coyoteTime THREE.x THREE.y THREE.z].
  replace (((0 + 0) * CONFIG.friction) ^ 2 + ((0 + 0) * CONFIG.friction) ^ 2)
    with 0 by ring.
  unfold Math.sqrt. rewrite sqrt_0.
  rewrite gtb_no by (unfold CONFIG.maxSpeed; lra).
  cbn [THREE.x THREE.y THREE.z].
  f_equal; f_equal; unfold CONFIG.friction, CONFIG.gravity; lra.
Qed.

Lemma pushOut_upwards (p : Vector3) (vx vy vz pen : R) (g0 g : bool) (c : Z) :
  vy < 0 ->
  Resolver.pushOut (mkPlayer p (THREE.mkVector3 vx vy vz) g0 c) g
    (THREE.mkVector3 0 1 0) pen
  = (mkPlayer (THREE.mkVector3 (THREE.x p) (THREE.y p + pen) (THREE.z p))
              (THREE.mkVector3 vx 0 vz) g0 c, true).
Proof.
  intros Hv. unfold Resolver.pushOut, THREE.dot, THREE.add, THREE.multiplyScalar.
  cbn [vel pos grounded coyoteTime THREE.x THREE.y THREE.z].
  rewrite ltb_yes by lra. rewrite gtb_yes by lra.
  f_equal. f_equal; f_equal; lra.
Qed.

(** The first resolver call of the landing tick: the sphere overlaps the
    top face of the merged box from above, on the seam. *)
Lemma landing_call (y1 vy : R) (g : bool) (c : Z) onReset :
  20 < y1 < 40 -> 0.00001 < (y1 - 20) * (y1 - 20) -> vy < 0 ->
  PhysicsEngine.resolveCollisions (Scene.at_ 20 y1 0 0 vy 0 g c)
    [Scene.cube000; Scene.cube100] Scene.pairMap onReset
  = mkResolved (Scene.at_ 20 40 0 0 0 0 true PHYSICS.coyoteFrames) 0.
Proof.
  intros Hy Hsq Hv. unfold PhysicsEngine.resolveCollisions.
  cbn [PhysicsEngine.forBlocks].
  rewrite (full_body_contact _ _ _ _ (THREE.mkVector3 0 (y1 - 20) 0) (y1 - 20)).
  - cbv zeta.
    replace (THREE.divideScalar (THREE.mkVector3 0 (y1 - 20) 0) (y1 - 20))
      with (THREE.mkVector3 0 1 0)
      by (unfold THREE.divideScalar; simpl; f_equal; field; lra).
    unfold PhysicsEngine.seamLike, Resolver.hasNeighborInNormalDir.
    cbn [THREE.x THREE.y THREE.z vel Scene.at_].
    decide_num. simpl negb. cbv iota.
    unfold Scene.at_ at 1 2. rewrite pushOut_upwards by exact Hv.
    cbn [THREE.x THREE.y THREE.z].
    replace (y1 + (CONFIG.playerRadius - (y1 - 20))) with 40
      by (unfold CONFIG.playerRadius; lra).
    fold (Scene.at_ 20 40 0 0 0 0 g c).
    rewrite full_body_clear; [reflexivity|].
    apply collides_false_far. rewrite bounds_pair_right.
    unfold PhysicsEngine.dist, PhysicsEngine.closest, pairBox.
    cbn [pos Scene.at_ THREE.x THREE.y THREE.z Box.min Box.max].
    closest_concrete. unfold Resolver.distSq. concrete_arith.
  - range_concrete.
  - rewrite bounds_pair_left.
    unfold PhysicsEngine.dist, PhysicsEngine.closest, pairBox.
    cbn [pos Scene.at_ THREE.x THREE.y THREE.z Box.min Box.max].
    closest_concrete. f_equal; concrete_arith.
  - lra.
  - unfold Resolver.distSq. simpl. lra.
  - unfold CONFIG.playerRadius. nra.
  - reflexivity.
Qed.

(** Once the sphere rests on the merged box it touches nothing. *)
Lemma resting_call (g : bool) (c : Z) onReset :
  PhysicsEngine.resolveCollisions (Scene.at_ 20 40 0 0 0 0 g c)
    [Scene.cube000; Scene.cube100] Scene.pairMap onReset
  = mkResolved (Resolver.stateUpdate (Scene.at_ 20 40 0 0 0 0 g c) false) 0.
Proof.
  unfold PhysicsEngine.resolveCollisions.
  rewrite full_forBlocks_clear; [reflexivity|].
  intros b [<-|[<-|[]]]; apply collides_false_far;
    rewrite ?bounds_pair_left, ?bounds_pair_right;
    unfold PhysicsEngine.dist, PhysicsEngine.closest, pairBox;
    cbn [pos Scene.at_ THREE.x THREE.y THREE.z Box.min Box.max];
    closest_concrete; unfold Resolver.distSq; concrete_arith.
Qed.

Lemma resolve_no_reset e pl' :
  PhysicsEngine.resolveCollisions (GameEngine.player e) (GameEngine.blocksData e)
    (GameEngine.blockMap e) GameEngine.respawn = mkResolved pl' 0 ->
  GameEngine.resolve e = GameEngine.withPlayer pl' e.
Proof. intros H. unfold GameEngine.resolve. rewrite H. reflexivity. Qed.

Lemma pair_resolve_landing (y1 vy : R) (g : bool) (c : Z) :
  20 < y1 < 40 -> 0.00001 < (y1 - 20) * (y1 - 20) -> vy < 0 ->
  GameEngine.resolve (pairEngine (Scene.at_ 20 y1 0 0 vy 0 g c))
  = pairEngine (Scene.at_ 20 40 0 0 0 0 true 5).
Proof.
  intros Hy Hsq Hv.
  rewrite (resolve_no_reset _ (Scene.at_ 20 40 0 0 0 0 true 5));
    [reflexivity | apply landing_call; assumption].
Qed.

Lemma pair_resolve_resting (c : Z) :
  (0 < c)%Z ->
  GameEngine.resolve (pairEngine (Scene.at_ 20 40 0 0 0 0 true c))
  = pairEngine (Scene.at_ 20 40 0 0 0 0 true (c - 1)).
Proof.
  intros Hc. erewrite resolve_no_reset by apply resting_call.
  unfold Resolver.stateUpdate. cbn [coyoteTime Scene.at_].
  apply Z.ltb_lt in Hc. rewrite Hc. reflexivity.
Qed.

(** On the engine's resolver the landing scenario of C1 comes out as
    stated.  The player is centred on the shared edge of the two cubes
    (x = 20, z = 0), above them, moving straight down with speed [v], and
    the integration step brings the sphere into contact with the top face
    (its centre ends between 20 and 40).  After one full tick the velocity
    is exactly zero, the sphere rests on the top face and the player is
    grounded. *)
Lemma seam_landing_tick (y0 v : R) :
  0 <= v ->
  20 < y0 - v - 0.65 < 40 ->
  0.00001 < (y0 - v - 0.65 - 20) * (y0 - v - 0.65 - 20) ->
  GameEngine.player
    (GameEngine.fixedUpdate (pairEngine (Scene.at_ 20 y0 0 0 (- v) 0 false 0)))
  = Scene.at_ 20 40 0 0 0 0 true 2.
Proof.
  intros Hv Hy Hsq. unfold GameEngine.fixedUpdate.
  change (GameEngine.inputForce (pairEngine (Scene.at_ 20 y0 0 0 (- v) 0 false 0)))
    with (THREE.mkVector3 0 0 0).
  change (GameEngine.player (pairEngine (Scene.at_ 20 y0 0 0 (- v) 0 false 0)))
    with (Scene.at_ 20 y0 0 0 (- v) 0 false 0).
  rewrite applyPhysics_falling.
  change (GameEngine.withPlayer ?p (pairEngine ?q)) with (pairEngine p).
  cbn [Nat.iter nat_rect].
  rewrite pair_resolve_landing.
  2: unfold CONFIG.gravity; lra.
  2: { unfold CONFIG.gravity.
       replace (y0 + (- v - 0.65) - 20) with (y0 - v - 0.65 - 20) by lra. exact Hsq. }
  2: unfold CONFIG.gravity; lra.
  rewrite !pair_resolve_resting by lia.
  unfold GameEngine.jump.
  change (key_space (GameEngine.input (pairEngine ?p))) with false.
  cbn [andb].
  unfold GameEngine.fallCheck.
  change (GameEngine.player (pairEngine ?p)) with p.
  cbn [pos Scene.at_ THREE.y].
  rewrite ltb_no by lra.
  unfold GameEngine.score.
  destruct (Num.gtb _ _); reflexivity.
Qed.


(** ** The cells of the spiral

    [spiralCell] rounds products of sines and cosines.  They are enclosed
    in rational intervals that are narrow enough to fix every rounding. *)

Lemma INR_fact_Z (n : nat) (z : Z) : Z.of_nat (fact n) = z -> INR (fact n) = IZR z.
Proof. intros <-. apply INR_IZR_INZ. Qed.

Lemma sin_enclosure a :
  0 <= a <= 4 ->
  a - a^3/6 + a^5/120 - a^7/5040 <= sin a
  <= a - a^3/6 + a^5/120 - a^7/5040 + a^9/362880.
Proof.
  intros [H0 H4]. pose proof (pre_sin_bound a 1 H0 H4) as H.
  unfold sin_approx, sin_term in H.
  cbn [sum_f_R0 Nat.mul Nat.add] in H.
  rewrite (INR_fact_Z 1 1), (INR_fact_Z 3 6), (INR_fact_Z 5 120),
    (INR_fact_Z 7 5040), (INR_fact_Z 9 362880) in H by (vm_compute; reflexivity).
  lra.
Qed.

Lemma cos_enclosure a :
  -2 <= a <= 2 ->
  1 - a^2/2 + a^4/24 - a^6/720 <= cos a
  <= 1 - a^2/2 + a^4/24 - a^6/720 + a^8/40320.
Proof.
  intros [H0 H4]. pose proof (pre_cos_bound a 1 H0 H4) as H.
  unfold cos_approx, cos_term in H.
  cbn [sum_f_R0 Nat.mul Nat.add] in H.
  rewrite (INR_fact_Z 0 1), (INR_fact_Z 2 2), (INR_fact_Z 4 24),
    (INR_fact_Z 6 720), (INR_fact_Z 8 40320) in H by (vm_compute; reflexivity).
  lra.
Qed.

(** Intervals with end points [n / scale], for sound evaluation of the
    trigonometric expressions of the level generator. *)
Module FixedPoint.

Definition scale : Z := 1000000000000.

Definition interval : Type := (Z * Z)%type.

Definition contains (i : interval) (x : R) : Prop :=
  IZR (fst i) <= x * IZR scale <= IZR (snd i).

Definition floorDiv (m : Z) : Z := (m / scale)%Z.
Definition ceilDiv (m : Z) : Z := (- ((- m) / scale))%Z.

Definition add (a b : interval) : interval := (fst a + fst b, snd a + snd b)%Z.
Definition sub (a b : interval) : interval := (fst a - snd b, snd a - fst b)%Z.
Definition mul (a b : interval) : interval :=
  let p1 := (fst a * fst b)%Z in
  let p2 := (fst a * snd b)%Z in
  let p3 := (snd a * fst b)%Z in
  let p4 := (snd a * snd b)%Z in
  (floorDiv (Z.min (Z.min p1 p2) (Z.min p3 p4)),
   ceilDiv (Z.max (Z.max p1 p2) (Z.max p3 p4))).
Definition exact (n : Z) : interval := (n * scale, n * scale)%Z.
(** times 3/2 *)
Definition times1_5 (a : interval) : interval := ((3 * fst a) / 2, - ((- (3 * snd a)) / 2))%Z.

Lemma scale_pos : 0 < IZR scale.
Proof. apply IZR_lt. reflexivity. Qed.

Lemma floorDiv_le m : IZR (floorDiv m) * IZR scale <= IZR m.
Proof.
  unfold floorDiv. rewrite <- mult_IZR. apply IZR_le.
  pose proof (Z.mul_div_le m scale ltac:(reflexivity)). lia.
Qed.

Lemma ceilDiv_ge m : IZR m <= IZR (ceilDiv m) * IZR scale.
Proof.
  unfold ceilDiv. rewrite <- mult_IZR. apply IZR_le.
  pose proof (Z.mul_div_le (- m) scale ltac:(reflexivity)). lia.
Qed.

Lemma add_sound a b x y : contains a x -> contains b y -> contains (add a b) (x + y).
Proof.
  unfold contains, add. simpl. rewrite !plus_IZR. intros [] []. split; lra.
Qed.

Lemma sub_sound a b x y : contains a x -> contains b y -> contains (sub a b) (x - y).
Proof.
  unfold contains, sub. simpl. rewrite !minus_IZR. intros [] []. split; lra.
Qed.

Lemma exact_sound n : contains (exact n) (IZR n).
Proof. unfold contains, exact. simpl. rewrite mult_IZR. split; lra. Qed.

Lemma corners (X Y a b c d : R) :
  a <= X <= b -> c <= Y <= d ->
  (a * c <= X * Y \/ a * d <= X * Y \/ b * c <= X * Y \/ b * d <= X * Y) /\
  (X * Y <= a * c \/ X * Y <= a * d \/ X * Y <= b * c \/ X * Y <= b * d).
Proof.
  intros [Ha Hb] [Hc Hd].
  destruct (Rle_dec 0 Y) as [HY|HY], (Rle_dec 0 a) as [Hpa|Hpa],
           (Rle_dec 0 b) as [Hpb|Hpb]; split; nra.
Qed.

Lemma mul_sound a b x y : contains a x -> contains b y -> contains (mul a b) (x * y).
Proof.
  unfold contains, mul. cbn [fst snd]. intros Hx Hy.
  pose proof (corners _ _ _ _ _ _ Hx Hy) as [Hlo Hhi].
  pose proof scale_pos as Hs.
  set (p1 := (fst a * fst b)%Z) in *. set (p2 := (fst a * snd b)%Z) in *.
  set (p3 := (snd a * fst b)%Z) in *. set (p4 := (snd a * snd b)%Z) in *.
  assert (Hmin : IZR (Z.min (Z.min p1 p2) (Z.min p3 p4))
                 <= (x * IZR scale) * (y * IZR scale)).
  { unfold p1, p2, p3, p4 in *. rewrite <- !mult_IZR in Hlo.
    destruct Hlo as [H|[H|[H|H]]]; (eapply Rle_trans; [|exact H]); apply IZR_le; lia. }
  assert (Hmax : (x * IZR scale) * (y * IZR scale)
                 <= IZR (Z.max (Z.max p1 p2) (Z.max p3 p4))).
  { unfold p1, p2, p3, p4 in *. rewrite <- !mult_IZR in Hhi.
    destruct Hhi as [H|[H|[H|H]]]; (eapply Rle_trans; [exact H|]); apply IZR_le; lia. }
  pose proof (floorDiv_le (Z.min (Z.min p1 p2) (Z.min p3 p4))).
  pose proof (ceilDiv_ge (Z.max (Z.max p1 p2) (Z.max p3 p4))).
  split; nra.
Qed.

Lemma times1_5_sound a x : contains a x -> contains (times1_5 a) (x * 1.5).
Proof.
  unfold contains, times1_5. cbn [fst snd]. intros [H1 H2].
  pose proof (Z.mul_div_le (3 * fst a) 2 ltac:(reflexivity)) as L.
  pose proof (Z.mul_div_le (- (3 * snd a)) 2 ltac:(reflexivity)) as U.
  apply IZR_le in L, U. rewrite !mult_IZR in L. rewrite mult_IZR, !opp_IZR, mult_IZR in U.
  rewrite opp_IZR.
  split; lra.
Qed.

End FixedPoint.

(** Enclosures of the pair (cos, sin) of the multiples of an angle,
    built from an enclosure at the angle itself by the addition formulas
    along the binary digits of the multiple. *)
Module Trig.

Definition Pair : Type := (FixedPoint.interval * FixedPoint.interval)%type.

Definition encloses (t : Pair) (theta : R) : Prop :=
  FixedPoint.contains (fst t) (cos theta) /\ FixedPoint.contains (snd t) (sin theta).

Definition addAngles (t u : Pair) : Pair :=
  (FixedPoint.sub (FixedPoint.mul (fst t) (fst u)) (FixedPoint.mul (snd t) (snd u)),
   FixedPoint.add (FixedPoint.mul (snd t) (fst u)) (FixedPoint.mul (fst t) (snd u))).

Lemma addAngles_sound t u x y :
  encloses t x -> encloses u y -> encloses (addAngles t u) (x + y).
Proof.
  intros [Hc1 Hs1] [Hc2 Hs2]. split; cbn [fst snd addAngles].
  - rewrite cos_plus. apply FixedPoint.sub_sound; apply FixedPoint.mul_sound; assumption.
  - rewrite sin_plus. apply FixedPoint.add_sound; apply FixedPoint.mul_sound; assumption.
Qed.

Definition zero : Pair := (FixedPoint.exact 1, FixedPoint.exact 0).

Lemma zero_sound : encloses zero 0.
Proof.
  split; cbn [fst snd zero].
  - rewrite cos_0. apply FixedPoint.exact_sound.
  - rewrite sin_0. apply FixedPoint.exact_sound.
Qed.

Fixpoint multiple (base : Pair) (p : positive) : Pair :=
  match p with
  | xH => base
  | xO q => let h := multiple base q in addAngles h h
  | xI q => let h := multiple base q in addAngles (addAngles h h) base
  end.

Lemma multiple_sound base a p :
  encloses base a -> encloses (multiple base p) (IZR (Z.pos p) * a).
Proof.
  intros Hb. induction p as [q IH|q IH|]; cbn [multiple].
  - replace (IZR (Z.pos q~1) * a) with (IZR (Z.pos q) * a + IZR (Z.pos q) * a + a).
    + repeat apply addAngles_sound; assumption.
    + rewrite (Pos2Z.inj_xI q), plus_IZR, mult_IZR. lra.
  - replace (IZR (Z.pos q~0) * a) with (IZR (Z.pos q) * a + IZR (Z.pos q) * a).
    + apply addAngles_sound; assumption.
    + rewrite (Pos2Z.inj_xO q), mult_IZR. lra.
  - replace (1 * a) with a by lra. exact Hb.
Qed.

Definition multipleN (base : Pair) (i : nat) : Pair :=
  match i with
  | O => zero
  | S _ => multiple base (Pos.of_nat i)
  end.

Lemma multipleN_sound base a i :
  encloses base a -> encloses (multipleN base i) (INR i * a).
Proof.
  intros Hb. destruct i as [|i]; cbn [multipleN].
  - simpl. rewrite Rmult_0_l. apply zero_sound.
  - rewrite INR_IZR_INZ.
    replace (Z.of_nat (S i)) with (Z.pos (Pos.of_nat (S i))) by lia.
    apply multiple_sound. exact Hb.
Qed.

Definition base035 : Pair :=
  ((939372707269, 939372712855), (342897807238, 342897807456))%Z.
Definition base010 : Pair :=
  ((995004165277, 995004165279), (99833416646, 99833416647))%Z.

Lemma base035_sound : encloses base035 0.35.
Proof.
  pose proof (sin_enclosure 0.35 ltac:(lra)).
  pose proof (cos_enclosure 0.35 ltac:(lra)).
  unfold encloses, FixedPoint.contains, base035, FixedPoint.scale. cbn [fst snd]. lra.
Qed.

Lemma base010_sound : encloses base010 0.1.
Proof.
  pose proof (sin_enclosure 0.1 ltac:(lra)).
  pose proof (cos_enclosure 0.1 ltac:(lra)).
  unfold encloses, FixedPoint.contains, base010, FixedPoint.scale. cbn [fst snd]. lra.
Qed.

End Trig.

(** The hundred cells of the spiral. *)
Definition spiralTable : list (Z * Z) :=
  [
    (4, 0); (4, 1); (3, 3); (2, 4); (1, 5); (-1, 5); (-2, 4); (-4, 3); (-5, 2); (-5, 0);
    (-5, -2); (-4, -3); (-3, -5); (-1, -5); (1, -5); (3, -5); (4, -3); (5, -2); (5, 0); (5, 2);
    (4, 4); (3, 5); (1, 5); (-1, 5); (-3, 4); (-4, 3); (-5, 2); (-5, 0); (-4, -2); (-3, -3);
    (-2, -4); (-1, -4); (1, -4); (2, -3); (3, -2); (3, -1); (3, 0); (3, 1); (2, 2); (1, 3);
    (0, 3); (-1, 3); (-1, 2); (-2, 2); (-2, 1); (-3, 0); (-2, -1); (-2, -2); (-1, -2); (0, -3);
    (1, -2); (1, -2); (2, -2); (3, -1); (3, 0); (3, 1); (2, 2); (1, 3); (0, 3); (-1, 3);
    (-2, 3); (-3, 2); (-4, 1); (-4, 0); (-4, -2); (-3, -3); (-2, -4); (-1, -5); (1, -5); (3, -4);
    (4, -3); (5, -1); (5, 0); (5, 2); (4, 4); (2, 5); (1, 5); (-1, 5); (-3, 5); (-4, 3);
    (-5, 1); (-5, 0); (-5, -2); (-4, -4); (-2, -5); (0, -5); (1, -5); (3, -4); (4, -3); (5, -1);
    (5, 0); (4, 2); (3, 3); (2, 4); (0, 4); (-1, 4); (-2, 3); (-3, 2); (-3, 1); (-3, 0) ]%Z.

Definition roundsTo (v : FixedPoint.interval) (n : Z) : bool :=
  (2 * n * FixedPoint.scale <=? 2 * fst v + FixedPoint.scale)%Z
  && (2 * snd v + FixedPoint.scale <? 2 * (n + 1) * FixedPoint.scale)%Z.

Lemma roundsTo_sound v x n :
  FixedPoint.contains v x -> roundsTo v n = true -> Math.round x = n.
Proof.
  unfold FixedPoint.contains, roundsTo. intros [Hlo Hhi] H.
  apply andb_true_iff in H as [H1 H2].
  apply Z.leb_le, IZR_le in H1. apply Z.ltb_lt, IZR_lt in H2.
  rewrite !plus_IZR, !mult_IZR in H1, H2. rewrite plus_IZR in H2.
  pose proof FixedPoint.scale_pos as Hs.
  assert (Ha : IZR n <= x + 0.5) by nra.
  assert (Hb : x + 0.5 < IZR n + 1) by nra.
  unfold Math.round, Math.floor.
  rewrite <- (tech_up (x + 0.5) (n + 1)); [lia | |]; rewrite plus_IZR; lra.
Qed.

Definition cellEnclosure (i : nat) : FixedPoint.interval * FixedPoint.interval :=
  let t35 := Trig.multipleN Trig.base035 i in
  let t10 := Trig.multipleN Trig.base010 i in
  let r := FixedPoint.add (FixedPoint.exact 4) (FixedPoint.times1_5 (snd t10)) in
  (FixedPoint.mul (fst t35) r, FixedPoint.mul (snd t35) r).

Definition cellOk (i : nat) (c : Z * Z) : bool :=
  roundsTo (fst (cellEnclosure i)) (fst c) && roundsTo (snd (cellEnclosure i)) (snd c).

Lemma cellOk_sound i c : cellOk i c = true -> LevelGenerator.spiralCell i = c.
Proof.
  unfold cellOk. intros H. apply andb_true_iff in H as [Hx Hz].
  destruct (Trig.multipleN_sound _ _ i Trig.base035_sound) as [Hc35 Hs35].
  destruct (Trig.multipleN_sound _ _ i Trig.base010_sound) as [_ Hs10].
  assert (Hr : FixedPoint.contains
                 (FixedPoint.add (FixedPoint.exact 4)
                    (FixedPoint.times1_5 (snd (Trig.multipleN Trig.base010 i))))
                 (4 + sin (INR i * 0.1) * 1.5)).
  { apply FixedPoint.add_sound; [apply (FixedPoint.exact_sound 4)|].
    apply FixedPoint.times1_5_sound. exact Hs10. }
  unfold LevelGenerator.spiralCell. cbv zeta. destruct c as [bx bz].
  f_equal.
  - eapply roundsTo_sound; [|exact Hx]. apply FixedPoint.mul_sound; assumption.
  - eapply roundsTo_sound; [|exact Hz]. apply FixedPoint.mul_sound; assumption.
Qed.

Lemma tableOk :
  forallb (fun i => cellOk i (nth i spiralTable (0, 0)%Z)) (seq 0 100) = true.
Proof. vm_compute. reflexivity. Qed.

(** Every cell of the spiral is the one the table lists. *)
Lemma spiralCell_table (i : nat) :
  (i < 100)%nat -> LevelGenerator.spiralCell i = nth i spiralTable (0, 0)%Z.
Proof.
  intros Hi. apply cellOk_sound.
  exact (proj1 (forallb_forall _ _) tableOk i (proj2 (in_seq _ _ _) (conj (Nat.le_0_l i) Hi))).
Qed.

(** ** The level generator keeps one block per cell *)

Definition key (b : BlockData) : Key :=
  (BlockData.gx b, BlockData.gy b, BlockData.gz b).

Definition keys (st : LevelGenerator.Gen) : list Key :=
  key <$> LevelGenerator.g_blocksData st.

(** The list of blocks and the index agree, and no cell occurs twice. *)
Record consistent (blocks : list BlockData) (index : BlockMap) : Prop := {
  cons_nodup : NoDup (key <$> blocks);
  cons_absent : forall k, index !! k = None <-> k ∉ key <$> blocks;
  cons_size : size index = length blocks;
  cons_lookup : forall b, b ∈ blocks -> index !! key b = Some b
}.

Lemma consistent_empty : consistent [] ∅.
Proof.
  split.
  - constructor.
  - intros k. rewrite lookup_empty. split; [intros _; apply not_elem_of_nil | reflexivity].
  - reflexivity.
  - intros b Hb. apply elem_of_nil in Hb. destruct Hb.
Qed.

Section AddBlock.
Import LevelGenerator.

Lemma addBlock_blocks gx gy gz ty st :
  g_blocksData (addBlock gx gy gz ty st)
  = g_blocksData st ++ [newBlock gx gy gz ty (length (g_blocksData st))].
Proof. reflexivity. Qed.

Lemma addBlock_keys gx gy gz ty st :
  keys (addBlock gx gy gz ty st) = keys st ++ [(gx, gy, gz)].
Proof. unfold keys. rewrite addBlock_blocks, fmap_app. reflexivity. Qed.

Lemma addBlock_currentY gx gy gz ty st :
  g_currentY (addBlock gx gy gz ty st) = g_currentY st.
Proof. reflexivity. Qed.

Lemma addBlock_cursor gx gy gz ty st :
  g_cursor (addBlock gx gy gz ty st) = g_cursor st.
Proof. reflexivity. Qed.

(** Adding a block at a free cell keeps list and index consistent. *)
Lemma addBlock_consistent gx gy gz ty st :
  consistent (g_blocksData st) (g_blockMap st) ->
  (gx, gy, gz) ∉ keys st ->
  consistent (g_blocksData (addBlock gx gy gz ty st))
             (g_blockMap (addBlock gx gy gz ty st)).
Proof.
  intros [Hnd Habs Hsize Hlook] Hfresh. unfold keys in Hfresh.
  set (b := newBlock gx gy gz ty (length (g_blocksData st))).
  assert (Hkb : key b = (gx, gy, gz)) by reflexivity.
  cbn [addBlock g_blocksData g_blockMap]. fold b. unfold keyOf. split.
  - rewrite fmap_app. apply NoDup_app. split; [exact Hnd|]. split.
    + intros k Hk Hk'. cbn in Hk'. apply list_elem_of_singleton in Hk'. subst k.
      rewrite Hkb in Hk. contradiction.
    + apply NoDup_singleton.
  - intros k. rewrite fmap_app, elem_of_app. cbn [fmap list_fmap]. rewrite list_elem_of_singleton, Hkb.
    destruct (decide ((gx, gy, gz) = k)) as [<-|Hne].
    + rewrite lookup_insert_eq. split; [discriminate | intros H; exfalso; apply H; auto].
    + rewrite lookup_insert_ne by exact Hne. rewrite Habs.
      split; [intros H [H'|H']; [contradiction | congruence] | intros H H'; apply H; auto].
  - rewrite length_app. cbn [length]. rewrite map_size_insert_None; [lia|].
    apply Habs. exact Hfresh.
  - intros b' Hb'. apply elem_of_app in Hb' as [Hb'|Hb'].
    + rewrite lookup_insert_ne; [apply Hlook, Hb'|].
      intros E. apply Hfresh. rewrite E. apply list_elem_of_fmap_2. exact Hb'.
    + apply list_elem_of_singleton in Hb'. subst b'. rewrite Hkb. apply lookup_insert_eq.
Qed.

End AddBlock.

(** *** The cells a run may have filled *)

Section Schedule.
Import LevelGenerator.

(** Every cell of the state is among the cells [possible]. *)
Definition coveredBy (st : Gen) (possible : list Key) : Prop :=
  forall k, k ∈ keys st -> k ∈ possible.

Definition candidates (i : nat) (bx y bz : Z) : list Key :=
  if (i mod 6 =? 0)%nat then [ (bx + 1, y, bz); (bx + -1, y, bz) ]%Z else [].

Definition isSpikeStep (i : nat) : bool := (10 <? i)%nat && (i mod 8 =? 0)%nat.

Definition nextY (i : nat) (y : Z) : Z :=
  if isSpikeStep i then y else if (i mod 2 =? 0)%nat then (y + 1)%Z else y.

Definition nextPossible (i : nat) (bx y bz : Z) (possible : list Key) : list Key :=
  (if isSpikeStep i then [ (bx, y + 1, bz)%Z ] else [])
  ++ candidates i bx y bz ++ (bx, y, bz) :: possible.

(** The cell of step [i] is free whatever was drawn before, and so is
    the cell of its spike. *)
Definition stepOk (i : nat) (bx y bz : Z) (possible : list Key) : bool :=
  bool_decide ((bx, y, bz) ∉ possible)
  && (if isSpikeStep i
      then bool_decide ((bx, y + 1, bz)%Z ∉ candidates i bx y bz ++ (bx, y, bz) :: possible)
      else true).

Lemma placeStep_consistent rnd st i bx bz possible :
  consistent (g_blocksData st) (g_blockMap st) ->
  coveredBy st possible ->
  stepOk i bx (g_currentY st) bz possible = true ->
  let st' := placeStep rnd st i bx bz in
  consistent (g_blocksData st') (g_blockMap st')
  /\ coveredBy st' (nextPossible i bx (g_currentY st) bz possible)
  /\ g_currentY st' = nextY i (g_currentY st).
Proof.
  intros Hc Hcov Hok. set (y := g_currentY st) in *.
  apply andb_true_iff in Hok as [Hmain Hspike]. apply bool_decide_eq_true in Hmain.
  (* the cell of the step *)
  set (st1 := addBlock bx y bz Standard st).
  assert (Hc1 : consistent (g_blocksData st1) (g_blockMap st1)).
  { apply addBlock_consistent; [exact Hc|]. intros H. apply Hmain, Hcov, H. }
  assert (Hcov1 : coveredBy st1 ((bx, y, bz) :: possible)).
  { intros k. unfold st1. rewrite addBlock_keys, elem_of_app, list_elem_of_singleton.
    intros [H| ->]; [right; apply Hcov, H | left]. }
  (* the side platform *)
  set (st2 :=
    if (i mod 6 =? 0)%nat then
      let nx := (bx + (if Num.gtb (rnd (g_cursor st1)) 0.5 then 1 else -1))%Z in
      let st := mkGen (g_blocksData st1) (g_blockMap st1) (g_currentY st1)
                      (S (g_cursor st1)) in
      if negb (bool_decide (is_Some (g_blockMap st !! keyOf nx (g_currentY st) bz)))
      then addBlock nx (g_currentY st) bz Standard st
      else st
    else st1).
  assert (H2 : consistent (g_blocksData st2) (g_blockMap st2)
               /\ coveredBy st2 (candidates i bx y bz ++ (bx, y, bz) :: possible)
               /\ g_currentY st2 = y).
  { unfold st2, candidates. destruct (i mod 6 =? 0)%nat.
    - cbv zeta. cbn [g_blockMap g_currentY g_blocksData].
      change (g_currentY st1) with y.
      set (nx := (bx + (if Num.gtb (rnd (g_cursor st1)) 0.5 then 1 else -1))%Z).
      assert (Hnx : (nx, y, bz) ∈ [ (bx + 1, y, bz); (bx + -1, y, bz) ]%Z).
      { unfold nx. destruct (Num.gtb _ _); [left | right; left]. }
      destruct (bool_decide (is_Some (g_blockMap st1 !! keyOf nx y bz))) eqn:E;
        cbn [negb].
      + split; [exact Hc1|]. split; [|reflexivity].
        intros k Hk. apply elem_of_app. right. apply Hcov1, Hk.
      + apply bool_decide_eq_false in E. split; [|split; [|reflexivity]].
        * apply (addBlock_consistent nx y bz Standard
                   (mkGen (g_blocksData st1) (g_blockMap st1) y (S (g_cursor st1))));
            [exact Hc1|].
          apply (cons_absent _ _ Hc1). unfold keyOf in E.
          apply eq_None_not_Some. exact E.
        * intros k. rewrite addBlock_keys, elem_of_app, list_elem_of_singleton.
          intros [H| ->]; apply elem_of_app; [right; apply Hcov1, H | left; exact Hnx].
    - split; [exact Hc1|]. split; [exact Hcov1 | reflexivity]. }
  destruct H2 as (Hc2 & Hcov2 & Hy2).
  change (placeStep rnd st i bx bz)
    with (if (10 <? i)%nat && (i mod 8 =? 0)%nat then
            addBlock bx (g_currentY st2 + 1) bz Spike st2
          else if (i mod 2 =? 0)%nat then
            mkGen (g_blocksData st2) (g_blockMap st2) (g_currentY st2 + 1) (g_cursor st2)
          else st2).
  cbv zeta. unfold nextPossible, nextY. fold (isSpikeStep i) in *.
  rewrite Hy2. destruct (isSpikeStep i).
  - apply bool_decide_eq_true in Hspike. split; [|split; [|exact Hy2]].
    + apply addBlock_consistent; [exact Hc2|]. intros H. apply Hspike, Hcov2, H.
    + intros k. rewrite addBlock_keys, elem_of_app, list_elem_of_singleton.
      intros [H| ->]; apply elem_of_app; [right; apply Hcov2, H | left; left].
  - destruct (i mod 2 =? 0)%nat; (split; [exact Hc2|]; split; [exact Hcov2|]);
      [reflexivity | exact Hy2].
Qed.

End Schedule.

Section WholeRun.
Import LevelGenerator.

(** Step [j] of the loop, with its cell read from the table. *)
Definition tableStep (rnd : nat -> R) (st : Gen) (j : nat) : Gen :=
  let c := nth j spiralTable (0, 0)%Z in placeStep rnd st j (fst c) (snd c).

Lemma spiralStep_table rnd st j : (j < 100)%nat -> spiralStep rnd st j = tableStep rnd st j.
Proof.
  intros Hj. unfold spiralStep, tableStep. rewrite (spiralCell_table j Hj).
  destruct (nth j spiralTable (0, 0)%Z). reflexivity.
Qed.

Lemma fold_spiralStep_table rnd (js : list nat) : forall st,
  (forall j, In j js -> (j < 100)%nat) ->
  fold_left (spiralStep rnd) js st = fold_left (tableStep rnd) js st.
Proof.
  induction js as [|j js IH]; intros st Hjs; [reflexivity|]. cbn [fold_left].
  rewrite spiralStep_table by (apply Hjs; left; reflexivity).
  apply IH. intros k Hk. apply Hjs. right. exact Hk.
Qed.

Lemma spiral_table rnd st : spiral rnd st = fold_left (tableStep rnd) (seq 0 100) st.
Proof.
  unfold spiral, towerHeight. apply fold_spiralStep_table.
  intros j Hj. apply in_seq in Hj. lia.
Qed.

(** The victory platform and its finial. *)
Definition finish (st : Gen) : Gen :=
  addBlock 0 (g_currentY st + 1 + 1) 0 Spike
    (addBlock 0 (g_currentY st + 1) 0 Standard st).

Definition capOk (y : Z) (possible : list Key) : bool :=
  bool_decide ((0, y + 1, 0)%Z ∉ possible)
  && bool_decide ((0, y + 1 + 1, 0)%Z ∉ (0, y + 1, 0)%Z :: possible).

(** The check that every cell the loop and the victory platform fill is
    free when it is filled, whatever the draws were: [n] steps from step
    [i] on, at height [y], when the cells [possible] may be filled. *)
Fixpoint staticOk (n i : nat) (y : Z) (possible : list Key) : bool :=
  match n with
  | O => capOk y possible
  | S n' =>
    let c := nth i spiralTable (0, 0)%Z in
    stepOk i (fst c) y (snd c) possible
    && staticOk n' (S i) (nextY i y) (nextPossible i (fst c) y (snd c) possible)
  end.

Lemma finish_consistent st possible :
  consistent (g_blocksData st) (g_blockMap st) ->
  coveredBy st possible ->
  capOk (g_currentY st) possible = true ->
  consistent (g_blocksData (finish st)) (g_blockMap (finish st)).
Proof.
  intros Hc Hcov Hok. apply andb_true_iff in Hok as [H1 H2].
  apply bool_decide_eq_true in H1, H2. unfold finish.
  apply addBlock_consistent.
  - apply addBlock_consistent; [exact Hc|]. intros H. apply H1, Hcov, H.
  - rewrite addBlock_keys, elem_of_app, list_elem_of_singleton.
    intros [H|H]; apply H2; [right; apply Hcov, H | rewrite H; left].
Qed.

Lemma fold_consistent rnd (n : nat) : forall i st possible,
  consistent (g_blocksData st) (g_blockMap st) ->
  coveredBy st possible ->
  staticOk n i (g_currentY st) possible = true ->
  let st' := finish (fold_left (tableStep rnd) (seq i n) st) in
  consistent (g_blocksData st') (g_blockMap st').
Proof.
  induction n as [|n IH]; intros i st possible Hc Hcov Hok; cbn [seq fold_left].
  - eapply finish_consistent; eassumption.
  - cbn [staticOk] in Hok. apply andb_true_iff in Hok as [Hstep Hrest].
    destruct (placeStep_consistent rnd st i _ _ possible Hc Hcov Hstep)
      as (Hc' & Hcov' & Hy').
    apply (IH (S i) (tableStep rnd st i) _ Hc' Hcov').
    unfold tableStep. rewrite Hy'. exact Hrest.
Qed.

(** The base platform. *)
Definition baseCells : list (Z * Z) :=
  [ (-2, -2); (-2, -1); (-2, 0); (-2, 1); (-2, 2);
    (-1, -2); (-1, -1); (-1, 0); (-1, 1); (-1, 2);
    (0, -2); (0, -1); (0, 0); (0, 1); (0, 2);
    (1, -2); (1, -1); (1, 0); (1, 1); (1, 2);
    (2, -2); (2, -1); (2, 0); (2, 1); (2, 2) ]%Z.

Definition baseKeys : list Key := (fun c : Z * Z => (fst c, 0%Z, snd c)) <$> baseCells.

Definition addCells (cells : list (Z * Z)) (st : Gen) : Gen :=
  fold_left (fun st c => addBlock (fst c) 0 (snd c) Standard st) cells st.

Lemma basePlatform_addCells st : basePlatform st = addCells baseCells st.
Proof. reflexivity. Qed.

Lemma addCells_consistent (cells : list (Z * Z)) : forall st,
  consistent (g_blocksData st) (g_blockMap st) ->
  NoDup (keys st ++ ((fun c : Z * Z => (fst c, 0%Z, snd c)) <$> cells)) ->
  let st' := addCells cells st in
  consistent (g_blocksData st') (g_blockMap st')
  /\ keys st' = keys st ++ ((fun c : Z * Z => (fst c, 0%Z, snd c)) <$> cells)
  /\ g_currentY st' = g_currentY st /\ g_cursor st' = g_cursor st.
Proof.
  induction cells as [|c cells IH]; intros st Hc Hnd; cbn [addCells fold_left fmap list_fmap].
  - rewrite app_nil_r. auto.
  - cbn [fmap list_fmap] in Hnd.
    assert (Hfresh : (fst c, 0%Z, snd c) ∉ keys st).
    { apply NoDup_app in Hnd as (_ & Hd & _). intros H. apply (Hd _ H). left. }
    destruct (IH (addBlock (fst c) 0 (snd c) Standard st)) as (H1 & H2 & H3 & H4).
    + apply addBlock_consistent; assumption.
    + rewrite addBlock_keys, <- app_assoc. exact Hnd.
    + split; [exact H1|]. split; [|split; assumption].
      fold (addCells cells (addBlock (fst c) 0 (snd c) Standard st)).
      rewrite H2, addBlock_keys, <- app_assoc. reflexivity.
Qed.

Lemma staticOk_table : staticOk 100 0 1 baseKeys = true.
Proof. vm_compute. reflexivity. Qed.

(** [generate], as the base platform, the table-driven loop and the
    victory platform. *)
Lemma generate_unfold rnd cursor :
  let st := finish (fold_left (tableStep rnd) (seq 0 100)
                      (addCells baseCells (mkGen [] ∅ 1 cursor))) in
  generate rnd cursor
  = (mkLevel (g_blocksData st) (g_blockMap st)
       (IZR (g_currentY (fold_left (tableStep rnd) (seq 0 100)
                           (addCells baseCells (mkGen [] ∅ 1 cursor))) + 1)
        * CONFIG.blockSize),
     g_cursor st).
Proof.
  cbv zeta. unfold generate. cbv zeta.
  rewrite basePlatform_addCells.
  destruct (addCells_consistent baseCells (mkGen [] ∅ 1 cursor) consistent_empty)
    as (_ & _ & Hy & _).
  { apply (bool_decide_unpack _). vm_compute. exact I. }
  cbn [g_currentY] in Hy.
  replace (mkGen (g_blocksData (addCells baseCells (mkGen [] ∅ 1 cursor)))
                 (g_blockMap (addCells baseCells (mkGen [] ∅ 1 cursor))) 1
                 (g_cursor (addCells baseCells (mkGen [] ∅ 1 cursor))))
    with (addCells baseCells (mkGen [] ∅ 1 cursor)).
  - rewrite spiral_table. reflexivity.
  - destruct (addCells baseCells (mkGen [] ∅ 1 cursor)). cbn in *. rewrite Hy. reflexivity.
Qed.

End WholeRun.

(** C9.  One index entry per cell.  For every sequence of draws, the
    blocks [generate] returns lie in pairwise different cells, the index
    maps the cell of every block to that block and nothing else, and the
    index has as many entries as there are blocks.  Every insertion
    appends one block to the list, so equal sizes mean that no insertion
    replaced an entry that was already there. *)
Theorem index_has_one_entry_per_cell (rnd : nat -> R) (cursor : nat) :
  let level := fst (LevelGenerator.generate rnd cursor) in
  NoDup (key <$> LevelGenerator.blocksData level)
  /\ size (LevelGenerator.blockMap level) = length (LevelGenerator.blocksData level)
  /\ (forall b, b ∈ LevelGenerator.blocksData level ->
        LevelGenerator.blockMap level !! key b = Some b)
  /\ (forall k, LevelGenerator.blockMap level !! k = None
                <-> k ∉ key <$> LevelGenerator.blocksData level).
Proof.
  cbv zeta. rewrite generate_unfold. cbn [fst LevelGenerator.blocksData LevelGenerator.blockMap].
  destruct (addCells_consistent baseCells (LevelGenerator.mkGen [] ∅ 1 cursor)
              consistent_empty) as (Hc & Hk & Hy & _).
  { apply (bool_decide_unpack _). vm_compute. exact I. }
  destruct (fold_consistent rnd 100 0
              (addCells baseCells (LevelGenerator.mkGen [] ∅ 1 cursor)) baseKeys)
    as [H1 H2 H3 H4].
  - exact Hc.
  - intros k. rewrite Hk. cbn [keys LevelGenerator.g_blocksData fmap list_fmap app]. auto.
  - rewrite Hy. exact staticOk_table.
  - auto.
Qed.

(** *** The list of blocks only grows *)

Section Growth.
Import LevelGenerator.

(** [st'] has the blocks of [st] followed by blocks at height [y] or
    above, and is not lower than [st]. *)
Definition grows (y : Z) (st st' : Gen) : Prop :=
  exists extra,
    g_blocksData st' = g_blocksData st ++ extra
    /\ Forall (fun b => (y <= BlockData.gy b)%Z) extra
    /\ (g_currentY st <= g_currentY st')%Z.

Lemma grows_refl y st : grows y st st.
Proof. exists []. rewrite app_nil_r. repeat split; [constructor | lia]. Qed.

Lemma grows_trans y st1 st2 st3 : grows y st1 st2 -> grows y st2 st3 -> grows y st1 st3.
Proof.
  intros (e1 & E1 & F1 & Y1) (e2 & E2 & F2 & Y2). exists (e1 ++ e2).
  rewrite E2, E1, app_assoc. repeat split; [apply Forall_app; auto | lia].
Qed.

Lemma grows_addBlock y gx gy gz ty st :
  (y <= gy)%Z -> grows y st (addBlock gx gy gz ty st).
Proof.
  intros Hy. exists [newBlock gx gy gz ty (length (g_blocksData st))].
  repeat split; [repeat constructor; exact Hy | cbn; lia].
Qed.

Lemma grows_relabel y st bd m c :
  bd = g_blocksData st -> (g_currentY st <= c)%Z ->
  forall cur, grows y st (mkGen bd m c cur).
Proof.
  intros -> Hc cur. exists []. cbn. rewrite app_nil_r. repeat split; [constructor | exact Hc].
Qed.

Lemma placeStep_grows rnd st i bx bz y :
  (y <= g_currentY st)%Z -> grows y st (placeStep rnd st i bx bz).
Proof.
  intros Hy. unfold placeStep.
  set (st1 := addBlock bx (g_currentY st) bz Standard st).
  assert (G1 : grows y st st1) by (apply grows_addBlock; exact Hy).
  set (st2 := if (i mod 6 =? 0)%nat then _ else st1).
  assert (G2 : grows y st1 st2 /\ g_currentY st2 = g_currentY st).
  { unfold st2. destruct (i mod 6 =? 0)%nat; [|split; [apply grows_refl | reflexivity]].
    cbv zeta. destruct (negb _); split; try reflexivity.
    - eapply grows_trans; [|apply grows_addBlock; cbn; exact Hy].
      apply grows_relabel; [reflexivity | cbn; lia].
    - apply grows_relabel; [reflexivity | cbn; lia]. }
  destruct G2 as [G2 Y2].
  eapply grows_trans; [exact G1|]. eapply grows_trans; [exact G2|].
  destruct ((10 <? i)%nat && (i mod 8 =? 0)%nat).
  - apply grows_addBlock. lia.
  - destruct (i mod 2 =? 0)%nat; [|apply grows_refl].
    apply grows_relabel; [reflexivity | lia].
Qed.

Lemma fold_spiralStep_grows rnd y (js : list nat) : forall st,
  (y <= g_currentY st)%Z -> grows y st (fold_left (spiralStep rnd) js st).
Proof.
  induction js as [|j js IH]; intros st Hy; cbn [fold_left]; [apply grows_refl|].
  assert (G : grows y st (spiralStep rnd st j)).
  { unfold spiralStep. destruct (spiralCell j). apply placeStep_grows, Hy. }
  eapply grows_trans; [exact G|]. apply IH.
  destruct G as (_ & _ & _ & Hle). lia.
Qed.

End Growth.

(** *** The draws decide everything *)

Section Draws.
Import LevelGenerator.

(** The states agree on everything but the cursor of the generator. *)
Definition sameButCursor (st1 st2 : Gen) : Prop :=
  g_blocksData st1 = g_blocksData st2
  /\ g_blockMap st1 = g_blockMap st2
  /\ g_currentY st1 = g_currentY st2.

(** The number of draws the steps [js] make. *)
Definition drawsOf (js : list nat) : nat :=
  length (List.filter (fun j => (j mod 6 =? 0)%nat) js).

Lemma sameButCursor_addBlock gx gy gz ty st1 st2 :
  sameButCursor st1 st2 ->
  sameButCursor (addBlock gx gy gz ty st1) (addBlock gx gy gz ty st2).
Proof.
  intros (Hb & Hm & Hy). unfold addBlock, sameButCursor. cbn. rewrite Hb, Hm, Hy. auto.
Qed.

Lemma placeStep_draws rnd1 rnd2 st1 st2 i bx bz :
  sameButCursor st1 st2 ->
  ((i mod 6 =? 0)%nat = true ->
   Num.gtb (rnd1 (g_cursor st1)) 0.5 = Num.gtb (rnd2 (g_cursor st2)) 0.5) ->
  sameButCursor (placeStep rnd1 st1 i bx bz) (placeStep rnd2 st2 i bx bz)
  /\ g_cursor (placeStep rnd1 st1 i bx bz)
     = (g_cursor st1 + drawsOf [i])%nat
  /\ g_cursor (placeStep rnd2 st2 i bx bz)
     = (g_cursor st2 + drawsOf [i])%nat.
Proof.
  intros Hs Hd. destruct st1 as [b1 m1 y1 c1], st2 as [b2 m2 y2 c2].
  unfold sameButCursor in Hs. cbn [g_blocksData g_blockMap g_currentY] in Hs.
  destruct Hs as (-> & -> & ->). cbn [g_cursor] in Hd.
  unfold placeStep, drawsOf, sameButCursor, addBlock.
  cbn [List.filter g_blocksData g_blockMap g_currentY g_cursor].
  destruct (i mod 6 =? 0)%nat eqn:E6.
  - rewrite (Hd eq_refl). cbn [length g_blocksData g_blockMap g_currentY g_cursor].
    destruct (negb _);
      destruct ((10 <? i)%nat && (i mod 8 =? 0)%nat);
      try destruct (i mod 2 =? 0)%nat;
      cbn [g_blocksData g_blockMap g_currentY g_cursor];
      repeat split; lia.
  - cbn [length].
    destruct ((10 <? i)%nat && (i mod 8 =? 0)%nat);
      try destruct (i mod 2 =? 0)%nat;
      cbn [g_blocksData g_blockMap g_currentY g_cursor];
      repeat split; lia.
Qed.

Lemma drawsOf_cons j js : drawsOf (j :: js) = (drawsOf [j] + drawsOf js)%nat.
Proof. unfold drawsOf. cbn [List.filter]. destruct (j mod 6 =? 0)%nat; reflexivity. Qed.

Lemma fold_spiralStep_draws rnd1 rnd2 (js : list nat) : forall st1 st2,
  sameButCursor st1 st2 ->
  (forall k, (k < drawsOf js)%nat ->
     Num.gtb (rnd1 (g_cursor st1 + k)%nat) 0.5 = Num.gtb (rnd2 (g_cursor st2 + k)%nat) 0.5) ->
  sameButCursor (fold_left (spiralStep rnd1) js st1) (fold_left (spiralStep rnd2) js st2)
  /\ g_cursor (fold_left (spiralStep rnd1) js st1) = (g_cursor st1 + drawsOf js)%nat
  /\ g_cursor (fold_left (spiralStep rnd2) js st2) = (g_cursor st2 + drawsOf js)%nat.
Proof.
  induction js as [|j js IH]; intros st1 st2 Hs Hd; cbn [fold_left].
  - unfold drawsOf. cbn. rewrite !Nat.add_0_r. auto.
  - rewrite drawsOf_cons in Hd |- *.
    assert (Hstep : sameButCursor (spiralStep rnd1 st1 j) (spiralStep rnd2 st2 j)
                    /\ g_cursor (spiralStep rnd1 st1 j) = (g_cursor st1 + drawsOf [j])%nat
                    /\ g_cursor (spiralStep rnd2 st2 j) = (g_cursor st2 + drawsOf [j])%nat).
    { unfold spiralStep. destruct (spiralCell j) as [bx bz].
      apply placeStep_draws; [exact Hs|]. intros E.
      specialize (Hd 0%nat). rewrite !Nat.add_0_r in Hd. apply Hd.
      unfold drawsOf at 1. cbn [List.filter]. rewrite E. cbn. lia. }
    destruct Hstep as (Hs' & C1 & C2).
    destruct (IH _ _ Hs') as (Hs'' & C1' & C2').
    + intros k Hk. rewrite C1, C2, <- !Nat.add_assoc. apply Hd. lia.
    + split; [exact Hs''|]. rewrite C1', C2', C1, C2. lia.
Qed.

End Draws.

(** *** The base platform and the draws *)

Section BaseAndDraws.
Import LevelGenerator.

(** The 25 blocks of the base platform, in the order they are placed. *)
Definition baseBlocks : list BlockData :=
  imap (fun i c => newBlock (fst c) 0 (snd c) Standard i) baseCells.

Lemma addCells_blocks (cells : list (Z * Z)) : forall st,
  g_blocksData (addCells cells st)
  = g_blocksData st
    ++ imap (fun i c => newBlock (fst c) 0 (snd c) Standard (length (g_blocksData st) + i))
            cells.
Proof.
  induction cells as [|c cells IH]; intros st; cbn [addCells fold_left imap].
  - rewrite app_nil_r. reflexivity.
  - fold (addCells cells (addBlock (fst c) 0 (snd c) Standard st)).
    rewrite IH, addBlock_blocks, <- app_assoc. cbn [app]. rewrite Nat.add_0_r.
    do 2 f_equal. apply imap_ext. intros i x _. cbn. rewrite length_app. cbn.
    f_equal. lia.
Qed.

Lemma addCells_same (cells : list (Z * Z)) : forall st1 st2,
  sameButCursor st1 st2 -> sameButCursor (addCells cells st1) (addCells cells st2).
Proof.
  induction cells as [|c cells IH]; intros st1 st2 Hs; cbn [addCells fold_left].
  - exact Hs.
  - apply IH. apply sameButCursor_addBlock. exact Hs.
Qed.

(** The state in which the spiral loop starts. *)
Definition baseState (cursor : nat) : Gen := addCells baseCells (mkGen [] ∅ 1 cursor).

Lemma baseState_facts cursor :
  g_blocksData (baseState cursor) = baseBlocks
  /\ g_currentY (baseState cursor) = 1%Z
  /\ g_cursor (baseState cursor) = cursor.
Proof.
  unfold baseState. split.
  - rewrite addCells_blocks. reflexivity.
  - destruct (addCells_consistent baseCells (mkGen [] ∅ 1 cursor) consistent_empty)
      as (_ & _ & Hy & Hc); [|split; assumption].
    apply (bool_decide_unpack _). vm_compute. exact I.
Qed.

Lemma generate_from_base rnd cursor :
  generate rnd cursor
  = (mkLevel
       (g_blocksData (finish (spiral rnd (baseState cursor))))
       (g_blockMap (finish (spiral rnd (baseState cursor))))
       (IZR (g_currentY (spiral rnd (baseState cursor)) + 1) * CONFIG.blockSize),
     g_cursor (finish (spiral rnd (baseState cursor)))).
Proof.
  unfold generate. cbv zeta. rewrite basePlatform_addCells. fold (baseState cursor).
  destruct (baseState_facts cursor) as (_ & Hy & _).
  replace (mkGen (g_blocksData (baseState cursor)) (g_blockMap (baseState cursor)) 1
                 (g_cursor (baseState cursor)))
    with (baseState cursor); [reflexivity|].
  destruct (baseState cursor). cbn in *. rewrite Hy. reflexivity.
Qed.

Lemma drawsOf_spiral : drawsOf (seq 0 towerHeight) = 17%nat.
Proof. reflexivity. Qed.

Lemma baseState_same cursor cursor' : sameButCursor (baseState cursor) (baseState cursor').
Proof. apply addCells_same. repeat split. Qed.

(** C7, as the code has it.  [generate] takes no random source: it reads
    the ambient generator, 17 times per call.  Every call places the same
    25 Standard blocks of the base platform first (one per cell with
    [gx], [gz] in [-2, 2] at [gy = 0], with ids 0 to 24) and every other
    block at [gy >= 1].  The level is a function of the outcomes
    [Math.random() > 0.5] of its 17 draws: two calls whose draws have the
    same outcomes return the same blocks, index and win height. *)
Theorem generate_base_and_draws (rnd rnd' : nat -> R) (cursor cursor' : nat) :
  let level := fst (generate rnd cursor) in
  take 25 (blocksData level) = baseBlocks
  /\ Forall (fun b => (1 <= BlockData.gy b)%Z) (drop 25 (blocksData level))
  /\ snd (generate rnd cursor) = (cursor + 17)%nat
  /\ ((forall k, (k < 17)%nat ->
         Num.gtb (rnd (cursor + k)%nat) 0.5 = Num.gtb (rnd' (cursor' + k)%nat) 0.5) ->
      fst (generate rnd' cursor') = level).
Proof.
  cbv zeta. rewrite !generate_from_base. cbn [fst snd blocksData].
  destruct (baseState_facts cursor) as (Hbb & Hby & Hbc).
  pose proof (fold_spiralStep_grows rnd 1 (seq 0 towerHeight) (baseState cursor)
                ltac:(rewrite Hby; lia)) as (extra & Hb & Hf & Hy).
  fold (spiral rnd (baseState cursor)) in Hb, Hy. rewrite Hbb in Hb. rewrite Hby in Hy.
  unfold finish.
  split; [|split; [|split]].
  - rewrite !addBlock_blocks, Hb, <- !app_assoc. apply (take_app_length' baseBlocks). reflexivity.
  - rewrite !addBlock_blocks, Hb, <- !app_assoc.
    rewrite (drop_app_length' baseBlocks) by reflexivity.
    cbn [app]. rewrite Forall_app. split; [exact Hf|].
    apply Forall_cons. split; [cbn [BlockData.gy newBlock]; lia|].
    apply Forall_cons. split; [cbn [BlockData.gy newBlock]; lia|].
    apply Forall_nil. exact I.
  - rewrite !addBlock_cursor.
    destruct (fold_spiralStep_draws rnd rnd (seq 0 towerHeight)
                (baseState cursor) (baseState cursor)) as (_ & C & _).
    + repeat split.
    + reflexivity.
    + unfold spiral. rewrite C, drawsOf_spiral, Hbc. reflexivity.
  - intros Hd.
    destruct (baseState_facts cursor') as (_ & _ & Hbc').
    destruct (fold_spiralStep_draws rnd' rnd (seq 0 towerHeight)
                (baseState cursor') (baseState cursor)) as ((Eb & Em & Ey) & _ & _).
    + apply baseState_same.
    + intros k Hk. rewrite drawsOf_spiral in Hk. rewrite Hbc, Hbc'. symmetry. apply Hd, Hk.
    + fold (spiral rnd' (baseState cursor')) in Eb, Em, Ey.
      fold (spiral rnd (baseState cursor)) in Eb, Em, Ey.
      unfold addBlock. cbn [g_blocksData g_blockMap g_currentY].
      rewrite Eb, Em, Ey. reflexivity.
Qed.

Lemma generate_base_and_draws_witness :
  fst (generate (fun _ => 0.7) 5) = fst (generate (fun _ => 0.9) 0).
Proof.
  apply (generate_base_and_draws (fun _ => 0.9) (fun _ => 0.7) 0 5).
  intros k Hk. rewrite !gtb_yes by lra. reflexivity.
Defined.

End BaseAndDraws.

(** *** Successive calls *)

Section Successive.
Import LevelGenerator.

(** A step that draws fills its own cell and then the free cell beside
    it that the draw selects. *)
Lemma placeStep_side_keys rnd st i bx bz :
  consistent (g_blocksData st) (g_blockMap st) ->
  (i mod 6 =? 0)%nat = true ->
  (bx, g_currentY st, bz) ∉ keys st ->
  ((bx + (if Num.gtb (rnd (g_cursor st)) 0.5 then 1 else -1))%Z, g_currentY st, bz)
    ∉ keys st ++ [ (bx, g_currentY st, bz) ] ->
  exists rest,
    keys (placeStep rnd st i bx bz)
    = keys st ++ [ (bx, g_currentY st, bz);
                   ((bx + (if Num.gtb (rnd (g_cursor st)) 0.5 then 1 else -1))%Z,
                    g_currentY st, bz) ] ++ rest.
Proof.
  intros Hc E6 Hmain Hside.
  assert (Hc1 : consistent (g_blocksData (addBlock bx (g_currentY st) bz Standard st))
                           (g_blockMap (addBlock bx (g_currentY st) bz Standard st)))
    by (apply addBlock_consistent; assumption).
  pose proof (proj2 (cons_absent _ _ Hc1 _) ltac:(fold (keys (addBlock bx (g_currentY st) bz Standard st)); rewrite addBlock_keys; exact Hside)) as Hfree.
  unfold placeStep. rewrite E6. cbv zeta.
  rewrite addBlock_cursor, addBlock_currentY.
  cbn [g_blockMap g_currentY g_blocksData g_cursor] in Hfree |- *.
  unfold keyOf. rewrite Hfree.
  replace (bool_decide (is_Some None)) with false
    by (symmetry; apply bool_decide_eq_false; intros [? [=]]).
  cbn [negb].
  set (nx := (bx + (if Num.gtb (rnd (g_cursor st)) 0.5 then 1 else -1))%Z).
  destruct ((10 <? i)%nat && (i mod 8 =? 0)%nat).
  - eexists. unfold keys. rewrite !addBlock_blocks. cbn [g_blocksData].
    rewrite !fmap_app, <- !app_assoc. reflexivity.
  - exists []. destruct (i mod 2 =? 0)%nat;
      unfold keys; rewrite ?addBlock_blocks; cbn [g_blocksData];
      rewrite !fmap_app, <- !app_assoc; reflexivity.
Qed.

Lemma baseState_consistent cursor :
  consistent (g_blocksData (baseState cursor)) (g_blockMap (baseState cursor)).
Proof.
  apply addCells_consistent; [apply consistent_empty|].
  apply (bool_decide_unpack _). vm_compute. exact I.
Qed.

Lemma baseState_keys cursor : key <$> g_blocksData (baseState cursor) = baseKeys.
Proof. destruct (baseState_facts cursor) as (-> & _). reflexivity. Qed.

Lemma tableStep_0 rnd st : tableStep rnd st 0 = placeStep rnd st 0 4 0.
Proof. reflexivity. Qed.

Lemma spiral_split rnd st :
  spiral rnd st = fold_left (spiralStep rnd) (seq 1 99) (spiralStep rnd st 0).
Proof. reflexivity. Qed.

Lemma spiralStep_grows rnd st j y :
  (y <= g_currentY st)%Z -> grows y st (spiralStep rnd st j).
Proof.
  intros Hy. unfold spiralStep. destruct (spiralCell j). apply placeStep_grows, Hy.
Qed.

Lemma keys_unfold st : keys st = key <$> g_blocksData st.
Proof. reflexivity. Qed.

(** Step 0 fills the cell (4,1,0) and then the cell beside it that the
    first draw selects. *)
Lemma step0_keys rnd cursor :
  exists rest,
    key <$> g_blocksData (spiralStep rnd (baseState cursor) 0)
    = baseKeys
      ++ [ (4, 1, 0)%Z;
           ((4 + (if Num.gtb (rnd cursor) 0.5 then 1 else -1))%Z, 1%Z, 0%Z) ] ++ rest.
Proof.
  destruct (baseState_facts cursor) as (_ & Hby & Hbc).
  pose proof (baseState_keys cursor) as Hkeys.
  rewrite spiralStep_table, tableStep_0 by lia.
  destruct (placeStep_side_keys rnd (baseState cursor) 0 4 0
              (baseState_consistent cursor) eq_refl) as (rest & HkA).
  - rewrite keys_unfold, Hby, Hkeys. apply (bool_decide_unpack _). vm_compute. exact I.
  - rewrite keys_unfold, Hby, Hkeys, Hbc. destruct (Num.gtb _ _);
      apply (bool_decide_unpack _); vm_compute; exact I.
  - exists rest. rewrite !keys_unfold, Hby, Hkeys, Hbc in HkA. exact HkA.
Qed.

(** The first side platform is block 26 of the level. *)
Lemma first_side_platform rnd cursor :
  (key <$> blocksData (fst (generate rnd cursor))) !! 26%nat
  = Some ((4 + (if Num.gtb (rnd cursor) 0.5 then 1 else -1))%Z, 1%Z, 0%Z).
Proof.
  rewrite generate_from_base. cbn [fst blocksData].
  destruct (baseState_facts cursor) as (_ & Hby & _).
  destruct (step0_keys rnd cursor) as (rest & HkA).
  rewrite spiral_split.
  destruct (fold_spiralStep_grows rnd 0 (seq 1 99) (spiralStep rnd (baseState cursor) 0))
    as (extra & Hb & _ & _).
  { pose proof (spiralStep_grows rnd (baseState cursor) 0 0 ltac:(rewrite Hby; lia))
      as (_ & _ & _ & Hle).
    rewrite Hby in Hle. lia. }
  unfold finish. rewrite !addBlock_blocks, Hb, <- !app_assoc, fmap_app, HkA.
  rewrite lookup_app_l by (rewrite !length_app; cbn; lia).
  rewrite lookup_app_r by (cbn; lia).
  reflexivity.
Qed.

(** The ambient generator of the counterexample: the first draw is above
    one half, all later draws are below. *)
Definition firstHigh (k : nat) : R := if (k =? 0)%nat then 0.9 else 0.1.

(** C7 as stated fails on the code.  [generate] draws from the ambient
    generator, so the second of two successive calls continues where the
    first one stopped: with the generator [firstHigh] the first call
    (draws 0 to 16) puts block 26 in cell (5,1,0) and the second call
    (draws 17 to 33) puts it in cell (3,1,0); the two block sets differ. *)
Lemma successive_calls_differ :
  snd (generate firstHigh 0) = 17%nat
  /\ (key <$> blocksData (fst (generate firstHigh 0))) !! 26%nat = Some (5, 1, 0)%Z
  /\ (key <$> blocksData (fst (generate firstHigh (snd (generate firstHigh 0))))) !! 26%nat
     = Some (3, 1, 0)%Z
  /\ blocksData (fst (generate firstHigh 0))
     <> blocksData (fst (generate firstHigh (snd (generate firstHigh 0)))).
Proof.
  assert (Hc : snd (generate firstHigh 0) = 17%nat).
  { rewrite generate_from_base. cbn [snd]. unfold finish. rewrite !addBlock_cursor.
    destruct (fold_spiralStep_draws firstHigh firstHigh (seq 0 towerHeight)
                (baseState 0) (baseState 0)) as (_ & C & _);
      [repeat split | reflexivity |].
    unfold spiral. rewrite C, drawsOf_spiral.
    destruct (baseState_facts 0) as (_ & _ & ->). reflexivity. }
  assert (H1 : (key <$> blocksData (fst (generate firstHigh 0))) !! 26%nat
               = Some (5, 1, 0)%Z).
  { rewrite first_side_platform. unfold firstHigh. cbn [Nat.eqb].
    rewrite gtb_yes by lra. reflexivity. }
  assert (H2 : (key <$> blocksData (fst (generate firstHigh 17))) !! 26%nat
               = Some (3, 1, 0)%Z).
  { rewrite first_side_platform. unfold firstHigh. cbn [Nat.eqb].
    rewrite gtb_no by lra. reflexivity. }
  rewrite Hc. repeat split; try assumption.
  intros E. rewrite E, H2 in H1. discriminate.
Qed.

End Successive.

(** * Further properties of the code *)

(** ** The merged box of a layer *)

(** The box of one block. *)
Definition boxOf (b : BlockData) : Box.t := Box.mk (BlockData.min b) (BlockData.max b).

(** The cells the flood fill from [start] can reach: the cell of [start],
    and the four side cells of every reached cell that holds a Standard
    block of the layer of [start]. *)
Inductive connected (start : BlockData) (blockMap : BlockMap) : Key -> Prop :=
| connected_start : connected start blockMap (key start)
| connected_step k b k' :
    connected start blockMap k ->
    blockMap !! k = Some b -> PhysicsEngine.onLayer start b = true ->
    k' ∈ PhysicsEngine.fourNeighbours k ->
    connected start blockMap k'.

Section FloodFill.
Variable start : BlockData.
Variable blockMap : BlockMap.

(** Every visited block of the layer lies in the running box. *)
Definition absorbed (visited : gset Key) (acc : Box.t) : Prop :=
  forall k b, k ∈ visited -> blockMap !! k = Some b ->
    PhysicsEngine.onLayer start b = true -> within (boxOf b) acc.

(** The side cells of every visited block of the layer are visited or
    queued. *)
Definition closed (visited : gset Key) (queue : list Key) : Prop :=
  forall k b k', k ∈ visited -> blockMap !! k = Some b ->
    PhysicsEngine.onLayer start b = true ->
    k' ∈ PhysicsEngine.fourNeighbours k -> k' ∈ visited \/ k' ∈ queue.

Lemma within_widen_block acc b : within (boxOf b) (PhysicsEngine.widen acc b).
Proof.
  unfold within, PhysicsEngine.widen, boxOf, Math.min, Math.max. simpl.
  repeat split; auto using Rmin_r, Rmax_r.
Qed.

Lemma widen_least acc b outer :
  within acc outer -> within (boxOf b) outer -> within (PhysicsEngine.widen acc b) outer.
Proof.
  unfold within, PhysicsEngine.widen, boxOf, Math.min, Math.max. simpl.
  intros (?&?&?&?&?&?) (?&?&?&?&?&?).
  repeat split; try (apply Rmin_glb; assumption); apply Rmax_lub; assumption.
Qed.

Lemma floodFill_closed visited queue acc :
  absorbed visited acc -> closed visited queue ->
  exists visited' : gset Key,
    visited ⊆ visited'
    /\ (forall k, k ∈ queue -> k ∈ visited')
    /\ absorbed visited' (PhysicsEngine.floodFill start blockMap visited queue acc)
    /\ closed visited' [].
Proof.
  funelim (PhysicsEngine.floodFill start blockMap visited queue acc);
    intros Habs Hcl.
  - exists visited. split; [set_solver|]. split; [intros k Hk; inversion Hk|].
    split; assumption.
  - destruct H as (v' & Hsub & Hq & Ha & Hc).
    + exact Habs.
    + intros k0 b0 k' Hk0 Hb0 Hl0 Hk'.
      destruct (Hcl k0 b0 k' Hk0 Hb0 Hl0 Hk') as [Hv|Hv]; [left; exact Hv|].
      apply elem_of_cons in Hv as [->|Hv]; [left; assumption | right; exact Hv].
    + exists v'. split; [exact Hsub|]. split; [|split; assumption].
      intros k0 Hk0. apply elem_of_cons in Hk0 as [->|Hk0]; [set_solver | auto].
  - destruct H as (v' & Hsub & Hq & Ha & Hc).
    + intros k0 b0 Hk0 Hb0 Hl0.
      apply elem_of_union in Hk0 as [Hk0|Hk0]; [|eapply Habs; eassumption].
      apply elem_of_singleton in Hk0. subst k0. congruence.
    + intros k0 b0 k' Hk0 Hb0 Hl0 Hk'.
      apply elem_of_union in Hk0 as [Hk0|Hk0].
      * apply elem_of_singleton in Hk0. subst k0. congruence.
      * destruct (Hcl k0 b0 k' Hk0 Hb0 Hl0 Hk') as [Hv|Hv]; [left; set_solver|].
        apply elem_of_cons in Hv as [->|Hv]; [left; set_solver | right; exact Hv].
    + exists v'. split; [set_solver|]. split; [|split; assumption].
      intros k0 Hk0. apply elem_of_cons in Hk0 as [->|Hk0]; [set_solver | auto].
  - destruct H as (v' & Hsub & Hq & Ha & Hc).
    + intros k0 b0 Hk0 Hb0 Hl0.
      apply elem_of_union in Hk0 as [Hk0|Hk0].
      * apply elem_of_singleton in Hk0. subst k0.
        assert (b0 = b) by congruence. subst b0. apply within_widen_block.
      * eapply within_trans; [eapply Habs; eassumption | apply within_widen].
    + intros k0 b0 k' Hk0 Hb0 Hl0 Hk'.
      apply elem_of_union in Hk0 as [Hk0|Hk0].
      * apply elem_of_singleton in Hk0. subst k0. right. apply elem_of_app. right. exact Hk'.
      * destruct (Hcl k0 b0 k' Hk0 Hb0 Hl0 Hk') as [Hv|Hv]; [left; set_solver|].
        apply elem_of_cons in Hv as [->|Hv]; [left; set_solver|].
        right. apply elem_of_app. left. exact Hv.
    + exists v'. split; [set_solver|]. split; [|split; assumption].
      intros k0 Hk0. apply elem_of_cons in Hk0 as [->|Hk0]; [set_solver|].
      apply Hq. apply elem_of_app. left. exact Hk0.
  - destruct H as (v' & Hsub & Hq & Ha & Hc).
    + intros k0 b0 Hk0 Hb0 Hl0.
      apply elem_of_union in Hk0 as [Hk0|Hk0]; [|eapply Habs; eassumption].
      apply elem_of_singleton in Hk0. subst k0. congruence.
    + intros k0 b0 k' Hk0 Hb0 Hl0 Hk'.
      apply elem_of_union in Hk0 as [Hk0|Hk0].
      * apply elem_of_singleton in Hk0. subst k0. congruence.
      * destruct (Hcl k0 b0 k' Hk0 Hb0 Hl0 Hk') as [Hv|Hv]; [left; set_solver|].
        apply elem_of_cons in Hv as [->|Hv]; [left; set_solver | right; exact Hv].
    + exists v'. split; [set_solver|]. split; [|split; assumption].
      intros k0 Hk0. apply elem_of_cons in Hk0 as [->|Hk0]; [set_solver | auto].
Qed.

End FloodFill.

Section FloodFillHull.
Variable start : BlockData.
Variable blockMap : BlockMap.

(** The running box stays inside every box that holds the blocks the
    fill can reach. *)
Lemma floodFill_least visited queue acc (outer : Box.t) :
  (forall k b, connected start blockMap k -> blockMap !! k = Some b ->
     PhysicsEngine.onLayer start b = true -> within (boxOf b) outer) ->
  (forall k, k ∈ queue -> connected start blockMap k) ->
  within acc outer ->
  within (PhysicsEngine.floodFill start blockMap visited queue acc) outer.
Proof.
  intros Hout.
  funelim (PhysicsEngine.floodFill start blockMap visited queue acc);
    intros Hq Hacc.
  - exact Hacc.
  - apply (H outer Hout); [|exact Hacc]. intros k0 Hk0. apply Hq. right. exact Hk0.
  - apply (H outer Hout); [|exact Hacc]. intros k0 Hk0. apply Hq. right. exact Hk0.
  - apply (H outer Hout).
    + intros k0 Hk0. apply elem_of_app in Hk0 as [Hk0|Hk0]; [apply Hq; right; exact Hk0|].
      eapply connected_step; [apply Hq; left | exact Hk | eassumption | exact Hk0].
    + apply widen_least; [exact Hacc|].
      eapply Hout; [apply Hq; left | exact Hk | eassumption].
  - apply (H outer Hout); [|exact Hacc]. intros k0 Hk0. apply Hq. right. exact Hk0.
Qed.

End FloodFillHull.

Lemma mergeAll_covers (start : BlockData) (blockMap : BlockMap) k b :
  connected start blockMap k -> blockMap !! k = Some b ->
  PhysicsEngine.onLayer start b = true ->
  within (boxOf b) (PhysicsEngine.mergeAllConnectedOnLayer start blockMap).
Proof.
  unfold PhysicsEngine.mergeAllConnectedOnLayer.
  destruct (floodFill_closed start blockMap ∅
              [ (BlockData.gx start, BlockData.gy start, BlockData.gz start) ]
              (Box.mk (BlockData.min start) (BlockData.max start)))
    as (v' & _ & Hq & Ha & Hc).
  - intros k0 b0 Hk0. set_solver.
  - intros k0 b0 k' Hk0. set_solver.
  - assert (Hall : forall k0, connected start blockMap k0 -> k0 ∈ v').
    { induction 1 as [|k0 b0 k' Hk0 IH Hb0 Hl0 Hk'].
      - apply Hq. left.
      - destruct (Hc k0 b0 k' IH Hb0 Hl0 Hk') as [Hv|Hv]; [exact Hv | inversion Hv]. }
    intros Hk Hb Hl. exact (Ha k b (Hall k Hk) Hb Hl).
Qed.

Lemma mergeAll_least (start : BlockData) (blockMap : BlockMap) (outer : Box.t) :
  within (boxOf start) outer ->
  (forall k b, connected start blockMap k -> blockMap !! k = Some b ->
     PhysicsEngine.onLayer start b = true -> within (boxOf b) outer) ->
  within (PhysicsEngine.mergeAllConnectedOnLayer start blockMap) outer.
Proof.
  intros Hs Hout. unfold PhysicsEngine.mergeAllConnectedOnLayer. apply floodFill_least.
  - exact Hout.
  - intros k Hk. apply list_elem_of_singleton in Hk. subst k. apply connected_start.
  - exact Hs.
Qed.

(** X1.  The merged box is the hull of the component.  The box that
    [mergeAllConnectedOnLayer] returns for [start] contains the box of
    [start] and the box of every Standard block of the layer of [start]
    that a chain of side-by-side such blocks links to the cell of
    [start]; and it is the least such box: it lies inside every box that
    contains them. *)
Theorem merged_box_is_component_hull (start : BlockData) (blockMap : BlockMap) :
  let merged := PhysicsEngine.mergeAllConnectedOnLayer start blockMap in
  within (boxOf start) merged
  /\ (forall k b, connected start blockMap k -> blockMap !! k = Some b ->
        PhysicsEngine.onLayer start b = true -> within (boxOf b) merged)
  /\ (forall outer,
        within (boxOf start) outer ->
        (forall k b, connected start blockMap k -> blockMap !! k = Some b ->
           PhysicsEngine.onLayer start b = true -> within (boxOf b) outer) ->
        within merged outer).
Proof.
  cbv zeta. split; [apply floodFill_within|]. split.
  - apply mergeAll_covers.
  - apply mergeAll_least.
Qed.

(** Two cubes side by side: the second is linked to the first. *)
Lemma merged_box_is_component_hull_witness :
  within (boxOf Scene.cube100)
         (PhysicsEngine.mergeAllConnectedOnLayer Scene.cube000 Scene.pairMap).
Proof.
  apply (proj1 (proj2 (merged_box_is_component_hull Scene.cube000 Scene.pairMap))
           (1, 0, 0)%Z Scene.cube100).
  - apply (connected_step _ _ (0, 0, 0)%Z Scene.cube000).
    + apply connected_start.
    + reflexivity.
    + reflexivity.
    + left.
  - reflexivity.
  - reflexivity.
Defined.

(** ** The closest point of a box *)

(** A point of the box [bx]. *)
Definition inBox (bx : Box.t) (q : Vector3) : Prop :=
  THREE.x (Box.min bx) <= THREE.x q <= THREE.x (Box.max bx) /\
  THREE.y (Box.min bx) <= THREE.y q <= THREE.y (Box.max bx) /\
  THREE.z (Box.min bx) <= THREE.z q <= THREE.z (Box.max bx).

Definition offset (a b : Vector3) : Vector3 :=
  THREE.mkVector3 (THREE.x a - THREE.x b) (THREE.y a - THREE.y b) (THREE.z a - THREE.z b).

Lemma clamp_between v lo hi : lo <= hi -> lo <= PhysicsEngine.clamp v lo hi <= hi.
Proof. intros H. unfold PhysicsEngine.clamp. num_cases. Qed.

Lemma clamp_nearest v lo hi q :
  lo <= q <= hi ->
  (v - PhysicsEngine.clamp v lo hi) * (v - PhysicsEngine.clamp v lo hi)
  <= (v - q) * (v - q).
Proof.
  intros H. pose proof (Rle_0_sqr (v - q)) as Hsq. unfold Rsqr in Hsq.
  unfold PhysicsEngine.clamp, Math.max, Math.min.
  apply Rmax_case_strong; apply Rmin_case_strong; intros; nra.
Qed.

(** X2.  The point the resolver measures the distance to is the point of
    the tested box nearest to the sphere centre: it lies in the box, and
    no point of the box is nearer. *)
Theorem closest_point_is_nearest (bx : Box.t) (p q : Vector3) :
  inBox bx q ->
  inBox bx (PhysicsEngine.closest bx p)
  /\ Resolver.distSq (PhysicsEngine.dist bx p) <= Resolver.distSq (offset p q).
Proof.
  intros (Hx & Hy & Hz). split.
  - unfold inBox, PhysicsEngine.closest. cbn [THREE.x THREE.y THREE.z].
    repeat split; apply clamp_between; lra.
  - unfold Resolver.distSq, PhysicsEngine.dist, PhysicsEngine.closest, offset.
    cbn [THREE.x THREE.y THREE.z].
    pose proof (clamp_nearest (THREE.x p) _ _ _ Hx).
    pose proof (clamp_nearest (THREE.y p) _ _ _ Hy).
    pose proof (clamp_nearest (THREE.z p) _ _ _ Hz).
    lra.
Qed.

Lemma closest_point_is_nearest_witness :
  inBox (boxOf Scene.cube000) (PhysicsEngine.closest (boxOf Scene.cube000) (THREE.mkVector3 30 0 0))
  /\ Resolver.distSq (PhysicsEngine.dist (boxOf Scene.cube000) (THREE.mkVector3 30 0 0))
     <= Resolver.distSq (offset (THREE.mkVector3 30 0 0) (THREE.mkVector3 0 0 0)).
Proof.
  apply (closest_point_is_nearest (boxOf Scene.cube000) (THREE.mkVector3 30 0 0)
           (THREE.mkVector3 0 0 0)).
  unfold inBox. simpl. unfold CONFIG.blockSize. lra.
Defined.

(** ** The push-out *)








(** ** The neighbour rule *)

Lemma sign_pos v : 0 < v -> Math.sign v = 1%Z.
Proof. intros H. unfold Math.sign. rewrite ltb_yes by exact H. reflexivity. Qed.

Lemma sign_neg v : v < 0 -> Math.sign v = (-1)%Z.
Proof.
  intros H. unfold Math.sign. rewrite ltb_no by lra. rewrite ltb_yes by exact H.
  reflexivity.
Qed.

Lemma not_is_Some_None {A : Type} : bool_decide (is_Some (@None A)) = false.
Proof. apply bool_decide_eq_false. intros [? [=]]. Qed.

(** X4.  The neighbour rule looks at a side cell, never at the block's own
    cell: for a block with no block in any of its four side cells the
    rule passes no contact over, whatever the unit normal.  (A normal
    component of 0 would make [Math.sign] return 0 and the lookup hit the
    block itself; a unit normal with [|y| < 0.5] never selects one.) *)
Theorem isolated_block_has_no_internal_edge
    (blockMap : BlockMap) (b : BlockData) (normal : Vector3) :
  Resolver.distSq normal = 1 ->
  (forall k, k ∈ PhysicsEngine.fourNeighbours (key b) -> blockMap !! k = None) ->
  Resolver.hasNeighborInNormalDir blockMap b normal = false.
Proof.
  intros Hn Hfree. unfold Resolver.hasNeighborInNormalDir, Resolver.distSq in *.
  cbv zeta. unfold Math.abs.
  destruct (Num.ltb (Rabs (THREE.y normal)) 0.5) eqn:Hy; [|reflexivity].
  apply Num.ltb_true in Hy.
  assert (Hyy : THREE.y normal * THREE.y normal < 0.25).
  { unfold Rabs in Hy. destruct (Rcase_abs (THREE.y normal)); nra. }
  unfold key, PhysicsEngine.fourNeighbours in Hfree. unfold keyOf.
  destruct (Num.gtb (Rabs (THREE.x normal)) (Rabs (THREE.z normal))) eqn:Hxz.
  - apply Num.gtb_true in Hxz.
    assert (Hx : THREE.x normal <> 0).
    { intros E. rewrite E, Rabs_R0 in Hxz. pose proof (Rabs_pos (THREE.z normal)). lra. }
    destruct (Rtotal_order (THREE.x normal) 0) as [H|[H|H]]; [|contradiction|].
    + rewrite (sign_neg _ H), Hfree; [apply not_is_Some_None|]. right. left.
    + rewrite (sign_pos _ H), Hfree; [apply not_is_Some_None|]. left.
  - apply Num.gtb_false in Hxz.
    assert (Hz : THREE.z normal <> 0).
    { intros E. rewrite E, Rabs_R0 in Hxz.
      assert (THREE.x normal = 0).
      { pose proof (Rabs_pos (THREE.x normal)).
        destruct (Req_dec (THREE.x normal) 0) as [E0|E0]; [exact E0|].
        apply Rabs_pos_lt in E0. lra. }
      rewrite E, H in Hn. lra. }
    destruct (Rtotal_order (THREE.z normal) 0) as [H|[H|H]]; [|contradiction|].
    + rewrite (sign_neg _ H), Hfree; [apply not_is_Some_None|]. do 3 right. left.
    + rewrite (sign_pos _ H), Hfree; [apply not_is_Some_None|]. do 2 right. left.
Qed.

Lemma isolated_block_has_no_internal_edge_witness :
  Resolver.hasNeighborInNormalDir Scene.loneMap Scene.cube000 (THREE.mkVector3 1 0 0) = false.
Proof.
  apply (isolated_block_has_no_internal_edge Scene.loneMap Scene.cube000
           (THREE.mkVector3 1 0 0)).
  - unfold Resolver.distSq. simpl. lra.
  - intros k Hk. cbn in Hk.
    repeat (apply elem_of_cons in Hk as [->|Hk]; [reflexivity|]).
    inversion Hk.
Defined.

(** ** Merging with one neighbour *)

Lemma firstMergeable_Some block (l : list BlockData) bx :
  PhysicsEngine.firstMergeable block l = Some bx ->
  exists nb, nb ∈ l
    /\ BlockData.type nb = Standard
    /\ BlockData.gy nb = BlockData.gy block
    /\ ((BlockData.gz nb = BlockData.gz block
         /\ Z.abs (BlockData.gx nb - BlockData.gx block) = 1%Z)
        \/ (BlockData.gx nb = BlockData.gx block
            /\ Z.abs (BlockData.gz nb - BlockData.gz block) = 1%Z))
    /\ bx = PhysicsEngine.widen (boxOf block) nb.
Proof.
  induction l as [|nb l IH]; cbn [PhysicsEngine.firstMergeable]; [discriminate|].
  destruct (bool_decide (BlockData.type nb = Standard)) eqn:Ht; cbn [negb].
  2:{ intros H. destruct (IH H) as (nb' & Hin & Hrest). exists nb'. split; [right; exact Hin | exact Hrest]. }
  apply bool_decide_eq_true in Ht.
  destruct (BlockData.gy nb =? BlockData.gy block)%Z eqn:Hy; cbn [negb].
  2:{ intros H. destruct (IH H) as (nb' & Hin & Hrest). exists nb'. split; [right; exact Hin | exact Hrest]. }
  apply Z.eqb_eq in Hy.
  destruct ((BlockData.gz nb =? BlockData.gz block)%Z
            && (Z.abs (BlockData.gx nb - BlockData.gx block) =? 1)%Z) eqn:Hx; cbn [negb andb].
  - intros [= <-]. exists nb. split; [left|]. split; [exact Ht|]. split; [exact Hy|].
    split; [|reflexivity]. left.
    apply andb_true_iff in Hx as [H1 H2]. apply Z.eqb_eq in H1, H2. auto.
  - destruct ((BlockData.gx nb =? BlockData.gx block)%Z
              && (Z.abs (BlockData.gz nb - BlockData.gz block) =? 1)%Z) eqn:Hz; cbn [negb].
    + intros [= <-]. exists nb. split; [left|]. split; [exact Ht|]. split; [exact Hy|].
      split; [|reflexivity]. right.
      apply andb_true_iff in Hz as [H1 H2]. apply Z.eqb_eq in H1, H2. auto.
    + intros H. destruct (IH H) as (nb' & Hin & Hrest). exists nb'.
      split; [right; exact Hin | exact Hrest].
Qed.

Lemma filterBoolean_elem (l : list (option BlockData)) nb :
  nb ∈ PhysicsEngine.filterBoolean l <-> Some nb ∈ l.
Proof.
  unfold PhysicsEngine.filterBoolean. rewrite list_elem_of_omap. split.
  - intros (o & Ho & E). subst o. exact Ho.
  - intros H. exists (Some nb). auto.
Qed.

(** X5.  [tryMergeWithNeighbor] joins a Standard block with one Standard
    block of the same layer that the index holds in one of its four side
    cells, and returns the box spanning the two; it returns [null] for a
    block that is not Standard and for a block whose side cells are
    empty.  The resolver calls it for blocks that are not Standard only,
    so there it never merges: such a block is tested with its own box. *)
Theorem tryMerge_joins_one_side_neighbour (block : BlockData) (blockMap : BlockMap) :
  (BlockData.type block <> Standard ->
     PhysicsEngine.tryMergeWithNeighbor block blockMap = None
     /\ PhysicsEngine.bounds block blockMap = boxOf block)
  /\ ((forall k, k ∈ PhysicsEngine.fourNeighbours (key block) -> blockMap !! k = None) ->
      PhysicsEngine.tryMergeWithNeighbor block blockMap = None)
  /\ (forall bx,
        PhysicsEngine.tryMergeWithNeighbor block blockMap = Some bx ->
        BlockData.type block = Standard
        /\ exists k nb,
             k ∈ PhysicsEngine.fourNeighbours (key block)
             /\ blockMap !! k = Some nb
             /\ BlockData.type nb = Standard
             /\ BlockData.gy nb = BlockData.gy block
             /\ ((BlockData.gz nb = BlockData.gz block
                  /\ Z.abs (BlockData.gx nb - BlockData.gx block) = 1%Z)
                 \/ (BlockData.gx nb = BlockData.gx block
                     /\ Z.abs (BlockData.gz nb - BlockData.gz block) = 1%Z))
             /\ bx = PhysicsEngine.widen (boxOf block) nb).
Proof.
  split; [|split].
  - intros Ht. unfold PhysicsEngine.bounds, PhysicsEngine.tryMergeWithNeighbor.
    destruct (bool_decide (BlockData.type block = Standard)) eqn:E.
    + apply bool_decide_eq_true in E. contradiction.
    + cbn [negb]. split; reflexivity.
  - intros Hfree. unfold PhysicsEngine.tryMergeWithNeighbor, PhysicsEngine.getNeighbor, keyOf.
    destruct (negb _); [reflexivity|].
    unfold key, PhysicsEngine.fourNeighbours in Hfree.
    rewrite !Hfree by (repeat first [left | right; left | right]).
    reflexivity.
  - intros bx. unfold PhysicsEngine.tryMergeWithNeighbor.
    destruct (bool_decide (BlockData.type block = Standard)) eqn:E; cbn [negb]; [|discriminate].
    apply bool_decide_eq_true in E. intros H. split; [exact E|].
    apply firstMergeable_Some in H as (nb & Hin & Hrest).
    apply filterBoolean_elem in Hin.
    unfold PhysicsEngine.getNeighbor, keyOf in Hin.
    assert (Hk : exists k, k ∈ PhysicsEngine.fourNeighbours (key block)
                           /\ blockMap !! k = Some nb).
    { unfold key, PhysicsEngine.fourNeighbours.
      repeat (apply elem_of_cons in Hin as [Hin|Hin];
              [eexists; split; [|symmetry; exact Hin];
               repeat first [left | right; left | right] |]).
      inversion Hin. }
    destruct Hk as (k & Hk & Hb). exists k, nb. split; [exact Hk|]. split; [exact Hb | exact Hrest].
Qed.

Lemma tryMerge_joins_one_side_neighbour_witness :
  PhysicsEngine.tryMergeWithNeighbor Scene.spike010 Scene.spikeMap = None
  /\ PhysicsEngine.bounds Scene.spike010 Scene.spikeMap = boxOf Scene.spike010.
Proof.
  apply (proj1 (tryMerge_joins_one_side_neighbour Scene.spike010 Scene.spikeMap)).
  discriminate.
Defined.

(** ** Input handling *)

Section Inputs.
Import GameEngine.

Lemma withInput_same e : withInput (input e) e = e.
Proof. destruct e. reflexivity. Qed.

(** The actions [handleInput] knows. *)
Definition knownActions : list string :=
  [ "up"; "down"; "left"; "right"; "up-left"; "up-right"; "down-left"; "down-right";
    "jump"; "rotateLeft"; "rotateRight" ]%string.

(** X6.  Touch actions.  A diagonal action does what its two straight
    actions do one after the other, in either order, and an action that
    is none of the eleven known ones changes nothing. *)
Theorem handleInput_diagonals_and_unknown (isPressed : bool) (e : t) :
  handleInput "up-left" isPressed e
    = handleInput "left" isPressed (handleInput "up" isPressed e)
  /\ handleInput "up-left" isPressed e
    = handleInput "up" isPressed (handleInput "left" isPressed e)
  /\ handleInput "up-right" isPressed e
    = handleInput "right" isPressed (handleInput "up" isPressed e)
  /\ handleInput "down-left" isPressed e
    = handleInput "left" isPressed (handleInput "down" isPressed e)
  /\ handleInput "down-right" isPressed e
    = handleInput "right" isPressed (handleInput "down" isPressed e)
  /\ (forall action, ~ In action knownActions -> handleInput action isPressed e = e).
Proof.
  repeat split; try reflexivity.
  intros action Hn. unfold handleInput.
  repeat match goal with
  | |- context [String.eqb action ?s] =>
      destruct (String.eqb_spec action s) as [->|_];
      [exfalso; apply Hn; unfold knownActions; simpl; tauto|]
  end.
  reflexivity.
Qed.

Lemma handleInput_diagonals_and_unknown_witness :
  handleInput "fire" true (engineWith initialPlayer) = engineWith initialPlayer.
Proof.
  apply (proj2 (proj2 (proj2 (proj2 (proj2
           (handleInput_diagonals_and_unknown true (engineWith initialPlayer))))))).
  unfold knownActions. simpl. intros H.
  repeat (destruct H as [H|H]; [discriminate H|]). exact H.
Defined.

(** The key names of the browser and the touch action each one stands
    for. *)
Definition keyBindings : list (string * string) :=
  [ ("w", "up"); ("W", "up"); ("a", "left"); ("A", "left");
    ("s", "down"); ("S", "down"); ("d", "right"); ("D", "right");
    (" ", "jump"); ("ArrowLeft", "rotateLeft"); ("ArrowRight", "rotateRight") ]%string.

Lemma lowerChar_idempotent c : lowerChar (lowerChar c) = lowerChar c.
Proof. destruct c as [[] [] [] [] [] [] [] []]; reflexivity. Qed.

Lemma toLowerCase_idempotent s : toLowerCase (toLowerCase s) = toLowerCase s.
Proof.
  induction s as [|c s IH]; [reflexivity|]. cbn [toLowerCase].
  rewrite lowerChar_idempotent, IH. reflexivity.
Qed.

(** X7.  Keyboard and touch controls agree.  Pressing a bound key does
    what pressing its touch action does, and releasing the key what
    releasing the action does (nothing, for the two arrow keys); the key
    name is compared without regard to case. *)
Theorem keyboard_matches_touch_controls :
  Forall (fun b : string * string =>
            forall e, onKeyDown (fst b) e = handleInput (snd b) true e
                      /\ onKeyUp (fst b) e = handleInput (snd b) false e)
         keyBindings
  /\ (forall key e, onKeyDown (toLowerCase key) e = onKeyDown key e
                    /\ onKeyUp (toLowerCase key) e = onKeyUp key e).
Proof.
  split.
  - unfold keyBindings. repeat (apply Forall_cons; split; [intros e; split; reflexivity|]).
    apply Forall_nil. exact I.
  - intros key e. unfold onKeyDown, onKeyUp. rewrite toLowerCase_idempotent.
    split; reflexivity.
Qed.

Lemma withTarget_same e : withTarget (targetCameraAngle e) e = e.
Proof. destruct e. reflexivity. Qed.


(** X9.  A jump fires once.  [jump] is idempotent: after it the request is
    consumed or the player may not jump.  When it fires, the vertical
    velocity becomes [jumpForce], position and horizontal velocity are
    kept, and the ground flag and the grace timer are cleared, so that a
    held request cannot fire again in the air. *)
Theorem jump_fires_once (e : t) :
  jump (jump e) = jump e
  /\ key_space (input (jump e)) && canJump (player (jump e)) = false
  /\ (key_space (input e) && canJump (player e) = true ->
      player (jump e)
      = mkPlayer (pos (player e))
          (THREE.mkVector3 (THREE.x (vel (player e))) CONFIG.jumpForce
                           (THREE.z (vel (player e))))
          false 0
      /\ key_space (input (jump e)) = false)
  /\ (key_space (input e) && canJump (player e) = false -> jump e = e).
Proof.
  unfold jump.
  destruct (key_space (input e) && canJump (player e)) eqn:E.
  - cbn. repeat split; try reflexivity; discriminate.
  - rewrite E. repeat split; try reflexivity; try assumption; discriminate.
Qed.

Lemma jump_fires_once_witness :
  player (jump (withInput (mkInput false false false false true)
                  (engineWith (Scene.at_ 0 40 0 1 0 2 true 5))))
  = mkPlayer (THREE.mkVector3 0 40 0) (THREE.mkVector3 1 CONFIG.jumpForce 2) false 0.
Proof.
  apply (proj1 (proj2 (proj2 (jump_fires_once
           (withInput (mkInput false false false false true)
              (engineWith (Scene.at_ 0 40 0 1 0 2 true 5))))))).
  reflexivity.
Defined.

End Inputs.

(** ** What holds in every state of a running engine *)

Section Runs.
Import GameEngine.

(** A property that the tick and the timing update keep is kept by the
    loop that consumes the accumulator. *)
Lemma consume_keeps (P : t -> Prop) :
  (forall e, P e -> P (fixedUpdate e)) ->
  (forall last acc e, P e -> P (withTiming last acc e)) ->
  forall e, P e -> P (consume e).
Proof.
  intros Hf Ht e. funelim (consume e); intros HP.
  - apply H; auto.
  - exact HP.
Qed.

(** A property of the state that only [animate] can change, and that a
    property [Q] of the state before the frame's ticks does not matter
    for. *)
Lemma run_keeps (P : t -> Prop) :
  (forall time e, P e -> P (animate time e)) ->
  (forall action isPressed e, P e -> P (handleInput action isPressed e)) ->
  (forall key e, P e -> P (onKeyDown key e)) ->
  (forall key e, P e -> P (onKeyUp key e)) ->
  forall calls e, P e -> P (run calls e).
Proof.
  intros Ha Hh Hd Hu calls. unfold run.
  induction calls as [|c calls IH]; intros e HP; [exact HP|].
  cbn [fold_left]. apply IH. destruct c; cbn [call]; auto.
Qed.

Lemma player_handleInput action isPressed e :
  player (handleInput action isPressed e) = player e.
Proof.
  unfold handleInput.
  repeat match goal with
  | |- context [String.eqb ?a ?s] => destruct (String.eqb a s)
  | |- context [if isPressed then _ else _] => destruct isPressed
  end; reflexivity.
Qed.

Lemma player_onKeyDown key e : player (onKeyDown key e) = player e.
Proof.
  unfold onKeyDown. cbv zeta.
  repeat match goal with
  | |- context [String.eqb ?a ?s] => destruct (String.eqb a s)
  end; reflexivity.
Qed.

Lemma player_onKeyUp key e : player (onKeyUp key e) = player e.
Proof.
  unfold onKeyUp. cbv zeta.
  repeat match goal with
  | |- context [String.eqb ?a ?s] => destruct (String.eqb a s)
  end; reflexivity.
Qed.

Lemma player_announceRespawn_iter n e :
  player (Nat.iter n announceRespawn e) = player e.
Proof. induction n; simpl; auto. Qed.

(** *** The grace timer and the fall limit *)

Definition timerOk (pl : PlayerState) : Prop :=
  (0 <= coyoteTime pl <= PHYSICS.coyoteFrames)%Z.

Lemma full_forBlocks_reset_flags blockMap blocks : forall pl g pl',
  PhysicsEngine.forBlocks blockMap blocks pl g = ResetAndReturn pl' ->
  grounded pl' = grounded pl /\ coyoteTime pl' = coyoteTime pl.
Proof.
  induction blocks as [|b rest IH]; simpl; intros pl g pl'; [discriminate|].
  destruct (PhysicsEngine.body blockMap pl g b) as [q gq|q] eqn:E.
  - intros H. apply IH in H. apply full_body_flags in E. intuition congruence.
  - intros [= <-]. unfold PhysicsEngine.body in E.
    destruct (Resolver.outOfRange b (pos pl)); [discriminate|]. cbv zeta in E.
    destruct (Resolver.collides _); [|discriminate].
    destruct (BlockData.type b).
    + destruct (negb _); [destruct (Resolver.pushOut _ _ _ _)|]; discriminate.
    + injection E as <-. auto.
Qed.

Lemma timerOk_stateUpdate pl g : timerOk pl -> timerOk (Resolver.stateUpdate pl g).
Proof.
  unfold timerOk, Resolver.stateUpdate, PHYSICS.coyoteFrames. intros H.
  destruct g; [cbn; lia|].
  destruct (0 <? coyoteTime pl)%Z eqn:E; cbn; [apply Z.ltb_lt in E|]; lia.
Qed.

Lemma timerOk_resolve e : timerOk (player e) -> timerOk (player (resolve e)).
Proof.
  intros H. unfold resolve. rewrite player_announceRespawn_iter. cbn [player withPlayer].
  unfold PhysicsEngine.resolveCollisions.
  destruct (PhysicsEngine.forBlocks _ _ _ _) as [q gq|q] eqn:E; cbn [playerOut].
  - apply timerOk_stateUpdate. apply full_forBlocks_flags in E as [_ Hc].
    unfold timerOk. rewrite Hc. exact H.
  - apply full_forBlocks_reset_flags in E as [_ Hc].
    unfold timerOk, respawn. cbn. rewrite Hc. exact H.
Qed.

Lemma timerOk_resolve_iter n e :
  timerOk (player e) -> timerOk (player (Nat.iter n resolve e)).
Proof. intros H. induction n; simpl; [exact H | apply timerOk_resolve, IHn]. Qed.

Lemma timerOk_jump e : timerOk (player e) -> timerOk (player (jump e)).
Proof.
  intros H. unfold jump. destruct (_ && _); [|exact H].
  unfold timerOk, PHYSICS.coyoteFrames. cbn. lia.
Qed.

Lemma fallCheck_player e :
  timerOk (player e) ->
  timerOk (player (fallCheck e)) /\ -300 <= THREE.y (pos (player (fallCheck e))).
Proof.
  intros H. unfold fallCheck. destruct (Num.ltb _ _) eqn:E.
  - unfold resetPlayer, announceRespawn. cbn. split; [exact H | lra].
  - apply Num.ltb_false in E. split; [exact H | exact E].
Qed.

Lemma player_score e : player (score e) = player e.
Proof. unfold score. destruct (Num.gtb _ _); reflexivity. Qed.

Definition playerOk (pl : PlayerState) : Prop :=
  timerOk pl /\ -300 <= THREE.y (pos pl).

Lemma playerOk_fixedUpdate e : timerOk (player e) -> playerOk (player (fixedUpdate e)).
Proof.
  intros H. unfold fixedUpdate, playerOk. rewrite player_score.
  apply fallCheck_player, timerOk_jump, timerOk_resolve_iter. exact H.
Qed.

Lemma playerOk_consume e : playerOk (player e) -> playerOk (player (consume e)).
Proof.
  apply (consume_keeps (fun e => playerOk (player e))).
  - intros e0 [H _]. apply playerOk_fixedUpdate, H.
  - intros last acc e0 H. exact H.
Qed.

(** X10.  The grace timer and the fall limit.  In every state the engine
    reaches from the constructor, through any frames, key events and
    touch actions, the grace timer lies between 0 and [coyoteFrames] and
    the player is not below the fall limit [y = -300]. *)
Theorem player_stays_in_bounds (level : LevelGenerator.Level) (calls : list Call) :
  let pl := player (run calls (create level)) in
  (0 <= coyoteTime pl <= PHYSICS.coyoteFrames)%Z
  /\ -300 <= THREE.y (pos pl).
Proof.
  cbv zeta. apply (run_keeps (fun e => playerOk (player e))).
  - intros time e H. unfold animate.
    destruct (Req_dec_T (lastTime e) 0); [exact H|].
    cbn [player emit renderUpdate withCamera]. apply playerOk_consume. exact H.
  - intros action isPressed e H. rewrite player_handleInput. exact H.
  - intros key e H. rewrite player_onKeyDown. exact H.
  - intros key e H. rewrite player_onKeyUp. exact H.
  - unfold playerOk, timerOk, PHYSICS.coyoteFrames. cbn. split; [lia | lra].
Qed.

(** *** The time left over *)

Lemma accumulator_handleInput action isPressed e :
  accumulator (handleInput action isPressed e) = accumulator e.
Proof.
  unfold handleInput.
  repeat match goal with
  | |- context [String.eqb ?a ?s] => destruct (String.eqb a s)
  | |- context [if isPressed then _ else _] => destruct isPressed
  end; reflexivity.
Qed.

Lemma accumulator_onKeyDown key e : accumulator (onKeyDown key e) = accumulator e.
Proof.
  unfold onKeyDown. cbv zeta.
  repeat match goal with
  | |- context [String.eqb ?a ?s] => destruct (String.eqb a s)
  end; reflexivity.
Qed.

Lemma accumulator_onKeyUp key e : accumulator (onKeyUp key e) = accumulator e.
Proof.
  unfold onKeyUp. cbv zeta.
  repeat match goal with
  | |- context [String.eqb ?a ?s] => destruct (String.eqb a s)
  end; reflexivity.
Qed.

(** X11.  Less than one step is left over.  In every state the engine
    reaches, the accumulator holds less than one [TIME_STEP]: each frame
    runs every tick that is due, whatever the time stamps are. *)
Theorem pending_time_below_one_step (level : LevelGenerator.Level) (calls : list Call) :
  accumulator (run calls (create level)) < TIME_STEP.
Proof.
  apply (run_keeps (fun e => accumulator e < TIME_STEP)).
  - intros time e H. unfold animate.
    destruct (Req_dec_T (lastTime e) 0); [exact H|].
    cbn [accumulator emit renderUpdate withCamera].
    apply (consume_bound 6). rewrite accumulator_withTiming.
    pose proof (Rmin_r (time / 1000 - lastTime e) 0.1).
    unfold Math.min, TIME_STEP in *. simpl. lra.
  - intros action isPressed e H. rewrite accumulator_handleInput. exact H.
  - intros key e H. rewrite accumulator_onKeyDown. exact H.
  - intros key e H. rewrite accumulator_onKeyUp. exact H.
  - cbn. unfold TIME_STEP. lra.
Qed.

End Runs.

Section Frames.
Import GameEngine.












(** ** The camera *)

Lemma renderUpdate_iter_player n e : player (Nat.iter n renderUpdate e) = player e.
Proof. induction n; simpl; auto. Qed.



(** ** The frustum *)



End Frames.

(** ** The movement force *)

Section Force.
Import GameEngine.













End Force.

(** ** Speed *)

Section Speed.
Import Resolver.









End Speed.

(** ** More on the generated level *)

Section Level.
Import LevelGenerator.

Lemma generate_consistent rnd cursor :
  consistent (blocksData (fst (generate rnd cursor)))
             (blockMap (fst (generate rnd cursor))).
Proof.
  rewrite generate_unfold. cbn [fst blocksData blockMap].
  destruct (addCells_consistent baseCells (mkGen [] ∅ 1 cursor) consistent_empty)
    as (Hc & Hk & Hy & _).
  { apply (bool_decide_unpack _). vm_compute. exact I. }
  apply (fold_consistent rnd 100 0 (addCells baseCells (mkGen [] ∅ 1 cursor)) baseKeys).
  - exact Hc.
  - intros k. rewrite Hk. cbn [keys g_blocksData fmap list_fmap app]. auto.
  - rewrite Hy. exact staticOk_table.
Qed.

(** The blocks of a level: the base platform, then the blocks of the
    loop, all at height 1 or above, then the victory platform. *)
Lemma generate_layout rnd cursor :
  exists loop,
    blocksData (fst (generate rnd cursor))
    = baseBlocks ++ loop
      ++ [ newBlock 0 (g_currentY (spiral rnd (baseState cursor)) + 1) 0 Standard
             (length (baseBlocks ++ loop));
           newBlock 0 (g_currentY (spiral rnd (baseState cursor)) + 1 + 1) 0 Spike
             (S (length (baseBlocks ++ loop))) ]
    /\ g_blocksData (spiral rnd (baseState cursor)) = baseBlocks ++ loop
    /\ Forall (fun b => (1 <= BlockData.gy b)%Z) loop
    /\ (1 <= g_currentY (spiral rnd (baseState cursor)))%Z.
Proof.
  rewrite generate_from_base. cbn [fst blocksData].
  destruct (baseState_facts cursor) as (Hbb & Hby & Hbc).
  pose proof (fold_spiralStep_grows rnd 1 (seq 0 towerHeight) (baseState cursor)
                ltac:(rewrite Hby; lia)) as (extra & Hb & Hf & Hy).
  fold (spiral rnd (baseState cursor)) in Hb, Hy. rewrite Hbb in Hb. rewrite Hby in Hy.
  set (st := spiral rnd (baseState cursor)) in *. clearbody st.
  exists extra. unfold finish. rewrite !addBlock_blocks, Hb.
  split; [|split; [reflexivity | split; [exact Hf | exact Hy]]].
  rewrite (length_app (baseBlocks ++ extra)). cbn [length].
  rewrite Nat.add_1_r, <- !app_assoc. reflexivity.
Qed.

(** *** Properties of the block list that every insertion keeps *)

Lemma placeStep_keeps (P : list BlockData -> Prop) rnd st i bx bz :
  (forall blocks gx gy gz ty,
     P blocks -> P (blocks ++ [newBlock gx gy gz ty (length blocks)])) ->
  P (g_blocksData st) -> P (g_blocksData (placeStep rnd st i bx bz)).
Proof.
  intros Hadd H. unfold placeStep.
  set (st1 := addBlock bx (g_currentY st) bz Standard st).
  assert (H1 : P (g_blocksData st1)) by (apply Hadd, H).
  set (st2 := if (i mod 6 =? 0)%nat then _ else st1).
  assert (H2 : P (g_blocksData st2)).
  { unfold st2. destruct (i mod 6 =? 0)%nat; [|exact H1].
    cbv zeta. destruct (negb _); [|exact H1]. apply Hadd, H1. }
  clearbody st2.
  destruct ((10 <? i)%nat && (i mod 8 =? 0)%nat); [apply Hadd, H2|].
  destruct (i mod 2 =? 0)%nat; exact H2.
Qed.

Lemma generate_keeps (P : list BlockData -> Prop) rnd cursor :
  P [] ->
  (forall blocks gx gy gz ty,
     P blocks -> P (blocks ++ [newBlock gx gy gz ty (length blocks)])) ->
  P (blocksData (fst (generate rnd cursor))).
Proof.
  intros Hnil Hadd. rewrite generate_from_base. cbn [fst blocksData].
  unfold finish. rewrite addBlock_blocks. apply Hadd.
  rewrite addBlock_blocks. apply Hadd.
  unfold spiral.
  assert (Hfold : forall js st, P (g_blocksData st) ->
                    P (g_blocksData (fold_left (spiralStep rnd) js st))).
  { induction js as [|j js IH]; intros st H; [exact H|]. cbn [fold_left]. apply IH.
    unfold spiralStep. destruct (spiralCell j). apply placeStep_keeps; assumption. }
  apply Hfold. unfold baseState.
  assert (Hcells : forall cells st, P (g_blocksData st) ->
                     P (g_blocksData (addCells cells st))).
  { induction cells as [|c cells IH]; intros st H; [exact H|].
    cbn [addCells fold_left]. apply (IH (addBlock (fst c) 0 (snd c) Standard st)).
    apply Hadd, H. }
  apply Hcells. exact Hnil.
Qed.

(** X17.  Blocks are numbered and cubic.  In every generated level, the
    block at position [n] of the list has [id = n], and its centre and
    box are those of the cube of side [blockSize] around its grid cell. *)
Theorem blocks_are_numbered_cubes (rnd : nat -> R) (cursor : nat) (n : nat) (b : BlockData) :
  blocksData (fst (generate rnd cursor)) !! n = Some b ->
  BlockData.id b = n
  /\ BlockData.center b
     = THREE.mkVector3 (IZR (BlockData.gx b) * CONFIG.blockSize)
                       (IZR (BlockData.gy b) * CONFIG.blockSize)
                       (IZR (BlockData.gz b) * CONFIG.blockSize)
  /\ BlockData.min b
     = THREE.mkVector3 (THREE.x (BlockData.center b) - CONFIG.blockSize / 2)
                       (THREE.y (BlockData.center b) - CONFIG.blockSize / 2)
                       (THREE.z (BlockData.center b) - CONFIG.blockSize / 2)
  /\ BlockData.max b
     = THREE.mkVector3 (THREE.x (BlockData.center b) + CONFIG.blockSize / 2)
                       (THREE.y (BlockData.center b) + CONFIG.blockSize / 2)
                       (THREE.z (BlockData.center b) + CONFIG.blockSize / 2).
Proof.
  revert n b.
  apply (generate_keeps
           (fun blocks => forall n b, blocks !! n = Some b ->
              BlockData.id b = n
              /\ BlockData.center b
                 = THREE.mkVector3 (IZR (BlockData.gx b) * CONFIG.blockSize)
                                   (IZR (BlockData.gy b) * CONFIG.blockSize)
                                   (IZR (BlockData.gz b) * CONFIG.blockSize)
              /\ BlockData.min b
                 = THREE.mkVector3 (THREE.x (BlockData.center b) - CONFIG.blockSize / 2)
                                   (THREE.y (BlockData.center b) - CONFIG.blockSize / 2)
                                   (THREE.z (BlockData.center b) - CONFIG.blockSize / 2)
              /\ BlockData.max b
                 = THREE.mkVector3 (THREE.x (BlockData.center b) + CONFIG.blockSize / 2)
                                   (THREE.y (BlockData.center b) + CONFIG.blockSize / 2)
                                   (THREE.z (BlockData.center b) + CONFIG.blockSize / 2))).
  - intros n b H. rewrite lookup_nil in H. discriminate.
  - intros blocks gx gy gz ty IH n b H.
    apply lookup_app_Some in H as [H|[Hlen H]]; [apply IH, H|].
    apply list_lookup_singleton_Some in H as [Hn <-].
    cbn [newBlock BlockData.id BlockData.center BlockData.min BlockData.max
         BlockData.gx BlockData.gy BlockData.gz THREE.x THREE.y THREE.z].
    repeat split. lia.
Qed.

Lemma blocks_are_numbered_cubes_witness :
  BlockData.id (newBlock (-2) 0 (-2) Standard 0) = 0%nat.
Proof.
  apply (blocks_are_numbered_cubes (fun _ => 0.7) 0 0 (newBlock (-2) 0 (-2) Standard 0)).
  destruct (generate_layout (fun _ => 0.7) 0) as (loop & -> & _).
  reflexivity.
Defined.

End Level.

Section Spikes.
Import LevelGenerator.

(** Every Spike block of the list has a Standard block of the list in
    the cell below it. *)
Definition supported (blocks : list BlockData) : Prop :=
  forall s, s ∈ blocks -> BlockData.type s = Spike ->
    exists b, b ∈ blocks
      /\ BlockData.type b = Standard
      /\ key b = (BlockData.gx s, (BlockData.gy s - 1)%Z, BlockData.gz s).

Lemma supported_standard blocks gx gy gz id :
  supported blocks -> supported (blocks ++ [newBlock gx gy gz Standard id]).
Proof.
  intros H s Hs Ht. apply elem_of_app in Hs as [Hs|Hs].
  - destruct (H s Hs Ht) as (b & Hb & Hrest). exists b.
    split; [apply elem_of_app; left; exact Hb | exact Hrest].
  - apply list_elem_of_singleton in Hs. subst s. discriminate Ht.
Qed.

Lemma supported_spike blocks gx gy gz id b :
  supported blocks ->
  b ∈ blocks -> BlockData.type b = Standard -> key b = (gx, gy, gz) ->
  supported (blocks ++ [newBlock gx (gy + 1) gz Spike id]).
Proof.
  intros H Hb Htb Hkb s Hs Ht. apply elem_of_app in Hs as [Hs|Hs].
  - destruct (H s Hs Ht) as (b' & Hb' & Hrest). exists b'.
    split; [apply elem_of_app; left; exact Hb' | exact Hrest].
  - apply list_elem_of_singleton in Hs. subst s. exists b.
    split; [apply elem_of_app; left; exact Hb|]. split; [exact Htb|].
    rewrite Hkb. cbn [newBlock BlockData.gx BlockData.gy BlockData.gz].
    repeat f_equal. lia.
Qed.

Lemma placeStep_supported rnd st i bx bz :
  supported (g_blocksData st) -> supported (g_blocksData (placeStep rnd st i bx bz)).
Proof.
  intros H. unfold placeStep.
  set (y := g_currentY st).
  set (st1 := addBlock bx y bz Standard st).
  assert (H1 : supported (g_blocksData st1)
               /\ newBlock bx y bz Standard (length (g_blocksData st)) ∈ g_blocksData st1
               /\ g_currentY st1 = y).
  { unfold st1. rewrite addBlock_blocks. split; [apply supported_standard, H|].
    split; [apply elem_of_app; right; left | reflexivity]. }
  clearbody st1. destruct H1 as (H1 & Hin1 & Hy1).
  set (st2 := if (i mod 6 =? 0)%nat then _ else st1).
  assert (H2 : supported (g_blocksData st2)
               /\ newBlock bx y bz Standard (length (g_blocksData st)) ∈ g_blocksData st2
               /\ g_currentY st2 = y).
  { unfold st2. destruct (i mod 6 =? 0)%nat; [|auto].
    cbv zeta. destruct (negb _); [|auto].
    rewrite addBlock_blocks. cbn [g_blocksData g_currentY].
    split; [apply supported_standard, H1|].
    split; [apply elem_of_app; left; exact Hin1 | exact Hy1]. }
  clearbody st2. destruct H2 as (H2 & Hin2 & Hy2).
  destruct ((10 <? i)%nat && (i mod 8 =? 0)%nat).
  - rewrite addBlock_blocks, Hy2.
    eapply supported_spike; [exact H2 | exact Hin2 | reflexivity | reflexivity].
  - destruct (i mod 2 =? 0)%nat; exact H2.
Qed.

Lemma generate_supported rnd cursor :
  supported (blocksData (fst (generate rnd cursor))).
Proof.
  rewrite generate_from_base. cbn [fst blocksData].
  assert (Hs : supported (g_blocksData (spiral rnd (baseState cursor)))).
  { unfold spiral.
    assert (Hfold : forall js st, supported (g_blocksData st) ->
                      supported (g_blocksData (fold_left (spiralStep rnd) js st))).
    { induction js as [|j js IH]; intros st H; [exact H|]. cbn [fold_left]. apply IH.
      unfold spiralStep. destruct (spiralCell j). apply placeStep_supported, H. }
    apply Hfold. destruct (baseState_facts cursor) as (-> & _).
    intros s Hs Ht. exfalso. unfold baseBlocks, baseCells in Hs. cbn in Hs.
    repeat (apply elem_of_cons in Hs as [->|Hs]; [discriminate Ht|]).
    inversion Hs. }
  set (st := spiral rnd (baseState cursor)) in *. clearbody st.
  unfold finish. rewrite !addBlock_blocks.
  eapply supported_spike.
  - apply supported_standard, Hs.
  - apply elem_of_app. right. left.
  - reflexivity.
  - reflexivity.
Qed.

(** X18.  No spike floats.  In every generated level each Spike block
    stands on a Standard block: the index holds a Standard block in the
    cell right below it. *)
Theorem spikes_stand_on_blocks (rnd : nat -> R) (cursor : nat) (s : BlockData) :
  let level := fst (generate rnd cursor) in
  s ∈ blocksData level -> BlockData.type s = Spike ->
  exists b,
    blockMap level !! (BlockData.gx s, (BlockData.gy s - 1)%Z, BlockData.gz s) = Some b
    /\ b ∈ blocksData level
    /\ BlockData.type b = Standard.
Proof.
  cbv zeta. intros Hs Ht.
  destruct (generate_supported rnd cursor s Hs Ht) as (b & Hb & Htb & Hkb).
  exists b. rewrite <- Hkb. split; [|split; assumption].
  apply (cons_lookup _ _ (generate_consistent rnd cursor)). exact Hb.
Qed.

(** *** The height of the tower *)

Lemma placeStep_currentY rnd st i bx bz :
  g_currentY (placeStep rnd st i bx bz) = nextY i (g_currentY st).
Proof.
  unfold placeStep, nextY, isSpikeStep.
  set (st1 := addBlock bx (g_currentY st) bz Standard st).
  set (st2 := if (i mod 6 =? 0)%nat then _ else st1).
  assert (H2 : g_currentY st2 = g_currentY st).
  { unfold st2. destruct (i mod 6 =? 0)%nat; [|reflexivity].
    cbv zeta. destruct (negb _); reflexivity. }
  clearbody st2.
  destruct ((10 <? i)%nat && (i mod 8 =? 0)%nat); [rewrite addBlock_currentY; exact H2|].
  destruct (i mod 2 =? 0)%nat; cbn [g_currentY]; rewrite H2; reflexivity.
Qed.

Lemma fold_spiralStep_currentY rnd (js : list nat) : forall st,
  g_currentY (fold_left (spiralStep rnd) js st)
  = fold_left (fun y i => nextY i y) js (g_currentY st).
Proof.
  induction js as [|j js IH]; intros st; [reflexivity|]. cbn [fold_left].
  rewrite IH. f_equal. unfold spiralStep. destruct (spiralCell j).
  apply placeStep_currentY.
Qed.

Lemma spiral_currentY rnd cursor : g_currentY (spiral rnd (baseState cursor)) = 40%Z.
Proof.
  unfold spiral. rewrite fold_spiralStep_currentY.
  destruct (baseState_facts cursor) as (_ & -> & _).
  vm_compute. reflexivity.
Qed.

(** No block lies above the layer after the current one. *)
Definition below (st : Gen) : Prop :=
  Forall (fun b => (BlockData.gy b <= g_currentY st + 1)%Z) (g_blocksData st).

Lemma below_addBlock gx gy gz ty st :
  below st -> (gy <= g_currentY st + 1)%Z -> below (addBlock gx gy gz ty st).
Proof.
  unfold below. intros H Hy. rewrite addBlock_blocks, addBlock_currentY.
  apply Forall_app. split; [exact H|]. apply Forall_cons. split; [exact Hy|].
  apply Forall_nil. exact I.
Qed.

Lemma below_raise bd m c c' cur cur' :
  below (mkGen bd m c cur) -> (c <= c')%Z -> below (mkGen bd m c' cur').
Proof.
  unfold below. cbn [g_blocksData g_currentY]. intros H Hc.
  eapply Forall_impl; [exact H|]. intros b Hb. cbn beta in *. lia.
Qed.

Lemma placeStep_below rnd st i bx bz : below st -> below (placeStep rnd st i bx bz).
Proof.
  intros H. unfold placeStep.
  set (y := g_currentY st).
  set (st1 := addBlock bx y bz Standard st).
  assert (H1 : below st1 /\ g_currentY st1 = y).
  { unfold st1. split; [apply below_addBlock; [exact H | fold y; lia] | reflexivity]. }
  clearbody st1. destruct H1 as (H1 & Hy1).
  set (st2 := if (i mod 6 =? 0)%nat then _ else st1).
  assert (H2 : below st2 /\ g_currentY st2 = y).
  { unfold st2. destruct (i mod 6 =? 0)%nat; [|auto].
    cbv zeta. cbn [g_blocksData g_blockMap g_currentY g_cursor].
    assert (Hb : below (mkGen (g_blocksData st1) (g_blockMap st1) (g_currentY st1)
                              (S (g_cursor st1)))).
    { destruct st1. eapply below_raise; [exact H1 | cbn; lia]. }
    destruct (negb _); [|split; [exact Hb | exact Hy1]].
    split; [|exact Hy1]. apply below_addBlock; [exact Hb|]. cbn [g_currentY]. lia. }
  clearbody st2. destruct H2 as (H2 & Hy2).
  destruct ((10 <? i)%nat && (i mod 8 =? 0)%nat).
  - apply below_addBlock; [exact H2 | lia].
  - destruct (i mod 2 =? 0)%nat; [|exact H2].
    destruct st2. eapply below_raise; [exact H2 | cbn; lia].
Qed.

Lemma spiral_below rnd cursor : below (spiral rnd (baseState cursor)).
Proof.
  unfold spiral.
  assert (Hfold : forall js st, below st -> below (fold_left (spiralStep rnd) js st)).
  { induction js as [|j js IH]; intros st H; [exact H|]. cbn [fold_left]. apply IH.
    unfold spiralStep. destruct (spiralCell j). apply placeStep_below, H. }
  apply Hfold. unfold below.
  destruct (baseState_facts cursor) as (-> & -> & _).
  apply Forall_forall. intros b Hb. unfold baseBlocks, baseCells in Hb. cbn in Hb.
  repeat (apply elem_of_cons in Hb as [->|Hb]; [cbn; lia|]).
  inversion Hb.
Qed.

(** X19.  The tower always has the same height.  Whatever the draws, the
    loop ends at layer 40, the level ends with the victory platform, a
    Standard block in cell (0,41,0) with a Spike in cell (0,42,0) on it,
    no other block lies above layer 41 or below layer 0, and [winHeight]
    is 1640, the height of the centre of that platform. *)
Theorem tower_height_is_fixed (rnd : nat -> R) (cursor : nat) :
  let level := fst (generate rnd cursor) in
  winHeight level = 1640
  /\ exists front,
       blocksData level
       = front ++ [ newBlock 0 41 0 Standard (length front);
                    newBlock 0 42 0 Spike (S (length front)) ]
       /\ Forall (fun b => (0 <= BlockData.gy b <= 41)%Z) front.
Proof.
  cbv zeta. split.
  - rewrite generate_from_base. cbn [fst winHeight]. rewrite spiral_currentY.
    change (40 + 1)%Z with 41%Z. unfold CONFIG.blockSize. lra.
  - destruct (generate_layout rnd cursor) as (loop & Hb & Hsp & Hlo & _).
    pose proof (spiral_below rnd cursor) as Hup. unfold below in Hup.
    rewrite spiral_currentY in Hb, Hup. rewrite Hsp in Hup.
    exists (baseBlocks ++ loop). rewrite <- app_assoc. split; [exact Hb|].
    apply Forall_app in Hup as [Hup1 Hup2]. apply Forall_app. split.
    + apply Forall_forall. intros b Hin. unfold baseBlocks, baseCells in Hin. cbn in Hin.
      repeat (apply elem_of_cons in Hin as [->|Hin]; [cbn; lia|]).
      inversion Hin.
    + apply Forall_forall. intros b Hin.
      pose proof (proj1 (Forall_forall _ _) Hlo b Hin) as H1.
      pose proof (proj1 (Forall_forall _ _) Hup2 b Hin) as H2.
      cbn beta in *. lia.
Qed.

End Spikes.

Section Level2.
Import LevelGenerator.

Lemma spikes_stand_on_blocks_witness :
  exists s b,
    s ∈ blocksData (fst (generate (fun _ => 0.7) 0))
    /\ BlockData.type s = Spike
    /\ blockMap (fst (generate (fun _ => 0.7) 0))
         !! (BlockData.gx s, (BlockData.gy s - 1)%Z, BlockData.gz s) = Some b
    /\ BlockData.type b = Standard.
Proof.
  destruct (generate_layout (fun _ => 0.7) 0) as (loop & Hb & _).
  set (s := newBlock 0 (g_currentY (spiral (fun _ => 0.7) (baseState 0)) + 1 + 1) 0 Spike
              (S (length (baseBlocks ++ loop)))) in *.
  assert (Hs : s ∈ blocksData (fst (generate (fun _ => 0.7) 0))).
  { rewrite Hb. apply elem_of_app. right. apply elem_of_app. right. right. left. }
  destruct (spikes_stand_on_blocks (fun _ => 0.7) 0 s Hs eq_refl) as (b & H1 & _ & H3).
  exists s, b. split; [exact Hs|]. split; [reflexivity|]. split; [exact H1 | exact H3].
Defined.

(** X20.  Inserting a block.  [addBlock] appends the new block, with the
    next free id, to the list and stores it in the index under its cell;
    other cells and earlier list positions are untouched.  The index
    grows only when the cell was free: on an occupied cell the entry is
    replaced while the block it held stays in the list. *)
Theorem addBlock_list_and_index (gx gy gz : Z) (ty : BlockType) (st : Gen) :
  let st' := addBlock gx gy gz ty st in
  let b := newBlock gx gy gz ty (length (g_blocksData st)) in
  g_blockMap st' !! (gx, gy, gz) = Some b
  /\ g_blocksData st' !! length (g_blocksData st) = Some b
  /\ length (g_blocksData st') = S (length (g_blocksData st))
  /\ (forall k, k <> (gx, gy, gz) -> g_blockMap st' !! k = g_blockMap st !! k)
  /\ (forall n, (n < length (g_blocksData st))%nat ->
        g_blocksData st' !! n = g_blocksData st !! n)
  /\ (g_blockMap st !! (gx, gy, gz) = None ->
        size (g_blockMap st') = S (size (g_blockMap st)))
  /\ (forall old, g_blockMap st !! (gx, gy, gz) = Some old ->
        size (g_blockMap st') = size (g_blockMap st)
        /\ (old ∈ g_blocksData st -> old ∈ g_blocksData st')).
Proof.
  cbv zeta. unfold addBlock, keyOf. cbn [g_blocksData g_blockMap].
  split; [apply lookup_insert_eq|].
  split; [rewrite lookup_app_r by lia; rewrite Nat.sub_diag; reflexivity|].
  split; [rewrite length_app; cbn; lia|].
  split; [intros k Hk; apply lookup_insert_ne; congruence|].
  split; [intros n Hn; apply lookup_app_l; exact Hn|].
  split; [intros H; apply map_size_insert_None; exact H|].
  intros old Hold. split; [apply map_size_insert_Some; eauto|].
  intros H. apply elem_of_app. left. exact H.
Qed.

Lemma addBlock_list_and_index_witness :
  size (g_blockMap (addBlock 0 0 0 Spike (addBlock 0 0 0 Standard (mkGen [] ∅ 1 0))))
  = size (g_blockMap (addBlock 0 0 0 Standard (mkGen [] ∅ 1 0)))
  /\ (newBlock 0 0 0 Standard 0 ∈ g_blocksData (addBlock 0 0 0 Standard (mkGen [] ∅ 1 0)) ->
      newBlock 0 0 0 Standard 0
        ∈ g_blocksData (addBlock 0 0 0 Spike (addBlock 0 0 0 Standard (mkGen [] ∅ 1 0)))).
Proof.
  apply (proj2 (proj2 (proj2 (proj2 (proj2 (proj2
           (addBlock_list_and_index 0 0 0 Spike
              (addBlock 0 0 0 Standard (mkGen [] ∅ 1 0))))))))
           (newBlock 0 0 0 Standard 0)).
  reflexivity.
Defined.

(** *** The number of blocks *)

Definition spikesOf (js : list nat) : nat := length (List.filter isSpikeStep js).

Lemma placeStep_length rnd st i bx bz :
  exists side,
    (side <= drawsOf [i])%nat
    /\ length (g_blocksData (placeStep rnd st i bx bz))
       = (length (g_blocksData st) + 1 + side + spikesOf [i])%nat.
Proof.
  unfold placeStep, drawsOf, spikesOf, isSpikeStep. cbn [List.filter].
  set (st1 := addBlock bx (g_currentY st) bz Standard st).
  assert (H1 : length (g_blocksData st1) = (length (g_blocksData st) + 1)%nat).
  { unfold st1. rewrite addBlock_blocks, length_app. reflexivity. }
  clearbody st1.
  set (st2 := if (i mod 6 =? 0)%nat then _ else st1).
  assert (H2 : exists side,
            (side <= length (if (i mod 6 =? 0)%nat then [i] else []))%nat
            /\ length (g_blocksData st2) = (length (g_blocksData st1) + side)%nat).
  { unfold st2. destruct (i mod 6 =? 0)%nat; [|exists 0%nat; cbn; split; lia].
    cbv zeta. destruct (negb _).
    - exists 1%nat. rewrite addBlock_blocks, length_app. cbn. split; lia.
    - exists 0%nat. cbn. split; lia. }
  clearbody st2. destruct H2 as (side & Hside & H2). exists side. split; [exact Hside|].
  destruct ((10 <? i)%nat && (i mod 8 =? 0)%nat).
  - rewrite addBlock_blocks, length_app. cbn [length]. lia.
  - destruct (i mod 2 =? 0)%nat; cbn [length g_blocksData]; lia.
Qed.

Lemma fold_spiralStep_length rnd (js : list nat) : forall st,
  exists sides,
    (sides <= drawsOf js)%nat
    /\ length (g_blocksData (fold_left (spiralStep rnd) js st))
       = (length (g_blocksData st) + length js + sides + spikesOf js)%nat.
Proof.
  induction js as [|j js IH]; intros st; cbn [fold_left].
  - exists 0%nat. unfold drawsOf, spikesOf. cbn. split; lia.
  - assert (Hstep : exists side,
              (side <= drawsOf [j])%nat
              /\ length (g_blocksData (spiralStep rnd st j))
                 = (length (g_blocksData st) + 1 + side + spikesOf [j])%nat).
    { unfold spiralStep. destruct (spiralCell j). apply placeStep_length. }
    destruct Hstep as (side & Hs & Hl).
    destruct (IH (spiralStep rnd st j)) as (sides & Hss & Hll).
    exists (side + sides)%nat. rewrite drawsOf_cons. split; [lia|].
    rewrite Hll, Hl. unfold spikesOf in *. cbn [List.filter length].
    destruct (isSpikeStep j); cbn [length]; lia.
Qed.

(** X21.  The size of a level.  Every level has the 25 blocks of the base
    platform, the 100 blocks of the spiral, its 11 spikes and the 2 blocks
    of the victory platform, and at most one side platform for each of
    the 17 draws: between 138 and 155 blocks. *)
Theorem level_size_bounds (rnd : nat -> R) (cursor : nat) :
  (138 <= length (blocksData (fst (generate rnd cursor))) <= 155)%nat.
Proof.
  rewrite generate_from_base. cbn [fst blocksData]. unfold finish.
  rewrite !addBlock_blocks, !length_app. cbn [length].
  unfold spiral.
  destruct (fold_spiralStep_length rnd (seq 0 towerHeight) (baseState cursor))
    as (sides & Hs & Hl).
  rewrite Hl. destruct (baseState_facts cursor) as (-> & _).
  change (drawsOf (seq 0 towerHeight)) with 17%nat in Hs.
  change (spikesOf (seq 0 towerHeight)) with 11%nat.
  change (length (seq 0 towerHeight)) with 100%nat.
  change (length baseBlocks) with 25%nat.
  lia.
Qed.

End Level2.

(** ** The spawn platform under the resolver *)

Section Spawn.
Import LevelGenerator.

(** The box that spans the 5 x 5 base platform. *)
Definition spawnBox : Box.t :=
  Box.mk (THREE.mkVector3 (-100) (-20) (-100)) (THREE.mkVector3 100 20 100).

Definition inGrid (x z : Z) : Prop := (-2 <= x <= 2)%Z /\ (-2 <= z <= 2)%Z.

Lemma baseBlocks_facts b :
  b ∈ baseBlocks ->
  BlockData.type b = Standard
  /\ BlockData.gy b = 0%Z
  /\ inGrid (BlockData.gx b) (BlockData.gz b)
  /\ within (boxOf b) spawnBox.
Proof.
  intros H. unfold baseBlocks, baseCells in H. cbn [imap fst snd] in H.
  unfold compose in H. cbn beta in H. cbn [fst snd] in H.
  repeat (apply elem_of_cons in H as [->|H];
          [split; [reflexivity|]; split; [reflexivity|]; split;
           [unfold inGrid; cbn; lia|];
           unfold within, boxOf, spawnBox, newBlock;
           cbn [Box.min Box.max BlockData.min BlockData.max THREE.x THREE.y THREE.z];
           unfold CONFIG.blockSize; repeat split; lra|]).
  inversion H.
Qed.

Lemma grid_block x z :
  inGrid x z -> exists b, b ∈ baseBlocks /\ key b = (x, 0%Z, z).
Proof.
  intros [Hx Hz].
  assert (Hk : (x, 0%Z, z) ∈ baseKeys).
  { assert (Ex : x = (-2)%Z \/ x = (-1)%Z \/ x = 0%Z \/ x = 1%Z \/ x = 2%Z) by lia.
    assert (Ez : z = (-2)%Z \/ z = (-1)%Z \/ z = 0%Z \/ z = 1%Z \/ z = 2%Z) by lia.
    destruct Ex as [->|[->|[->|[->| ->]]]]; destruct Ez as [->|[->|[->|[->| ->]]]];
      apply (bool_decide_unpack _); vm_compute; exact I. }
  change baseKeys with (key <$> baseBlocks) in Hk.
  apply list_elem_of_fmap in Hk as (b & E & Hb). exists b. split; [exact Hb | symmetry; exact E].
Qed.

(** A list of blocks and its index that begin with the base platform
    and hold nothing else at layer 0. *)
Variable blocks : list BlockData.
Variable blockMap : BlockMap.
Variable rest : list BlockData.
Hypothesis level_consistent : consistent blocks blockMap.
Hypothesis level_layout : blocks = baseBlocks ++ rest.
Hypothesis level_rest : Forall (fun b => (1 <= BlockData.gy b)%Z) rest.

Lemma level_base_lookup b : b ∈ baseBlocks -> blockMap !! key b = Some b.
Proof.
  intros Hb. apply (cons_lookup _ _ level_consistent).
  rewrite level_layout. apply elem_of_app. left. exact Hb.
Qed.

(** The blocks the index holds at layer 0 are those of the base
    platform. *)
Lemma level_layer0 k b :
  blockMap !! k = Some b -> BlockData.gy b = 0%Z -> b ∈ baseBlocks.
Proof.
  intros Hk Hy.
  assert (Hin : k ∈ key <$> blocks).
  { destruct (decide (k ∈ key <$> blocks)) as [H|H]; [exact H|].
    apply (cons_absent _ _ level_consistent) in H. rewrite H in Hk. discriminate Hk. }
  apply list_elem_of_fmap in Hin as (b' & E & Hb').
  pose proof (cons_lookup _ _ level_consistent b' Hb') as Hl. rewrite <- E, Hk in Hl.
  injection Hl as Hl. subst b'.
  rewrite level_layout in Hb'.
  apply elem_of_app in Hb' as [Hb'|Hb']; [exact Hb'|]. exfalso.
  pose proof (proj1 (Forall_forall _ _) level_rest b Hb') as H1. cbn beta in H1. lia.
Qed.

Variable start : BlockData.
Hypothesis start_base : start ∈ baseBlocks.

Lemma grid_step x z k' :
  connected start blockMap (x, 0%Z, z) ->
  inGrid x z ->
  k' ∈ PhysicsEngine.fourNeighbours (x, 0%Z, z) ->
  connected start blockMap k'.
Proof.
  intros Hc Hg Hk'.
  destruct (grid_block x z Hg) as (b & Hb & Hkb).
  destruct (baseBlocks_facts b Hb) as (Ht & Hy & _).
  destruct (baseBlocks_facts start start_base) as (_ & Hys & _).
  eapply connected_step; [exact Hc | rewrite <- Hkb; apply level_base_lookup, Hb | | exact Hk'].
  unfold PhysicsEngine.onLayer. rewrite Ht, Hy, Hys. reflexivity.
Qed.

Lemma grid_connected (n : nat) : forall x z,
  inGrid x z ->
  (Z.abs (x - BlockData.gx start) + Z.abs (z - BlockData.gz start) <= Z.of_nat n)%Z ->
  connected start blockMap (x, 0%Z, z).
Proof.
  destruct (baseBlocks_facts start start_base) as (_ & Hys & [Hsx Hsz] & _).
  induction n as [|n IH]; intros x z [Hx Hz] Hd.
  - assert (x = BlockData.gx start) by lia. assert (z = BlockData.gz start) by lia.
    subst x z. rewrite <- Hys. apply connected_start.
  - destruct (Z.eq_dec x (BlockData.gx start)) as [Ex|Ex].
    + destruct (Z.eq_dec z (BlockData.gz start)) as [Ez|Ez].
      * apply IH; [split; assumption | lia].
      * destruct (Z_lt_le_dec z (BlockData.gz start)) as [Hlt|Hge].
        -- apply (grid_step x (z + 1)).
           ++ apply IH; [split; lia | lia].
           ++ split; lia.
           ++ replace z with (z + 1 - 1)%Z at 1 by lia. do 3 right. left.
        -- apply (grid_step x (z - 1)).
           ++ apply IH; [split; lia | lia].
           ++ split; lia.
           ++ replace z with (z - 1 + 1)%Z at 1 by lia. do 2 right. left.
    + destruct (Z_lt_le_dec x (BlockData.gx start)) as [Hlt|Hge].
      * apply (grid_step (x + 1) z).
        -- apply IH; [split; lia | lia].
        -- split; lia.
        -- replace x with (x + 1 - 1)%Z at 1 by lia. right. left.
      * apply (grid_step (x - 1) z).
        -- apply IH; [split; lia | lia].
        -- split; lia.
        -- replace x with (x - 1 + 1)%Z at 1 by lia. left.
Qed.

Lemma spawn_merged :
  PhysicsEngine.mergeAllConnectedOnLayer start blockMap = spawnBox.
Proof.
  destruct (baseBlocks_facts start start_base) as (Hts & Hys & Hgs & Hws).
  assert (Hin : within (PhysicsEngine.mergeAllConnectedOnLayer start blockMap) spawnBox).
  { apply mergeAll_least; [exact Hws|].
    intros k b _ Hb Hl. unfold PhysicsEngine.onLayer in Hl.
    apply andb_true_iff in Hl as [_ Hl]. apply Z.eqb_eq in Hl.
    apply baseBlocks_facts. eapply level_layer0; [exact Hb | lia]. }
  assert (Hcorner : forall x z, inGrid x z ->
            exists b, b ∈ baseBlocks /\ key b = (x, 0%Z, z)
              /\ within (boxOf b) (PhysicsEngine.mergeAllConnectedOnLayer start blockMap)).
  { intros x z Hg. destruct (grid_block x z Hg) as (b & Hb & Hkb).
    exists b. split; [exact Hb|]. split; [exact Hkb|].
    destruct (baseBlocks_facts b Hb) as (Ht & Hy & _).
    apply (mergeAll_covers start blockMap (x, 0%Z, z) b).
    - apply (grid_connected 8); [exact Hg|]. destruct Hg, Hgs. lia.
    - rewrite <- Hkb. apply level_base_lookup, Hb.
    - unfold PhysicsEngine.onLayer. rewrite Ht, Hy, Hys. reflexivity. }
  destruct (Hcorner (-2)%Z (-2)%Z) as (lo & Hlo & Hklo & Hwlo); [split; lia|].
  destruct (Hcorner 2%Z 2%Z) as (hi & Hhi & Hkhi & Hwhi); [split; lia|].
  assert (Elo : BlockData.min lo = THREE.mkVector3 (-100) (-20) (-100)).
  { clear - Hlo Hklo. unfold baseBlocks, baseCells in Hlo. cbn [imap fst snd] in Hlo.
    unfold compose in Hlo. cbn beta in Hlo. cbn [fst snd] in Hlo.
    repeat (apply elem_of_cons in Hlo as [->|Hlo];
            [first [discriminate Hklo
                   | unfold newBlock; cbn [BlockData.min]; unfold CONFIG.blockSize;
                     f_equal; lra]|]).
    inversion Hlo. }
  assert (Ehi : BlockData.max hi = THREE.mkVector3 100 20 100).
  { clear - Hhi Hkhi. unfold baseBlocks, baseCells in Hhi. cbn [imap fst snd] in Hhi.
    unfold compose in Hhi. cbn beta in Hhi. cbn [fst snd] in Hhi.
    repeat (apply elem_of_cons in Hhi as [->|Hhi];
            [first [discriminate Hkhi
                   | unfold newBlock; cbn [BlockData.max]; unfold CONFIG.blockSize;
                     f_equal; lra]|]).
    inversion Hhi. }
  unfold within, boxOf in Hwlo, Hwhi, Hin.
  cbn [Box.min Box.max] in Hwlo, Hwhi. rewrite Elo in Hwlo. rewrite Ehi in Hwhi.
  destruct (PhysicsEngine.mergeAllConnectedOnLayer start blockMap) as [[a1 a2 a3] [c1 c2 c3]].
  unfold spawnBox in *. cbn [Box.min Box.max THREE.x THREE.y THREE.z] in *.
  f_equal; f_equal; lra.
Qed.

End Spawn.

(** The blocks of a level after the base platform lie at layer 1 or
    above. *)
Lemma generate_above_base rnd cursor :
  exists rest,
    LevelGenerator.blocksData (fst (LevelGenerator.generate rnd cursor)) = baseBlocks ++ rest
    /\ Forall (fun b => (1 <= BlockData.gy b)%Z) rest.
Proof.
  destruct (generate_layout rnd cursor) as (loop & Hb & _ & Hlo & Hy1).
  revert Hb Hy1.
  generalize (LevelGenerator.g_currentY
                (LevelGenerator.spiral rnd (baseState cursor))).
  intros Y Hb HY. eexists. split; [exact Hb|].
  apply Forall_app. split; [exact Hlo|].
  apply Forall_cons. split; [cbn [LevelGenerator.newBlock BlockData.gy]; lia|].
  apply Forall_cons. split; [cbn [LevelGenerator.newBlock BlockData.gy]; lia|].
  apply Forall_nil. exact I.
Qed.

(** X22.  The spawn platform is one box.  In every generated level the
    resolver tests each of the 25 blocks of the base platform with the
    same box, the one spanning the whole platform: no seam between two of
    its blocks is ever seen. *)
Theorem spawn_platform_is_one_box (rnd : nat -> R) (cursor : nat) (b : BlockData) :
  b ∈ baseBlocks ->
  PhysicsEngine.bounds b (LevelGenerator.blockMap (fst (LevelGenerator.generate rnd cursor)))
  = Box.mk (THREE.mkVector3 (-100) (-20) (-100)) (THREE.mkVector3 100 20 100).
Proof.
  intros Hb. destruct (baseBlocks_facts b Hb) as (Ht & _).
  destruct (generate_above_base rnd cursor) as (rest & Hlay & Hrest).
  unfold PhysicsEngine.bounds. rewrite Ht.
  replace (bool_decide (Standard = Standard)) with true
    by (symmetry; apply bool_decide_eq_true; reflexivity).
  exact (spawn_merged _ _ rest (generate_consistent rnd cursor) Hlay Hrest b Hb).
Qed.

Lemma spawn_platform_is_one_box_witness :
  PhysicsEngine.bounds (LevelGenerator.newBlock 0 0 0 Standard 12)
    (LevelGenerator.blockMap (fst (LevelGenerator.generate (fun _ => 0.7) 0)))
  = Box.mk (THREE.mkVector3 (-100) (-20) (-100)) (THREE.mkVector3 100 20 100).
Proof.
  apply (spawn_platform_is_one_box (fun _ => 0.7) 0 (LevelGenerator.newBlock 0 0 0 Standard 12)).
  apply (list_elem_of_lookup_2 _ 12%nat). reflexivity.
Defined.

(** ** The edges of a block *)

Section Edges.
Import VisualBuilder.

(** The six directions in which a cube has a face. *)
Definition faceDirections : list (Z * Z * Z) :=
  [ (1, 0, 0); (-1, 0, 0); (0, 1, 0); (0, -1, 0); (0, 0, 1); (0, 0, -1) ]%Z.

(** The corner lies in the face of the cube whose outward normal is
    [(dx, dy, dz)]. *)
Definition onFace (dx dy dz : Z) (c : Corner) : Prop :=
  IZR dx * THREE.x (corners c) + IZR dy * THREE.y (corners c)
  + IZR dz * THREE.z (corners c) = half.

Lemma elem_of_drawIf d cond c1 c2 bi :
  d ∈ drawIf cond c1 c2 bi -> cond = true /\ d = mkDraw c1 c2 bi.
Proof.
  unfold drawIf. destruct cond; intros H; [|inversion H].
  apply list_elem_of_singleton in H. auto.
Qed.

Lemma eqNum_same a : eqNum a a = true.
Proof. unfold eqNum. destruct (Req_dec_T a a); [reflexivity | contradiction]. Qed.

Lemma eqNum_half : eqNum half (- half) = false.
Proof.
  unfold eqNum. destruct (Req_dec_T half (- half)) as [E|_]; [|reflexivity].
  unfold half, CONFIG.blockSize in E. lra.
Qed.

Lemma half_pos : Num.gtb half 0 = true.
Proof. apply gtb_yes. unfold half, CONFIG.blockSize. lra. Qed.

Lemma half_neg : Num.gtb (- half) 0 = false.
Proof. apply gtb_no. unfold half, CONFIG.blockSize. lra. Qed.

(** The bias of each of the four pillars. *)
Lemma pillar_bias blockMap b :
  verticalSeamBiasForEdge blockMap b trf brf
  = (if negb (has blockMap b 1 0 0) && negb (has blockMap b 0 0 1) && has blockMap b 1 0 1
     then Some (1, 1)%Z else None)
  /\ verticalSeamBiasForEdge blockMap b tlf blf
  = (if negb (has blockMap b (-1) 0 0) && negb (has blockMap b 0 0 1)
        && has blockMap b (-1) 0 1
     then Some (-1, 1)%Z else None)
  /\ verticalSeamBiasForEdge blockMap b trb brb
  = (if negb (has blockMap b 1 0 0) && negb (has blockMap b 0 0 (-1))
        && has blockMap b 1 0 (-1)
     then Some (1, -1)%Z else None)
  /\ verticalSeamBiasForEdge blockMap b tlb blb
  = (if negb (has blockMap b (-1) 0 0) && negb (has blockMap b 0 0 (-1))
        && has blockMap b (-1) 0 (-1)
     then Some (-1, -1)%Z else None).
Proof.
  unfold verticalSeamBiasForEdge. cbn [corners THREE.x THREE.y THREE.z].
  rewrite !eqNum_same, !eqNum_half, !half_pos, !half_neg. cbn [andb negb].
  repeat split; reflexivity.
Qed.

(** Every call of [draw] is one of the twelve, made under its
    conditions. *)
Lemma edges_cases blockMap b d :
  d ∈ edges blockMap b ->
  (has blockMap b 0 1 0 = false
   /\ ((has blockMap b 1 0 0 = false /\ d = mkDraw trf trb None)
       \/ (has blockMap b (-1) 0 0 = false /\ d = mkDraw tlf tlb None)
       \/ (has blockMap b 0 0 1 = false /\ d = mkDraw trf tlf None)
       \/ (has blockMap b 0 0 (-1) = false /\ d = mkDraw trb tlb None)))
  \/ (has blockMap b 0 (-1) 0 = false
      /\ ((has blockMap b 1 0 0 = false /\ d = mkDraw brf brb None)
          \/ (has blockMap b (-1) 0 0 = false /\ d = mkDraw blf blb None)
          \/ (has blockMap b 0 0 1 = false /\ d = mkDraw brf blf None)
          \/ (has blockMap b 0 0 (-1) = false /\ d = mkDraw brb blb None)))
  \/ (has blockMap b 1 0 0 = false /\ has blockMap b 0 0 1 = false
      /\ d = mkDraw trf brf (if has blockMap b 1 0 1 then Some (1, 1)%Z else None))
  \/ (has blockMap b (-1) 0 0 = false /\ has blockMap b 0 0 1 = false
      /\ d = mkDraw tlf blf (if has blockMap b (-1) 0 1 then Some (-1, 1)%Z else None))
  \/ (has blockMap b 1 0 0 = false /\ has blockMap b 0 0 (-1) = false
      /\ d = mkDraw trb brb (if has blockMap b 1 0 (-1) then Some (1, -1)%Z else None))
  \/ (has blockMap b (-1) 0 0 = false /\ has blockMap b 0 0 (-1) = false
      /\ d = mkDraw tlb blb (if has blockMap b (-1) 0 (-1) then Some (-1, -1)%Z else None)).
Proof.
  unfold edges. cbv zeta.
  destruct (pillar_bias blockMap b) as (-> & -> & -> & ->).
  intros H.
  apply elem_of_app in H as [H|H].
  { left. destruct (has blockMap b 0 1 0); cbn [negb] in H; [inversion H|].
    split; [reflexivity|].
    repeat (apply elem_of_app in H as [H|H]);
      apply elem_of_drawIf in H as [Hc ->]; apply negb_true_iff in Hc; tauto. }
  apply elem_of_app in H as [H|H].
  { right. left. destruct (has blockMap b 0 (-1) 0); cbn [negb] in H; [inversion H|].
    split; [reflexivity|].
    repeat (apply elem_of_app in H as [H|H]);
      apply elem_of_drawIf in H as [Hc ->]; apply negb_true_iff in Hc; tauto. }
  do 2 right.
  repeat (apply elem_of_app in H as [H|H]);
    apply elem_of_drawIf in H as [Hc ->];
    apply andb_true_iff in Hc as [Hc1 Hc2];
    apply negb_true_iff in Hc1, Hc2; rewrite Hc1, Hc2; cbn [negb andb]; tauto.
Qed.

Lemma length_drawIf cond c1 c2 bi : (length (drawIf cond c1 c2 bi) <= 1)%nat.
Proof. unfold drawIf. destruct cond; cbn; lia. Qed.

(** X23.  Edges of a Standard block.  [createLevelMesh] draws no edge in
    a face that the block shares with a neighbour: when the cell next to
    the block in one of the six face directions is occupied, none of the
    edges drawn for the block joins two corners of that face.  A block
    gets at most twelve edges, and only a vertical edge is ever biased:
    towards a diagonal neighbour that exists, at a corner whose two side
    cells are empty. *)
Theorem shared_faces_carry_no_edges (blockMap : BlockMap) (b : BlockData) :
  (forall dx dy dz d,
     (dx, dy, dz) ∈ faceDirections ->
     has blockMap b dx dy dz = true ->
     d ∈ edges blockMap b ->
     ~ (onFace dx dy dz (p1 d) /\ onFace dx dy dz (p2 d)))
  /\ (length (edges blockMap b) <= 12)%nat
  /\ (forall d xDir zDir,
        d ∈ edges blockMap b -> bias d = Some (xDir, zDir) ->
        has blockMap b xDir 0 zDir = true
        /\ has blockMap b xDir 0 0 = false
        /\ has blockMap b 0 0 zDir = false
        /\ THREE.x (corners (p1 d)) = THREE.x (corners (p2 d))
        /\ THREE.z (corners (p1 d)) = THREE.z (corners (p2 d))).
Proof.
  split; [|split].
  - intros dx dy dz d Hdir Hhas Hd [H1 H2].
    apply edges_cases in Hd. unfold onFace in H1, H2.
    assert (Hh : 0 < half) by (unfold half, CONFIG.blockSize; lra).
    unfold faceDirections in Hdir.
    repeat (apply elem_of_cons in Hdir as [[= -> -> ->]|Hdir]);
      [ | | | | | | inversion Hdir];
      destruct Hd as [[Hu Hd]|[[Hu Hd]|Hd]];
      repeat match goal with
      | H : _ \/ _ |- _ => destruct H as [H|H]
      | H : _ /\ _ |- _ => destruct H as [? H]
      end;
      subst d; cbn [p1 p2 corners THREE.x THREE.y THREE.z] in H1, H2;
      first [congruence | lra].
  - unfold edges. cbv zeta. rewrite !length_app.
    pose proof length_drawIf as L.
    destruct (negb (has blockMap b 0 1 0)), (negb (has blockMap b 0 (-1) 0));
      rewrite ?length_app; cbn [length];
      repeat match goal with
      | |- context [length (drawIf ?c ?a ?e ?bi)] =>
          let H := fresh in
          pose proof (L c a e bi) as H;
          generalize dependent (length (drawIf c a e bi)); intros
      end; lia.
  - intros d xDir zDir Hd Hb. apply edges_cases in Hd.
    destruct Hd as [[Hu Hd]|[[Hu Hd]|Hd]];
      repeat match goal with
      | H : _ \/ _ |- _ => destruct H as [H|H]
      | H : _ /\ _ |- _ => destruct H as [? H]
      end;
      subst d; cbn [bias] in Hb; try discriminate Hb;
      match type of Hb with
      | (if ?c then _ else _) = _ => destruct c eqn:E; [|discriminate Hb]
      end;
      injection Hb as <- <-; cbn [p1 p2 corners THREE.x THREE.z]; auto.
Qed.

(** Two cubes side by side: the first draws nothing in the face they
    share. *)
Lemma shared_faces_carry_no_edges_witness :
  has Scene.pairMap Scene.cube000 1 0 0 = true
  /\ mkDraw tlf tlb None ∈ edges Scene.pairMap Scene.cube000
  /\ ~ (onFace 1 0 0 (p1 (mkDraw tlf tlb None)) /\ onFace 1 0 0 (p2 (mkDraw tlf tlb None))).
Proof.
  assert (Hin : mkDraw tlf tlb None ∈ edges Scene.pairMap Scene.cube000).
  { unfold edges. cbv zeta.
    replace (has Scene.pairMap Scene.cube000 0 1 0) with false by reflexivity.
    replace (has Scene.pairMap Scene.cube000 (-1) 0 0) with false by reflexivity.
    replace (has Scene.pairMap Scene.cube000 1 0 0) with true by reflexivity.
    cbn [negb drawIf app]. left. }
  split; [reflexivity|]. split; [exact Hin|].
  apply (proj1 (shared_faces_carry_no_edges Scene.pairMap Scene.cube000) 1%Z 0%Z 0%Z).
  - left.
  - reflexivity.
  - exact Hin.
Defined.

End Edges.
